(** * GeminiAudioComparison: response recovery and timestamp normalisation

    A shallow embedding of the Gemini service module: the timestamp
    normaliser [normalizeTimestamp], the three-tier recovery function
    [tryRepairJson], and the contract logic of [transcribeAudio] and
    [translateSegments], together with the parts of the JavaScript runtime
    they rely on (strings of UTF-16 code units, IEEE-754 doubles, regular
    expressions with backtracking, [JSON.parse], promises raced against an
    abort signal). *)

From Stdlib Require Import String Ascii.
From Stdlib Require Import List NArith ZArith Bool Lia Sorted.
From Stdlib Require Import DecimalString.
From Stdlib Require Import Floats.SpecFloat.
Import ListNotations.

Set Implicit Arguments.

(* ================================================================= *)
(** * Part I: definitions *)
(* ================================================================= *)

(** ** JavaScript strings

    A JavaScript string is a sequence of 16-bit code units.  Code units are
    kept as [N]; string literals of the source are written [lit "..."]. *)

Abbreviation jchar := N (only parsing).
Abbreviation jstring := (list N) (only parsing).

Definition lit (s : string) : jstring :=
  map N_of_ascii (list_ascii_of_string s).
Arguments lit s%_string.

(** A few code units that cannot be typed inside a literal. *)
Definition c_dquote : jchar := 34%N.
Definition c_squote : jchar := 39%N.
Definition c_bslash : jchar := 92%N.

(** [dq s] is [s] between double quotes, [sq s] between single quotes. *)
Definition dq (s : jstring) : jstring := c_dquote :: s ++ [c_dquote].
Definition sq (s : jstring) : jstring := c_squote :: s ++ [c_squote].

Fixpoint jstr_eqb (a b : jstring) : bool :=
  match a, b with
  | [], [] => true
  | x :: a', y :: b' => N.eqb x y && jstr_eqb a' b'
  | _, _ => false
  end.

(** [\d] *)
Definition is_digit (c : jchar) : bool := (48 <=? c)%N && (c <=? 57)%N.

(** ECMAScript LineTerminator: LF, CR, LS, PS. *)
Definition is_line_terminator (c : jchar) : bool :=
  N.eqb c 10 || N.eqb c 13 || N.eqb c 8232 || N.eqb c 8233.

(** ECMAScript WhiteSpace or LineTerminator: the class [\s] of regular
    expressions, and what [String.prototype.trim] removes. *)
Definition is_space (c : jchar) : bool :=
  N.eqb c 9 || N.eqb c 11 || N.eqb c 12 || N.eqb c 32 || N.eqb c 160
  || N.eqb c 5760 || ((8192 <=? c)%N && (c <=? 8202)%N)
  || N.eqb c 8239 || N.eqb c 8287 || N.eqb c 12288 || N.eqb c 65279
  || is_line_terminator c.

Fixpoint trim_start (s : jstring) : jstring :=
  match s with
  | c :: r => if is_space c then trim_start r else s
  | [] => []
  end.

Definition trim_end (s : jstring) : jstring := rev (trim_start (rev s)).

(** [s.trim()] *)
Definition trim (s : jstring) : jstring := trim_end (trim_start s).

(** [s.includes(c)] for a one-character needle. *)
Definition includes_char (c : jchar) (s : jstring) : bool :=
  existsb (N.eqb c) s.

Fixpoint starts_with (p s : jstring) : bool :=
  match p, s with
  | [], _ => true
  | x :: p', y :: s' => N.eqb x y && starts_with p' s'
  | _ :: _, [] => false
  end.

(** [s.includes(needle)] *)
Fixpoint includes (needle s : jstring) : bool :=
  starts_with needle s
  || match s with
     | [] => false
     | _ :: r => includes needle r
     end.

(** [s.substring(0, n)] *)
Definition substring0 (n : nat) (s : jstring) : jstring := firstn n s.

(** [s.padStart(n, '0')] and [s.padEnd(n, '0')] *)
Definition padStart0 (n : nat) (s : jstring) : jstring :=
  repeat 48%N (n - length s) ++ s.
Definition padEnd0 (n : nat) (s : jstring) : jstring :=
  s ++ repeat 48%N (n - length s).

(** [s.replace(/[..]/g, '')] for a one-character class: every code unit of
    the class is deleted. *)
Definition remove_class (cls : jchar -> bool) (s : jstring) : jstring :=
  filter (fun c => negb (cls c)) s.

(** [s.split(/[..]/)] for a one-character class.  The result is never empty:
    the empty string splits into one empty component. *)
Fixpoint split_class (cls : jchar -> bool) (s : jstring) : list jstring :=
  match s with
  | [] => [[]]
  | c :: r =>
      if cls c then [] :: split_class cls r
      else match split_class cls r with
           | w :: ws => (c :: w) :: ws
           | [] => [[c]]
           end
  end.

(** [s.replace(/pq/g, r)] for a two-character literal pattern [p q]:
    non-overlapping occurrences, left to right. *)
Fixpoint replace_pair (p q : jchar) (r : jstring) (s : jstring) : jstring :=
  match s with
  | a :: ((b :: t) as s') =>
      if N.eqb a p && N.eqb b q then r ++ replace_pair p q r t
      else a :: replace_pair p q r s'
  | _ => s
  end.

(** [s.replace(/c/g, r)] for a one-character literal pattern. *)
Definition replace_char (c : jchar) (r : jstring) (s : jstring) : jstring :=
  flat_map (fun a => if N.eqb a c then r else [a]) s.

(** [s.lastIndexOf(c)], [None] for -1. *)
Fixpoint lastIndexOf_from (c : jchar) (s : jstring) (i : nat) (found : option nat)
  : option nat :=
  match s with
  | [] => found
  | a :: r => lastIndexOf_from c r (S i) (if N.eqb a c then Some i else found)
  end.
Definition lastIndexOf (c : jchar) (s : jstring) : option nat :=
  lastIndexOf_from c s 0 None.

(** [span p s]: the longest prefix of [s] whose code units satisfy [p], and
    the rest. *)
Fixpoint span (p : jchar -> bool) (s : jstring) : jstring * jstring :=
  match s with
  | c :: r => if p c then let (a, b) := span p r in (c :: a, b) else ([], s)
  | [] => ([], [])
  end.

(** ** IEEE-754 binary64 numbers

    The Number type is the binary64 format of the Standard Library's
    [SpecFloat]: 53 bits of precision, round to nearest even. *)

Definition double := spec_float.
Definition prec : Z := 53.
Definition emax : Z := 1024.

Definition d_div : double -> double -> double := SFdiv prec emax.
Definition d_mul : double -> double -> double := SFmul prec emax.
Definition d_of_Z (z : Z) : double := binary_normalize prec emax z 0 false.

(** The double nearest to [(-1)^neg * m * 10^e10]. *)
Definition d_of_decimal (neg : bool) (m : N) (e10 : Z) : double :=
  match m with
  | N0 => S754_zero neg
  | Npos p =>
      if (0 <=? e10)%Z
      then binary_normalize prec emax
             (cond_Zopp neg (Zpos p * 10 ^ e10)%Z) 0 neg
      else SFdiv prec emax (S754_finite neg p 0)
                           (S754_finite false (Z.to_pos (10 ^ (- e10))) 0)
  end.

(** [x % y]: the remainder of the truncating division, which is exact. *)
Definition d_rem (x y : double) : double :=
  match x, y with
  | S754_nan, _ | _, S754_nan => S754_nan
  | S754_infinity _, _ => S754_nan
  | _, S754_zero _ => S754_nan
  | _, S754_infinity _ => x
  | S754_zero _, _ => x
  | S754_finite sx mx ex, S754_finite _ my ey =>
      let e := Z.min ex ey in
      let X := (Zpos mx * 2 ^ (ex - e))%Z in
      let Y := (Zpos my * 2 ^ (ey - e))%Z in
      binary_normalize prec emax (cond_Zopp sx (X mod Y)%Z) e sx
  end.

(** [Math.floor(x)] *)
Definition d_floor (x : double) : double :=
  match x with
  | S754_finite s m e =>
      if (0 <=? e)%Z then x
      else binary_normalize prec emax
             (cond_Zopp s (Zpos m) / 2 ^ (- e))%Z 0 s
  | _ => x
  end.

(** [Math.round(x)]: the integer nearest to [x], ties towards +infinity. *)
Definition d_round (x : double) : double :=
  match x with
  | S754_finite s m e =>
      if (0 <=? e)%Z then x
      else binary_normalize prec emax
             ((2 * cond_Zopp s (Zpos m) + 2 ^ (- e)) / (2 * 2 ^ (- e)))%Z 0 s
  | _ => x
  end.

(** Value of a run of decimal digits. *)
Definition digits_value (s : jstring) : N :=
  fold_left (fun acc c => (acc * 10 + (c - 48))%N) s 0%N.

Definition is_sign (c : jchar) : bool := N.eqb c 43 || N.eqb c 45.
Definition is_exp_mark (c : jchar) : bool := N.eqb c 101 || N.eqb c 69.

(** An optional exponent part [e[+-]digits]; the value is 0, and nothing is
    consumed, when there is none. *)
Definition read_exponent (s : jstring) : Z * jstring :=
  match s with
  | m :: r =>
      if is_exp_mark m then
        let (neg, r1) :=
          match r with
          | sg :: r' => if is_sign sg then (N.eqb sg 45, r') else (false, r)
          | [] => (false, r)
          end in
        let (ds, r2) := span is_digit r1 in
        match ds with
        | [] => (0%Z, s)
        | _ => (cond_Zopp neg (Z.of_N (digits_value ds)), r2)
        end
      else (0%Z, s)
  | [] => (0%Z, s)
  end.

(** [parseFloat(s)]: the longest prefix of the trimmed string that is a
    decimal literal, NaN when there is none. *)
Definition parseFloat (s : jstring) : double :=
  let s1 := trim_start s in
  let (neg, s2) :=
    match s1 with
    | sg :: r => if is_sign sg then (N.eqb sg 45, r) else (false, s1)
    | [] => (false, s1)
    end in
  if starts_with (lit "Infinity") s2 then S754_infinity neg
  else
    let (ip, r1) := span is_digit s2 in
    let (fp, r2) :=
      match r1 with
      | d :: r => if N.eqb d 46 then span is_digit r else ([], r1)
      | [] => ([], r1)
      end in
    match ip ++ fp with
    | [] => S754_nan
    | ds =>
        let (ex, _) := read_exponent r2 in
        d_of_decimal neg (digits_value ds) (ex - Z.of_nat (length fp))
    end.

(** Decimal digits of a natural number, most significant first. *)
Definition decimal_digits (n : N) : jstring :=
  lit (NilEmpty.string_of_uint (N.to_uint n)).

(** *** Number::toString

    For a positive finite [x = m * 2^e] the digits are the shortest decimal
    [s * 10^(n-k)] (with [k] digits in [s]) whose nearest double is [x], the
    closest to [x] when several have that length. *)

Definition d_eqb (x y : double) : bool :=
  match SFcompare x y with Some Eq => true | _ => false end.

(** [x] as a fraction of positive integers. *)
Definition frac_of (m : positive) (e : Z) : Z * Z :=
  if (0 <=? e)%Z then (Zpos m * 2 ^ e, 1)%Z else (Zpos m, 2 ^ (- e))%Z.

(** [10^p] as a fraction. *)
Definition pow10_frac (p : Z) : Z * Z :=
  if (0 <=? p)%Z then (10 ^ p, 1)%Z else (1, 10 ^ (- p))%Z.

(** The least [i >= from] with [num * 10^i >= den], searched upwards. *)
Fixpoint first_scale (fuel : nat) (num den : Z) (i : Z) : Z :=
  match fuel with
  | O => i
  | S f => if (den <=? num * 10 ^ i)%Z then i else first_scale f num den (i + 1)%Z
  end.

(** The [n] with [10^(n-1) <= x < 10^n]. *)
Definition decimal_exponent (m : positive) (e : Z) : Z :=
  let (num, den) := frac_of m e in
  if (den <=? num)%Z
  then Z.of_nat (length (decimal_digits (Z.to_N (num / den))))
  else (1 - first_scale 400 num den 1)%Z.

(** The candidates with [k] digits: the multiples of [10^(n0-k)] just below
    and just above [x]; the result is the digit string [s] and the exponent
    [n], if one of them reads back as [x]. *)
Definition shortest_at (x : double) (m : positive) (e n0 k : Z)
  : option (Z * Z) :=
  let p := (n0 - k)%Z in
  let (xn, xd) := frac_of m e in
  let (pn, pd) := pow10_frac p in
  let lo := ((xn * pd) / (xd * pn))%Z in
  let hi := (lo + 1)%Z in
  let ok s := d_eqb (d_of_decimal false (Z.to_N s) p) x in
  let fix_up s := if (s =? 10 ^ k)%Z then (10 ^ (k - 1), n0 + 1)%Z else (s, n0) in
  match ok lo, ok hi with
  | true, false => Some (lo, n0)
  | false, true => Some (fix_up hi)
  | false, false => None
  | true, true =>
      match (2 * xn * pd ?= (2 * lo + 1) * pn * xd)%Z with
      | Lt => Some (lo, n0)
      | Gt => Some (fix_up hi)
      | Eq => if Z.even lo then Some (lo, n0) else Some (fix_up hi)
      end
  end.

Fixpoint shortest_from (fuel : nat) (x : double) (m : positive) (e n0 k : Z)
  : Z * Z :=
  match fuel with
  | O => (0, 0)%Z
  | S f =>
      match shortest_at x m e n0 k with
      | Some r => r
      | None => shortest_from f x m e n0 (k + 1)%Z
      end
  end.

Definition zeros (n : Z) : jstring := repeat 48%N (Z.to_nat n).

Definition format_number (s n : Z) : jstring :=
  let ds := decimal_digits (Z.to_N s) in
  let k := Z.of_nat (length ds) in
  if ((k <=? n) && (n <=? 21))%Z then ds ++ zeros (n - k)
  else if ((0 <? n) && (n <=? 21))%Z then
    firstn (Z.to_nat n) ds ++ lit "." ++ skipn (Z.to_nat n) ds
  else if ((-6 <? n) && (n <=? 0))%Z then
    lit "0." ++ zeros (- n) ++ ds
  else
    let ex := (n - 1)%Z in
    let exs := (if (ex <? 0)%Z then lit "-" else lit "+")
               ++ decimal_digits (Z.to_N (Z.abs ex)) in
    match ds with
    | [d] => d :: lit "e" ++ exs
    | d :: rest => d :: lit "." ++ rest ++ lit "e" ++ exs
    | [] => []
    end.

Definition number_to_string_pos (m : positive) (e : Z) : jstring :=
  let x := S754_finite false m e in
  let n0 := decimal_exponent m e in
  let (s, n) := shortest_from 17 x m e n0 1 in
  format_number s n.

(** [String(x)] for a Number. *)
Definition number_to_string (x : double) : jstring :=
  match x with
  | S754_nan => lit "NaN"
  | S754_zero _ => lit "0"
  | S754_infinity false => lit "Infinity"
  | S754_infinity true => lit "-Infinity"
  | S754_finite false m e => number_to_string_pos m e
  | S754_finite true m e => lit "-" ++ number_to_string_pos m e
  end.

(** ** Regular expressions

    The matcher follows the continuation-passing semantics of the ECMAScript
    specification (no flag other than [g] is used by the source): a pattern
    is run on a state and a continuation, alternatives are tried left to
    right, [*] is greedy and an iteration that consumes nothing is rejected. *)

Inductive regex :=
| RChar (p : jchar -> bool)
| REmpty
| RSeq (r1 r2 : regex)
| RAlt (r1 r2 : regex)
| RStar (r : regex)
| RGroup (i : nat) (r : regex)
| RBol
| REol.

(** [r+] and [r?] (for an [r] that matches no empty string). *)
Definition RPlus (r : regex) : regex := RSeq r (RStar r).
Definition ROpt (r : regex) : regex := RAlt r REmpty.

Definition re_seq (rs : list regex) : regex := fold_right RSeq REmpty rs.
Definition re_char (c : jchar) : regex := RChar (N.eqb c).
Definition re_lit (s : jstring) : regex := re_seq (map re_char s).

(** The state of a match: index of the next code unit, the input from there
    on, and the captures made so far (most recent first). *)
Record mstate := MState {
  ms_pos : nat;
  ms_rest : jstring;
  ms_caps : list (nat * jstring)
}.

Fixpoint get_cap (i : nat) (caps : list (nat * jstring)) : option jstring :=
  match caps with
  | [] => None
  | (j, w) :: r => if Nat.eqb i j then Some w else get_cap i r
  end.

Fixpoint groups_of (r : regex) : list nat :=
  match r with
  | RSeq a b | RAlt a b => groups_of a ++ groups_of b
  | RStar a => groups_of a
  | RGroup i a => i :: groups_of a
  | _ => []
  end.

(** Captures of the groups under a [*] are reset when an iteration starts. *)
Definition clear_caps (gs : list nat) (st : mstate) : mstate :=
  MState (ms_pos st) (ms_rest st)
         (filter (fun e => negb (existsb (Nat.eqb (fst e)) gs)) (ms_caps st)).

Definition set_cap (i : nat) (from : mstate) (st : mstate) : mstate :=
  MState (ms_pos st) (ms_rest st)
         ((i, firstn (ms_pos st - ms_pos from) (ms_rest from)) :: ms_caps st).

Definition or_else {A} (a b : option A) : option A :=
  match a with Some _ => a | None => b end.

(** The iterations of [r*], for the matcher [step] of [r] whose groups are
    [gs]: one more iteration is tried first, and must consume something;
    the continuation is tried when that fails.  The number of iterations is
    bounded by the length of the input. *)
Fixpoint star_loop (step : mstate -> (mstate -> option mstate) -> option mstate)
    (gs : list nat) (k : mstate -> option mstate) (fuel : nat) (st : mstate)
  : option mstate :=
  match fuel with
  | O => k st
  | S f =>
      or_else
        (step (clear_caps gs st)
           (fun st1 =>
              if Nat.eqb (ms_pos st1) (ms_pos st) then None
              else star_loop step gs k f st1))
        (k st)
  end.

Fixpoint rmatch (r : regex) (st : mstate) (k : mstate -> option mstate)
  : option mstate :=
  match r with
  | RChar p =>
      match ms_rest st with
      | c :: rest =>
          if p c then k (MState (S (ms_pos st)) rest (ms_caps st)) else None
      | [] => None
      end
  | REmpty => k st
  | RSeq r1 r2 => rmatch r1 st (fun st1 => rmatch r2 st1 k)
  | RAlt r1 r2 => or_else (rmatch r1 st k) (rmatch r2 st k)
  | RStar r1 =>
      star_loop (rmatch r1) (groups_of r1) k (S (length (ms_rest st))) st
  | RGroup i r1 => rmatch r1 st (fun st1 => k (set_cap i st st1))
  | RBol => if Nat.eqb (ms_pos st) 0 then k st else None
  | REol => match ms_rest st with [] => k st | _ :: _ => None end
  end.

(** A match attempted at one position. *)
Definition match_at (r : regex) (pos : nat) (s : jstring) : option mstate :=
  rmatch r (MState pos s []) Some.

(** The leftmost match at or after [pos], where [s] is the input from [pos]
    on: the start index and the final state. *)
Fixpoint rsearch (r : regex) (pos : nat) (s : jstring)
  : option (nat * mstate) :=
  match match_at r pos s with
  | Some st => Some (pos, st)
  | None =>
      match s with
      | [] => None
      | _ :: s' => rsearch r (S pos) s'
      end
  end.

(** [re.test(s)] for a pattern without the [g] flag. *)
Definition regex_test (r : regex) (s : jstring) : bool :=
  match rsearch r 0 s with Some _ => true | None => false end.

(** [s.replace(re, repl)] for a pattern without the [g] flag and a
    replacement text without [$]. *)
Definition regex_replace (r : regex) (repl : jstring) (s : jstring) : jstring :=
  match rsearch r 0 s with
  | Some (start, st) => firstn start s ++ repl ++ ms_rest st
  | None => s
  end.

(** ** The timestamp normaliser *)

(** [/^\d+(\.\d+)?$/] *)
Definition decimal_regex : regex :=
  re_seq [RBol; RPlus (RChar is_digit);
          ROpt (RGroup 1 (RSeq (re_char 46) (RPlus (RChar is_digit))));
          REol].

(** [[\d:.]] and [[:.]] *)
Definition is_timestamp_char (c : jchar) : bool :=
  is_digit c || N.eqb c 58 || N.eqb c 46.
Definition is_separator (c : jchar) : bool := N.eqb c 58 || N.eqb c 46.

(** [String(x).padStart(n, '0')] *)
Definition pad_number (n : nat) (x : double) : jstring :=
  padStart0 n (number_to_string x).

Definition fmt2 (s : jstring) : jstring := substring0 2 (padStart0 2 s).
Definition fmt3 (s : jstring) : jstring := substring0 3 (padEnd0 3 s).

Definition timestamp (hh mm ss mmm : jstring) : jstring :=
  hh ++ lit ":" ++ mm ++ lit ":" ++ ss ++ lit "." ++ mmm.

Definition normalizeTimestamp (ts : jstring) : jstring :=
  match ts with
  | [] => lit "00:00:00.000"
  | _ =>
    let raw := trim ts in
    if regex_test decimal_regex raw && negb (includes_char 58 raw) then
      let totalSeconds := parseFloat raw in
      let h := d_floor (d_div totalSeconds (d_of_Z 3600)) in
      let m := d_floor (d_div (d_rem totalSeconds (d_of_Z 3600)) (d_of_Z 60)) in
      let s := d_floor (d_rem totalSeconds (d_of_Z 60)) in
      let ms := d_round (d_mul (d_rem totalSeconds (d_of_Z 1)) (d_of_Z 1000)) in
      timestamp (pad_number 2 h) (pad_number 2 m) (pad_number 2 s)
                (pad_number 3 ms)
    else
      let clean := remove_class (fun c => negb (is_timestamp_char c)) raw in
      let components := split_class is_separator clean in
      let '(hh, mm, ss, mmm) :=
        match components with
        | c0 :: c1 :: c2 :: c3 :: _ => (c0, c1, c2, c3)
        | [c0; c1; c2] =>
            if Nat.eqb (length c2) 3
            then (lit "00", c0, c1, c2)
            else (c0, c1, c2, lit "000")
        | [c0; c1] => (lit "00", c0, c1, lit "000")
        | [c0] => (lit "00", lit "00", c0, lit "000")
        | [] => (lit "00", lit "00", lit "00", lit "000")
        end in
      timestamp (fmt2 hh) (fmt2 mm) (fmt2 ss) (fmt3 mmm)
  end.

(** ** JSON values and [JSON.parse] *)

#[warnings="-register-all"]
Inductive json :=
| JNull
| JBool (b : bool)
| JNum (x : double)
| JStr (s : jstring)
| JArr (items : list json)
| JObj (members : list (jstring * json)).

(** Defining a property: a key already present keeps its place and takes
    the new value (a duplicate key of a JSON text overwrites). *)
Fixpoint obj_set (key : jstring) (v : json) (ms : list (jstring * json))
  : list (jstring * json) :=
  match ms with
  | [] => [(key, v)]
  | (k, w) :: r =>
      if jstr_eqb k key then (k, v) :: r else (k, w) :: obj_set key v r
  end.

Fixpoint obj_get (key : jstring) (ms : list (jstring * json)) : option json :=
  match ms with
  | [] => None
  | (k, w) :: r => if jstr_eqb k key then Some w else obj_get key r
  end.

Inductive presult (A : Type) :=
| POk (a : A) (rest : jstring)
| PFail
| PFuel.
Arguments POk {A} a rest.
Arguments PFail {A}.
Arguments PFuel {A}.

(** JSON white space: tab, line feed, carriage return, space. *)
Definition is_json_ws (c : jchar) : bool :=
  N.eqb c 9 || N.eqb c 10 || N.eqb c 13 || N.eqb c 32.

Fixpoint skip_ws (s : jstring) : jstring :=
  match s with
  | c :: r => if is_json_ws c then skip_ws r else s
  | [] => []
  end.

Definition hex_value (c : jchar) : option N :=
  if is_digit c then Some (c - 48)%N
  else if ((97 <=? c) && (c <=? 102))%N then Some (c - 87)%N
  else if ((65 <=? c) && (c <=? 70))%N then Some (c - 55)%N
  else None.

Definition hex4 (a b c d : jchar) : option jchar :=
  match hex_value a, hex_value b, hex_value c, hex_value d with
  | Some x, Some y, Some z, Some w =>
      Some (((x * 16 + y) * 16 + z) * 16 + w)%N
  | _, _, _, _ => None
  end.

(** The code unit an escape [\e] stands for, [\u] apart. *)
Definition simple_escape (e : jchar) : option jchar :=
  if N.eqb e 34 then Some 34%N          (* quote *)
  else if N.eqb e 92 then Some 92%N     (* backslash *)
  else if N.eqb e 47 then Some 47%N     (* slash *)
  else if N.eqb e 98 then Some 8%N      (* b *)
  else if N.eqb e 102 then Some 12%N    (* f *)
  else if N.eqb e 110 then Some 10%N    (* n *)
  else if N.eqb e 114 then Some 13%N    (* r *)
  else if N.eqb e 116 then Some 9%N     (* t *)
  else None.

Definition cons_fst {A B} (a : A) (r : option (list A * B)) : option (list A * B) :=
  match r with
  | Some (l, b) => Some (a :: l, b)
  | None => None
  end.

(** The characters of a string literal after its opening quote, up to and
    including the closing quote. *)
Fixpoint parse_string_body (s : jstring) : option (jstring * jstring) :=
  match s with
  | [] => None
  | c :: r =>
      if N.eqb c 34 then Some ([], r)
      else if N.eqb c 92 then
        match r with
        | [] => None
        | e :: r1 =>
            if N.eqb e 117 then
              match r1 with
              | a :: b :: c' :: d :: r2 =>
                  match hex4 a b c' d with
                  | Some u => cons_fst u (parse_string_body r2)
                  | None => None
                  end
              | _ => None
              end
            else
              match simple_escape e with
              | Some u => cons_fst u (parse_string_body r1)
              | None => None
              end
        end
      else if (c <? 32)%N then None
      else cons_fst c (parse_string_body r)
  end.

(** A number token read to its end: an optional minus sign, an integer
    part without a leading zero (unless it is 0 alone), an optional fraction
    of at least one digit and an optional exponent of at least one digit. *)
Definition read_number (s : jstring) : option (double * jstring) :=
  let (neg, s1) :=
    match s with
    | c :: r => if N.eqb c 45 then (true, r) else (false, s)
    | [] => (false, s)
    end in
  let (ip, r1) := span is_digit s1 in
  match ip with
  | [] => None
  | d :: more =>
      if N.eqb d 48 && negb (Nat.eqb (length more) 0) then None
      else
        let frac :=
          match r1 with
          | p :: r =>
              if N.eqb p 46 then
                let (fp, r2) := span is_digit r in
                match fp with [] => None | _ => Some (fp, r2) end
              else Some ([], r1)
          | [] => Some ([], r1)
          end in
        match frac with
        | None => None
        | Some (fp, r2) =>
            let expo :=
              match r2 with
              | m :: r =>
                  if is_exp_mark m then
                    let (eneg, r3) :=
                      match r with
                      | sg :: r' =>
                          if is_sign sg then (N.eqb sg 45, r') else (false, r)
                      | [] => (false, r)
                      end in
                    let (ds, r4) := span is_digit r3 in
                    match ds with
                    | [] => None
                    | _ => Some (cond_Zopp eneg (Z.of_N (digits_value ds)), r4)
                    end
                  else Some (0%Z, r2)
              | [] => Some (0%Z, r2)
              end in
            match expo with
            | None => None
            | Some (ex, r5) =>
                Some (d_of_decimal neg (digits_value (ip ++ fp))
                                   (ex - Z.of_nat (length fp)), r5)
            end
        end
  end.

(** The characters a number is made of. *)
Definition is_number_char (c : jchar) : bool :=
  is_digit c || is_sign c || N.eqb c 46 || is_exp_mark c.

(** A number value: the longest run of number characters, which must be a
    number as a whole.  (No character of a number may follow a number in a
    JSON text, so that a text is accepted exactly when the grammar accepts
    it.) *)
Definition parse_number (s : jstring) : option (double * jstring) :=
  let (tok, r) := span is_number_char s in
  match read_number tok with
  | Some (x, []) => Some (x, r)
  | _ => None
  end.

Definition expect_word (w : jstring) (v : json) (s : jstring) : presult json :=
  if starts_with w s then POk v (skipn (length w) s) else PFail.

(** The recursive-descent parser.  [fuel] bounds the number of nested
    calls; [2 * length s + 2] is always enough (lemma [parse_value_fuel]). *)
Fixpoint parse_value (fuel : nat) (s : jstring) : presult json :=
  match fuel with
  | O => PFuel
  | S f =>
      match skip_ws s with
      | [] => PFail
      | c :: r =>
          if N.eqb c 123 then                         (* { *)
            match skip_ws r with
            | c1 :: r1 =>
                if N.eqb c1 125 then POk (JObj []) r1
                else match parse_members f r [] with
                     | POk ms r2 => POk (JObj ms) r2
                     | PFail => PFail
                     | PFuel => PFuel
                     end
            | [] => PFail
            end
          else if N.eqb c 91 then                     (* [ *)
            match skip_ws r with
            | c1 :: r1 =>
                if N.eqb c1 93 then POk (JArr []) r1
                else match parse_elements f r [] with
                     | POk vs r2 => POk (JArr vs) r2
                     | PFail => PFail
                     | PFuel => PFuel
                     end
            | [] => PFail
            end
          else if N.eqb c 34 then                     (* string *)
            match parse_string_body r with
            | Some (str, r1) => POk (JStr str) r1
            | None => PFail
            end
          else if N.eqb c 116 then expect_word (lit "true") (JBool true) (c :: r)
          else if N.eqb c 102 then expect_word (lit "false") (JBool false) (c :: r)
          else if N.eqb c 110 then expect_word (lit "null") JNull (c :: r)
          else
            match parse_number (c :: r) with
            | Some (x, r1) => POk (JNum x) r1
            | None => PFail
            end
      end
  end

with parse_elements (fuel : nat) (s : jstring) (acc : list json)
  : presult (list json) :=
  match fuel with
  | O => PFuel
  | S f =>
      match parse_value f s with
      | POk v r =>
          match skip_ws r with
          | c :: r1 =>
              if N.eqb c 44 then parse_elements f r1 (acc ++ [v])
              else if N.eqb c 93 then POk (acc ++ [v]) r1
              else PFail
          | [] => PFail
          end
      | PFail => PFail
      | PFuel => PFuel
      end
  end

with parse_members (fuel : nat) (s : jstring) (acc : list (jstring * json))
  : presult (list (jstring * json)) :=
  match fuel with
  | O => PFuel
  | S f =>
      match skip_ws s with
      | q :: r =>
          if N.eqb q 34 then
            match parse_string_body r with
            | Some (key, r1) =>
                match skip_ws r1 with
                | c :: r2 =>
                    if N.eqb c 58 then
                      match parse_value f r2 with
                      | POk v r3 =>
                          match skip_ws r3 with
                          | d :: r4 =>
                              if N.eqb d 44
                              then parse_members f r4 (obj_set key v acc)
                              else if N.eqb d 125
                              then POk (obj_set key v acc) r4
                              else PFail
                          | [] => PFail
                          end
                      | PFail => PFail
                      | PFuel => PFuel
                      end
                    else PFail
                | [] => PFail
                end
            | None => PFail
            end
          else PFail
      | [] => PFail
      end
  end.

(** [JSON.parse(s)]: [None] stands for the SyntaxError it throws. *)
Definition JSON_parse (s : jstring) : option json :=
  match parse_value (2 * length s + 2) s with
  | POk v r => match skip_ws r with [] => Some v | _ :: _ => None end
  | _ => None
  end.

(** ** Errors and outcomes *)

(** The message of an error object: a text chosen by the program, or the
    (non-empty) text the engine gives to an error it throws itself. *)
Inductive message :=
| Text (s : jstring)
| EngineText.

Record js_error := JsError { err_name : jstring; err_message : message }.

(** [new Error(msg)] *)
Definition Error (msg : jstring) : js_error := JsError (lit "Error") (Text msg).
(** The DOMException named AbortError, with message Aborted. *)
Definition AbortError : js_error := JsError (lit "AbortError") (Text (lit "Aborted")).
Definition TypeError : js_error := JsError (lit "TypeError") EngineText.
Definition SyntaxError : js_error := JsError (lit "SyntaxError") EngineText.

(** What a call does: it returns, it throws, or it never comes back. *)
Inductive outcome (A : Type) :=
| Returns (a : A)
| Throws (e : js_error)
| Diverges.
Arguments Returns {A} a.
Arguments Throws {A} e.
Arguments Diverges {A}.

Definition bind {A B} (o : outcome A) (f : A -> outcome B) : outcome B :=
  match o with
  | Returns a => f a
  | Throws e => Throws e
  | Diverges => Diverges
  end.

Notation "x <- o ;; k" := (bind o (fun x => k))
  (at level 61, o at next level, right associativity).

Fixpoint mapM {A B} (f : A -> outcome B) (l : list A) : outcome (list B) :=
  match l with
  | [] => Returns []
  | a :: r => b <- f a ;; bs <- mapM f r ;; Returns (b :: bs)
  end.

(** ** Property access and coercions on parsed values

    A value is a [json] or [undefined] ([None]). *)

(** [v.key] for one of the keys used by the source ([segments],
    [startTime], [endTime], [text]), none of which is defined on a
    prototype: reading a property of [null] throws a TypeError. *)
Definition get_prop (v : json) (key : jstring) : outcome (option json) :=
  match v with
  | JNull => Throws TypeError
  | JObj ms => Returns (obj_get key ms)
  | _ => Returns None
  end.

(** Truthiness. *)
Definition truthy (v : option json) : bool :=
  match v with
  | None | Some JNull | Some (JBool false) => false
  | Some (JNum (S754_zero _)) | Some (JNum S754_nan) => false
  | Some (JStr []) => false
  | Some _ => true
  end.

Definition is_array (v : option json) : bool :=
  match v with Some (JArr _) => true | _ => false end.

Fixpoint join (sep : jstring) (l : list jstring) : jstring :=
  match l with
  | [] => []
  | [a] => a
  | a :: r => a ++ sep ++ join sep r
  end.

(** [String(v)].  An array is joined with commas, [null] elements giving
    the empty string; a plain object gives [[object Object]], unless it
    has an own [toString] member, which is then not callable and makes the
    conversion throw. *)
Fixpoint to_String (v : json) : outcome jstring :=
  match v with
  | JNull => Returns (lit "null")
  | JBool true => Returns (lit "true")
  | JBool false => Returns (lit "false")
  | JNum x => Returns (number_to_string x)
  | JStr s => Returns s
  | JArr items =>
      parts <- (fix each (l : list json) : outcome (list jstring) :=
                  match l with
                  | [] => Returns []
                  | JNull :: r => ps <- each r ;; Returns ([] :: ps)
                  | a :: r => p <- to_String a ;; ps <- each r ;; Returns (p :: ps)
                  end) items ;;
      Returns (join (lit ",") parts)
  | JObj ms =>
      match obj_get (lit "toString") ms with
      | Some _ => Throws TypeError
      | None => Returns (lit "[object Object]")
      end
  end.

Definition String_of (v : option json) : outcome jstring :=
  match v with
  | None => Returns (lit "undefined")
  | Some j => to_String j
  end.

(** ** The recovery function *)

Definition re_ws : regex := RStar (RChar is_space).

(** A run of characters other than the quote [q] and the backslash, or of
    backslash-escaped characters (a backslash and any character that is
    not a line terminator). *)
Definition re_quoted_body (q : jchar) : regex :=
  RStar (RAlt (RChar (fun c => negb (N.eqb c q || N.eqb c c_bslash)))
              (RSeq (re_char c_bslash)
                    (RChar (fun c => negb (is_line_terminator c))))).

(** A non-empty run of characters other than the double quote, between
    double quotes, captured as group [i]. *)
Definition re_time_value (i : nat) : regex :=
  re_seq [re_char c_dquote;
          RGroup i (RPlus (RChar (fun c => negb (N.eqb c c_dquote))));
          re_char c_dquote].

(** The key between double quotes, then a colon, with optional white space
    before and after the colon. *)
Definition re_key (name : jstring) : regex :=
  re_seq [re_lit (dq name); re_ws; re_char 58; re_ws].

Definition segmentRegex : regex :=
  re_seq [re_char 123; re_ws;
          re_key (lit "startTime"); re_time_value 1; re_ws; re_char 44; re_ws;
          re_key (lit "endTime"); re_time_value 2; re_ws; re_char 44; re_ws;
          re_key (lit "text");
          RAlt (re_seq [re_char c_dquote; RGroup 3 (re_quoted_body c_dquote);
                        re_char c_dquote])
               (re_seq [re_char c_squote; RGroup 4 (re_quoted_body c_squote);
                        re_char c_squote])].

Definition cap_or_empty (i : nat) (st : mstate) : jstring :=
  match get_cap i (ms_caps st) with Some w => w | None => [] end.

(** [match[3] !== undefined ? match[3] : match[4]] *)
Definition raw_text_of (st : mstate) : jstring :=
  match get_cap 3 (ms_caps st) with
  | Some w => w
  | None => cap_or_empty 4 st
  end.

(** The unescaping of the captured text: [JSON.parse] on the text between
    double quotes (its own double quotes escaped), and three substitutions
    when that throws. *)
Definition unescape_text (rawText : jstring) : json :=
  match JSON_parse (dq (replace_char c_dquote [c_bslash; c_dquote] rawText)) with
  | Some v => v
  | None =>
      JStr (replace_pair c_bslash c_bslash [c_bslash]
             (replace_pair c_bslash c_squote [c_squote]
               (replace_pair c_bslash c_dquote [c_dquote] rawText)))
  end.

Definition key_startTime := lit "startTime".
Definition key_endTime := lit "endTime".
Definition key_text := lit "text".
Definition key_segments := lit "segments".

(** The object pushed for one match. *)
Definition segment_of_match (st : mstate) : json :=
  JObj [(key_startTime, JStr (cap_or_empty 1 st));
        (key_endTime, JStr (cap_or_empty 2 st));
        (key_text, unescape_text (raw_text_of st))].

(** The [while ((match = segmentRegex.exec(trimmed)) !== null)] loop: the
    matches in the order they are found, as (start index, final state);
    [lastIndex] is the position after the previous match.  [None] when the
    fuel runs out, which a loop that never ends would do. *)
Fixpoint scan_matches (fuel : nat) (lastIndex : nat) (s : jstring)
  : option (list (nat * mstate)) :=
  match fuel with
  | O => None
  | S f =>
      match rsearch segmentRegex lastIndex s with
      | None => Some []
      | Some (start, st) =>
          match scan_matches f (ms_pos st) (ms_rest st) with
          | Some l => Some ((start, st) :: l)
          | None => None
          end
      end
  end.

Definition has_segments_array (v : json) : bool :=
  match get_prop v key_segments with
  | Returns p => truthy p && is_array p
  | _ => false
  end.

(** Tier 1: the text parses and has a [segments] array. *)
Definition tier1 (trimmed : jstring) : option json :=
  match JSON_parse trimmed with
  | Some parsed => if has_segments_array parsed then Some parsed else None
  | None => None
  end.

(** Tier 2: the text cut after its last closing brace and closed by
    a bracket and a brace parses and has a [segments] array. *)
Definition repaired_text (trimmed : jstring) (lastObjectEnd : nat) : jstring :=
  firstn (lastObjectEnd + 1) trimmed ++ lit "]}".

Definition tier2 (trimmed : jstring) : option json :=
  match lastIndexOf 125 trimmed with
  | Some lastObjectEnd =>
      match JSON_parse (repaired_text trimmed lastObjectEnd) with
      | Some parsed => if has_segments_array parsed then Some parsed else None
      | None => None
      end
  | None => None
  end.

(** Tier 3: the segments scraped by the pattern. *)
Definition tier3 (trimmed : jstring) : option (list json) :=
  match scan_matches (S (length trimmed)) 0 trimmed with
  | Some ms => Some (map (fun m => segment_of_match (snd m)) ms)
  | None => None
  end.

Definition structure_invalid : js_error :=
  Error (lit "Response structure invalid and could not be repaired.").

Definition tryRepairJson (jsonString : jstring) : outcome json :=
  let trimmed := trim jsonString in
  match tier1 trimmed with
  | Some parsed => Returns parsed
  | None =>
      match tier2 trimmed with
      | Some parsed => Returns parsed
      | None =>
          match tier3 trimmed with
          | None => Diverges
          | Some [] => Throws structure_invalid
          | Some segments => Returns (JObj [(key_segments, JArr segments)])
          end
      end
  end.

(** ** The transcription client *)

Record segment := Segment {
  startTime : jstring;
  endTime : jstring;
  text : jstring
}.

(** The response of the model, of which only [response.text] is read:
    [None] is [undefined]. *)
Record response := Response { resp_text : option jstring }.

Definition c_backtick : jchar := 96.
Definition fence : jstring := [c_backtick; c_backtick; c_backtick].

(** The three patterns of the fence stripping: an opening fence tagged json
    at the start, an opening fence at the start, a closing fence at the
    end, each with the white space next to it. *)
Definition open_json_fence_regex : regex :=
  re_seq [RBol; re_lit (fence ++ lit "json"); re_ws].
Definition open_fence_regex : regex :=
  re_seq [RBol; re_lit fence; re_ws].
Definition close_fence_regex : regex :=
  re_seq [re_ws; re_lit fence; REol].

(** [text.trim()] followed by the removal of a Markdown code fence. *)
Definition strip_fences (text : jstring) : jstring :=
  let text := trim text in
  if starts_with (fence ++ lit "json") text then
    regex_replace close_fence_regex []
      (regex_replace open_json_fence_regex [] text)
  else if starts_with fence text then
    regex_replace close_fence_regex []
      (regex_replace open_fence_regex [] text)
  else text.

(** The callback of [segments.map]. *)
Definition convert_segment (s : json) : outcome segment :=
  st <- get_prop s key_startTime ;;
  sts <- String_of st ;;
  en <- get_prop s key_endTime ;;
  ens <- String_of en ;;
  tx <- get_prop s key_text ;;
  txs <- String_of tx ;;
  Returns (Segment (normalizeTimestamp sts) (normalizeTimestamp ens) txs).

(** [parsed.segments || []], for a [parsed] that [tryRepairJson] returned. *)
Definition segments_or_empty (parsed : json) : outcome (list json) :=
  p <- get_prop parsed key_segments ;;
  match p with
  | Some (JArr items) => Returns items
  | Some _ => if truthy p then Throws TypeError else Returns []
  | None => Returns []
  end.

(** The body of the [try] block once the response has arrived. *)
Definition transcribe_response (r : response) : outcome (list segment) :=
  match resp_text r with
  | None | Some [] => Throws (Error (lit "Empty response from model"))
  | Some text =>
      parsed <- tryRepairJson (strip_fences text) ;;
      segments <- segments_or_empty parsed ;;
      mapM convert_segment segments
  end.

(** The [catch] clause: an error named AbortError is thrown again as it is,
    any other error is replaced by a new Error carrying its message, or
    a generic message when it has none. *)
Definition transcribe_catch {A} (o : outcome A) : outcome A :=
  match o with
  | Throws error =>
      if jstr_eqb (err_name error) (lit "AbortError") then Throws error
      else Throws (JsError (lit "Error")
                     (match err_message error with
                      | Text [] => Text (lit "Transcription failed")
                      | m => m
                      end))
  | _ => o
  end.

(** *** The race between the request and the abort signal

    A promise is pending or settled, and settles once.  The request promise
    returned by the SDK's asynchronous [generateContent] is pending when
    [Promise.race] receives it; [abortPromise] is already rejected when the
    signal is aborted at call time, and is rejected by the listener when an
    abort event fires later.  The race settles like the first of the two
    that settles.  What happens while the call awaits is a trace of
    events. *)

Inductive promise (A : Type) :=
| Pending
| Fulfilled (a : A)
| Rejected (e : js_error).
Arguments Pending {A}.
Arguments Fulfilled {A} a.
Arguments Rejected {A} e.

(** Resolving or rejecting a promise that is already settled does nothing. *)
Definition settle {A} (p r : promise A) : promise A :=
  match p with
  | Pending => r
  | _ => p
  end.

(** How the request settles. *)
Inductive settlement :=
| Resolves (r : response)
| Rejects (e : js_error).

Definition settled (s : settlement) : promise response :=
  match s with
  | Resolves r => Fulfilled r
  | Rejects e => Rejected e
  end.

Inductive event :=
| EvAbort                            (* the signal fires its abort event *)
| EvTransport (s : settlement).      (* the request settles *)

Record race_state := RaceState {
  p_request : promise response;
  p_abort : promise response;
  p_race : promise response
}.

(** [signal] is [None] when no signal is passed, [Some b] when one is, with
    [b] its [aborted] flag at call time. *)
Definition race_start (signal : option bool) : race_state :=
  let abortPromise :=
    match signal with
    | Some true => Rejected AbortError
    | _ => Pending
    end in
  RaceState Pending abortPromise (settle Pending abortPromise).

Definition race_step (signal : option bool) (st : race_state) (ev : event)
  : race_state :=
  match ev with
  | EvAbort =>
      match signal with
      | Some _ =>
          match p_abort st with
          | Pending =>
              RaceState (p_request st) (Rejected AbortError)
                        (settle (p_race st) (Rejected AbortError))
          | _ => st
          end
      | None => st
      end
  | EvTransport s =>
      match p_request st with
      | Pending =>
          RaceState (settled s) (p_abort st) (settle (p_race st) (settled s))
      | _ => st
      end
  end.

Definition race_run (signal : option bool) (trace : list event) : race_state :=
  fold_left (race_step signal) trace (race_start signal).

(** [transcribeAudio], for a signal and a trace of events: the awaited race,
    then the body of the [try] block, under the [catch] clause.  The model
    name, the audio and its type only make the request, whose answer is in
    the trace. *)
Definition transcribeAudio (signal : option bool) (trace : list event)
  : outcome (list segment) :=
  match p_race (race_run signal trace) with
  | Pending => Diverges
  | Fulfilled r => transcribe_catch (transcribe_response r)
  | Rejected e => transcribe_catch (Throws e)
  end.

(** ** The translation client *)

(** [parsed.segments || []] on any parsed value. *)
Definition translate_result (parsed : json) : outcome json :=
  p <- get_prop parsed key_segments ;;
  match p with
  | Some v => if truthy p then Returns v else Returns (JArr [])
  | None => Returns (JArr [])
  end.

(** [translateSegments] once the response has arrived; its [catch] clause
    logs the error and throws it again. *)
Definition translateSegments (r : response) : outcome json :=
  match resp_text r with
  | None | Some [] => Throws (Error (lit "Empty translation response"))
  | Some text =>
      match JSON_parse (strip_fences text) with
      | Some parsed => translate_result parsed
      | None => Throws SyntaxError
      end
  end.

(** ** Specification predicates *)

(** The canonical format: two digits, a colon, two digits, a colon, two
    digits, a period, three digits. *)
Definition is_canonical (s : jstring) : bool :=
  match s with
  | [h1; h2; c1; m1; m2; c2; s1; s2; p; f1; f2; f3] =>
      is_digit h1 && is_digit h2 && N.eqb c1 58
      && is_digit m1 && is_digit m2 && N.eqb c2 58
      && is_digit s1 && is_digit s2 && N.eqb p 46
      && is_digit f1 && is_digit f2 && is_digit f3
  | _ => false
  end.

(** The declarative reading of the matcher: [matches r st st'] when [r]
    can take the state [st] to [st'].  It ignores the priority among
    alternatives, and is what a successful run of [rmatch] implies. *)
Inductive matches : regex -> mstate -> mstate -> Prop :=
| M_char p c rest pos caps :
    p c = true ->
    matches (RChar p) (MState pos (c :: rest) caps) (MState (S pos) rest caps)
| M_empty st : matches REmpty st st
| M_seq r1 r2 st st1 st2 :
    matches r1 st st1 -> matches r2 st1 st2 -> matches (RSeq r1 r2) st st2
| M_alt_l r1 r2 st st' : matches r1 st st' -> matches (RAlt r1 r2) st st'
| M_alt_r r1 r2 st st' : matches r2 st st' -> matches (RAlt r1 r2) st st'
| M_star_nil r st : matches (RStar r) st st
| M_star_cons r st st1 st2 :
    matches r (clear_caps (groups_of r) st) st1 ->
    ms_pos st1 <> ms_pos st ->
    matches (RStar r) st1 st2 ->
    matches (RStar r) st st2
| M_group i r st st1 :
    matches r st st1 -> matches (RGroup i r) st (set_cap i st st1)
| M_bol st : ms_pos st = 0 -> matches RBol st st
| M_eol st : ms_rest st = [] -> matches REol st st.

(** [consumes st w st']: going from [st] to [st'] reads exactly [w]. *)
Definition consumes (st : mstate) (w : jstring) (st' : mstate) : Prop :=
  ms_rest st = w ++ ms_rest st' /\ ms_pos st' = ms_pos st + length w.

(** A run of items that are either one character other than the quote [q]
    and the backslash, or a backslash followed by a character that is not a
    line terminator. *)
Inductive escaped_run (q : jchar) : jstring -> Prop :=
| ER_nil : escaped_run q []
| ER_plain c w :
    c <> q -> c <> c_bslash -> escaped_run q w -> escaped_run q (c :: w)
| ER_escape c w :
    is_line_terminator c = false -> escaped_run q w ->
    escaped_run q (c_bslash :: c :: w).

Definition all_space (w : jstring) : Prop := Forall (fun c => is_space c = true) w.

(** The one shape tier 3 recognises: an opening brace, the three keys
    [startTime], [endTime], [text] between double quotes and in that order,
    each followed by a colon, the first two values non-empty and between
    double quotes, the third between two quotes [q] of the same kind, double
    or single; white space is allowed around colons and commas, and nothing
    else is allowed in between. *)
Definition segment_shape (frag st_v en_v : jstring) (q : jchar) (body : jstring)
  : Prop :=
  exists w1 w2 w3 w4 w5 w6 w7 w8 w9 w10 w11,
    frag = lit "{" ++ w1 ++ dq key_startTime ++ w2 ++ lit ":" ++ w3
           ++ dq st_v ++ w4 ++ lit "," ++ w5
           ++ dq key_endTime ++ w6 ++ lit ":" ++ w7
           ++ dq en_v ++ w8 ++ lit "," ++ w9
           ++ dq key_text ++ w10 ++ lit ":" ++ w11
           ++ [q] ++ body ++ [q]
    /\ Forall all_space [w1; w2; w3; w4; w5; w6; w7; w8; w9; w10; w11]
    /\ st_v <> [] /\ ~ In c_dquote st_v
    /\ en_v <> [] /\ ~ In c_dquote en_v
    /\ (q = c_dquote \/ q = c_squote)
    /\ escaped_run q body.

(** A match located in a text: it starts at the index it says, reads the
    fragment found there, and its final state is the one the pattern
    reaches from there. *)
Definition match_in (text : jstring) (m : nat * mstate) : Prop :=
  exists pre frag post,
    text = pre ++ frag ++ post
    /\ fst m = length pre
    /\ consumes (MState (length pre) (frag ++ post) []) frag (snd m)
    /\ ms_rest (snd m) = post
    /\ matches segmentRegex (MState (length pre) (frag ++ post) []) (snd m).



(** The fragment of the specification's tier-3 example, whose text value
    is between single quotes and holds an escaped single quote; the text the
    pattern reads stops after the closing single quote. *)
Definition quoted_fragment_read : jstring :=
  lit "{" ++ dq key_startTime ++ lit ": " ++ dq (lit "00:00:01.000")
  ++ lit ", " ++ dq key_endTime ++ lit ": " ++ dq (lit "00:00:02.000")
  ++ lit ", " ++ dq key_text ++ lit ": " ++ sq (lit "it\'s ok").

Definition quoted_fragment : jstring := quoted_fragment_read ++ lit "}".

Definition quoted_fragment_segment : json :=
  JObj [(key_startTime, JStr (lit "00:00:01.000"));
        (key_endTime, JStr (lit "00:00:02.000"));
        (key_text, JStr (lit "it's ok"))].

(** The words of the specification for the success of a parse: the parsed
    value is an object whose [segments] member is an array. *)
Definition yields_segments (parsed : option json) : Prop :=
  exists ms items,
    parsed = Some (JObj ms) /\ obj_get key_segments ms = Some (JArr items).

(** Tier 1 fails: the direct parse does not yield such an object. *)
Definition direct_parse_fails (trimmed : jstring) : Prop :=
  ~ yields_segments (JSON_parse trimmed).

(** Tier 2 fails: there is no closing brace, or the text cut after the last
    one and closed by a bracket and a brace does not yield such an object. *)
Definition truncation_repair_fails (trimmed : jstring) : Prop :=
  forall i, lastIndexOf 125 trimmed = Some i ->
            ~ yields_segments (JSON_parse (firstn (i + 1) trimmed ++ lit "]}")).

(** Tier 3 fails: the pattern matches nowhere. *)
Definition scraping_finds_nothing (trimmed : jstring) : Prop :=
  rsearch segmentRegex 0 trimmed = None.

Definition all_json_ws (w : jstring) : Prop :=
  Forall (fun c => is_json_ws c = true) w.

(** What may follow a value in a text without changing how the value is
    read: anything, except after a number, which no number character may
    follow. *)
Definition number_stop (r : jstring) : bool :=
  match r with
  | [] => true
  | c :: _ => negb (is_number_char c)
  end.

Definition follow_ok (v : json) (r : jstring) : Prop :=
  match v with
  | JNum _ => number_stop r = true
  | _ => True
  end.

Definition is_object (v : json) : bool :=
  match v with JObj _ => true | _ => false end.

(** A text that reads as a whole as one JSON object. *)
Definition object_text (t : jstring) (o : json) : Prop :=
  JSON_parse t = Some o /\ is_object o = true.

(** The opening of a document with a [segments] array, with optional white
    space [a1], [a2], [a3] around the key and the colon. *)
Definition segments_doc_open (a1 a2 a3 : jstring) : jstring :=
  lit "{" ++ a1 ++ dq key_segments ++ a2 ++ lit ":" ++ a3 ++ lit "[".

(** The complete document whose array holds the texts [ts], and the
    document cut after them, followed by the beginning [tail] of one more
    element. *)
Definition segments_doc (a1 a2 a3 : jstring) (ts : list jstring) (a4 a5 : jstring)
  : jstring :=
  segments_doc_open a1 a2 a3 ++ join (lit ",") ts ++ a4 ++ lit "]" ++ a5 ++ lit "}".

Definition truncated_doc (a1 a2 a3 : jstring) (ts : list jstring) (tail : jstring)
  : jstring :=
  segments_doc_open a1 a2 a3 ++ join (lit ",") ts ++ tail.

(** What both tiers return for such a document. *)
Definition segments_object (os : list json) : json :=
  JObj [(key_segments, JArr os)].

(** A truncated document on which the truncation repair does not recover
    the complete object: the final object is cut inside a text that holds a
    closing brace.  Its first object is complete, and has its keys in an
    order the scraping pattern does not know. *)
Definition brace_in_text_first : jstring :=
  lit "{" ++ dq key_endTime ++ lit ":" ++ dq (lit "00:00:02.000") ++ lit ","
  ++ dq key_startTime ++ lit ":" ++ dq (lit "00:00:01.000") ++ lit ","
  ++ dq key_text ++ lit ":" ++ dq (lit "one") ++ lit "}".

Definition brace_in_text_partial : jstring :=
  lit "{" ++ dq key_startTime ++ lit ":" ++ dq (lit "00:00:02.000") ++ lit ","
  ++ dq key_endTime ++ lit ":" ++ dq (lit "00:00:03.000") ++ lit ","
  ++ dq key_text ++ lit ":" ++ [c_dquote] ++ lit "a } b".

Definition brace_in_text_doc : jstring :=
  truncated_doc [] [] [] [brace_in_text_first] (lit "," ++ brace_in_text_partial).


(** A translation response whose timestamps are not in the canonical
    format, and the array it holds. *)
Definition loose_translation_text : jstring :=
  lit "{" ++ dq key_segments ++ lit ":[{" ++ dq key_startTime ++ lit ":"
  ++ dq (lit "5:30") ++ lit "," ++ dq key_endTime ++ lit ":" ++ dq (lit "7")
  ++ lit "," ++ dq key_text ++ lit ":" ++ dq (lit "hi") ++ lit ","
  ++ dq (lit "translatedText") ++ lit ":" ++ dq (lit "salut") ++ lit "}]}".

Definition loose_translation_segments : list json :=
  [JObj [(key_startTime, JStr (lit "5:30")); (key_endTime, JStr (lit "7"));
         (key_text, JStr (lit "hi"));
         (lit "translatedText", JStr (lit "salut"))]].

Definition all_digits (s : jstring) : Prop :=
  Forall (fun c => is_digit c = true) s.

(** The guard of the raw-seconds branch of [normalizeTimestamp]. *)
Definition is_raw_seconds (ts : jstring) : bool :=
  regex_test decimal_regex (trim ts) && negb (includes_char 58 (trim ts)).

(** ** Sample inputs *)

(** What surrounds the single-quoted fragment in a response that is
    otherwise a well-formed document. *)
Definition wrapped_pre : jstring := lit "{" ++ dq key_segments ++ lit ": [".
Definition wrapped_post : jstring := lit "]}".

(** Two complete objects, followed by the beginning of a third. *)
Definition sample_texts : list jstring :=
  [lit "{" ++ dq key_text ++ lit ":" ++ dq (lit "b") ++ lit "}";
   lit " {" ++ dq key_text ++ lit ":" ++ dq (lit "a") ++ lit "} "].
Definition sample_objects : list json :=
  [JObj [(key_text, JStr (lit "b"))]; JObj [(key_text, JStr (lit "a"))]].
Definition sample_tail : jstring :=
  lit ", {" ++ dq key_text ++ lit ": " ++ [c_dquote] ++ lit "hel".

(** Two segments whose timestamps are out of order. *)
Definition unordered_texts : list jstring :=
  [lit "{" ++ dq key_startTime ++ lit ":" ++ dq (lit "9") ++ lit "}";
   lit "{" ++ dq key_startTime ++ lit ":" ++ dq (lit "3") ++ lit "}"].
Definition unordered_objects : list json :=
  [JObj [(key_startTime, JStr (lit "9"))];
   JObj [(key_startTime, JStr (lit "3"))]].
Definition unordered_doc : jstring :=
  segments_doc [] [] [] unordered_texts [] [].

(** The request answers with a well-formed response. *)
Definition late_answer : event :=
  EvTransport (Resolves (Response (Some unordered_doc))).

(** ** Fenced texts *)

(** A text ends with a closing fence. *)
Definition ends_with_fence (x : jstring) : Prop := exists y, x = y ++ fence.

(** The opening fence of a response, tagged json or not. *)
Definition opening_fence (tagged : bool) : jstring :=
  if tagged then fence ++ lit "json" else fence.

(** A text [body] inside a fenced code block, with optional white space
    before and after each fence. *)
Definition fenced (tagged : bool) (ws1 ws2 body ws3 ws4 : jstring) : jstring :=
  ws1 ++ opening_fence tagged ++ ws2 ++ body ++ ws3 ++ fence ++ ws4.

(** ** The previous version of the service

    The module as it was before the recovery function, the abort signal and
    the raw-seconds branch were added. *)

Module Previous.

Definition normalizeTimestamp (ts : jstring) : jstring :=
  match ts with
  | [] => lit "00:00:00.000"
  | _ =>
    let clean := remove_class (fun c => negb (is_timestamp_char c)) ts in
    let components := split_class is_separator clean in
    let '(hh, mm, ss, mmm) :=
      match components with
      | c0 :: c1 :: c2 :: c3 :: _ => (c0, c1, c2, c3)
      | [c0; c1; c2] =>
          if Nat.eqb (length c2) 3
          then (lit "00", c0, c1, c2)
          else (c0, c1, c2, lit "000")
      | [c0; c1] => (lit "00", c0, c1, lit "000")
      | [c0] => (lit "00", lit "00", c0, lit "000")
      | [] => (lit "00", lit "00", lit "00", lit "000")
      end in
    let fHH := substring0 2 (padStart0 2 hh) in
    let fMM := substring0 2 (padStart0 2 mm) in
    let fSS := substring0 2 (padStart0 2 ss) in
    let fMMM := substring0 3 (padEnd0 3 mmm) in
    timestamp fHH fMM fSS fMMM
  end.

(** The callback of [segments.map]. *)
Definition convert_segment (s : json) : outcome segment :=
  st <- get_prop s key_startTime ;;
  sts <- String_of st ;;
  en <- get_prop s key_endTime ;;
  ens <- String_of en ;;
  tx <- get_prop s key_text ;;
  txs <- String_of tx ;;
  Returns (Segment (normalizeTimestamp sts) (normalizeTimestamp ens) txs).

(** The body of the [try] block: the text is parsed as it is. *)
Definition transcribe_response (r : response) : outcome (list segment) :=
  match resp_text r with
  | None | Some [] => Throws (Error (lit "Empty response from model"))
  | Some text =>
      match JSON_parse text with
      | Some parsed =>
          segments <- segments_or_empty parsed ;;
          mapM convert_segment segments
      | None => Throws SyntaxError
      end
  end.

(** The [catch] clause replaces every error by a new Error. *)
Definition transcribe_catch {A} (o : outcome A) : outcome A :=
  match o with
  | Throws error =>
      Throws (JsError (lit "Error")
                (match err_message error with
                 | Text [] => Text (lit "Transcription failed")
                 | m => m
                 end))
  | _ => o
  end.

(** [transcribeAudio], for the promise of the request as it is when the
    call is observed. *)
Definition transcribeAudio (request : promise response)
  : outcome (list segment) :=
  match request with
  | Pending => Diverges
  | Fulfilled r => transcribe_catch (transcribe_response r)
  | Rejected e => transcribe_catch (Throws e)
  end.

(** [translateSegments]: the text is parsed as it is, and the [catch]
    clause throws the error again. *)
Definition translateSegments (r : response) : outcome json :=
  match resp_text r with
  | None | Some [] =>
      Throws (Error (lit "Empty response from translation model"))
  | Some text =>
      match JSON_parse text with
      | Some parsed => translate_result parsed
      | None => Throws SyntaxError
      end
  end.

End Previous.

(** A decimal numeral: a non-empty run of digits, alone or followed by a
    period and another non-empty run of digits. *)
Definition decimal_text (s : jstring) : Prop :=
  exists ip fp,
    ip <> [] /\ all_digits ip /\ all_digits fp
    /\ (s = ip \/ (fp <> [] /\ s = ip ++ lit "." ++ fp)).

(** ** Outcomes of the transcription client *)

(** A timestamp that the normaliser can have produced: a canonical one, or
    the result of the raw-seconds branch. *)
Definition normalised (t : jstring) : Prop :=
  is_canonical t = true
  \/ exists raw, is_raw_seconds raw = true /\ t = normalizeTimestamp raw.

(** Nothing in a trace of events settles the race: it holds only abort
    events, and there is no signal to hear them. *)
Definition unheard (signal : option bool) (trace : list event) : Prop :=
  Forall (fun e => e = EvAbort /\ signal = None) trace.

(** The strings of the elements of an array, as [String] joins them. *)
Fixpoint strings_of (l : list json) : outcome (list jstring) :=
  match l with
  | [] => Returns []
  | JNull :: r => ps <- strings_of r ;; Returns ([] :: ps)
  | a :: r => p <- to_String a ;; ps <- strings_of r ;; Returns (p :: ps)
  end.

(** ** Captured texts *)

(** A code unit that a JSON string literal holds as it is, the double quote
    apart: neither a backslash nor a control character. *)
Definition is_plain_char (c : jchar) : bool :=
  negb (N.eqb c c_bslash) && negb (c <? 32)%N.

(** The three substitutions made when [JSON.parse] rejects the captured
    text. *)
Definition basic_unescape (rawText : jstring) : jstring :=
  replace_pair c_bslash c_bslash [c_bslash]
    (replace_pair c_bslash c_squote [c_squote]
       (replace_pair c_bslash c_dquote [c_dquote] rawText)).

(** A captured text with two escaped double quotes and an escaped line
    feed. *)
Definition escaped_sample : jstring :=
  lit "say " ++ [c_bslash; c_dquote] ++ lit "hi"
  ++ [c_bslash; c_dquote; c_bslash; 110%N].

(** ** Whole seconds *)

(** The canonical timestamp of a whole number of seconds. *)
Definition clock (n : N) : jstring :=
  timestamp (padStart0 2 (decimal_digits (n / 3600)))
            (padStart0 2 (decimal_digits ((n / 60) mod 60)))
            (padStart0 2 (decimal_digits (n mod 60)))
            (lit "000").

(** The normaliser gives the canonical timestamp on each of the [k] whole
    numbers of seconds from [n] on. *)
Fixpoint whole_seconds_ok (k : nat) (n : N) : bool :=
  match k with
  | O => true
  | S k' =>
      jstr_eqb (normalizeTimestamp (decimal_digits n)) (clock n)
      && whole_seconds_ok k' (N.succ n)
  end.

(** ** Sample responses *)

(** A complete document whose only segment has its keys in an order the
    scraping pattern does not know, and the same document followed by a
    remark. *)
Definition reordered_doc : jstring :=
  segments_doc [] [] [] [brace_in_text_first] [] [].

Definition remarked_doc : jstring := reordered_doc ++ lit " Hope this helps!".

(** ** Texts that hold several fragments *)

(** A fragment of the segment shape as it stands in a text: the text before
    it, the fragment, and the two timestamps, the quote and the text
    between the quotes that the fragment spells. *)
Record scraped := Scraped {
  sc_before : jstring;
  sc_frag : jstring;
  sc_start : jstring;
  sc_end : jstring;
  sc_quote : jchar;
  sc_body : jstring
}.

(** The fragment has the segment shape, and the key [startTime] between
    double quotes does not occur in the text before it. *)
Definition well_scraped (f : scraped) : Prop :=
  segment_shape (sc_frag f) (sc_start f) (sc_end f) (sc_quote f) (sc_body f)
  /\ includes (dq key_startTime) (sc_before f) = false.

(** The text made of the fragments, each after the text before it, and of
    a last text [post]. *)
Definition fragments_text (fs : list scraped) (post : jstring) : jstring :=
  fold_right (fun f acc => sc_before f ++ sc_frag f ++ acc) post fs.

(** The object tier 3 pushes for the fragment. *)
Definition scraped_segment (f : scraped) : json :=
  JObj [(key_startTime, JStr (sc_start f));
        (key_endTime, JStr (sc_end f));
        (key_text, unescape_text (sc_body f))].

(** The text of the fragment after unescaping, and the segment the
    transcription client makes of the fragment. *)
Definition unescaped (rawText : jstring) : jstring :=
  match unescape_text rawText with
  | JStr s => s
  | _ => rawText
  end.

Definition scraped_output (f : scraped) : segment :=
  Segment (normalizeTimestamp (sc_start f)) (normalizeTimestamp (sc_end f))
          (unescaped (sc_body f)).

(** The same fragment twice in one answer. *)
Definition repeated_fragments : list scraped :=
  [Scraped (lit "Sure! ") quoted_fragment_read
           (lit "00:00:01.000") (lit "00:00:02.000") c_squote (lit "it\'s ok");
   Scraped (lit "}, ") quoted_fragment_read
           (lit "00:00:01.000") (lit "00:00:02.000") c_squote (lit "it\'s ok")].

Definition repeated_text : jstring :=
  fragments_text repeated_fragments (lit "} ...").

(** A member of a segment object that is absent, or is a string, a number,
    a boolean or [null]: [String] converts it without calling anything. *)
Definition is_primitive (p : option json) : bool :=
  match p with
  | Some (JArr _) | Some (JObj _) => false
  | _ => true
  end.

(* ================================================================= *)
(** * Part II: properties *)
(* ================================================================= *)

(** ** Characters *)

Lemma digit_not_space c : is_digit c = true -> is_space c = false.
Proof.
  unfold is_digit, is_space, is_line_terminator. intros H.
  apply andb_true_iff in H. destruct H as [H1 H2].
  apply N.leb_le in H1. apply N.leb_le in H2.
  repeat match goal with
  | |- context [N.eqb c ?k] =>
      replace (N.eqb c k) with false by (symmetry; apply N.eqb_neq; lia)
  end.
  replace (8192 <=? c)%N with false by (symmetry; apply N.leb_gt; lia).
  reflexivity.
Qed.

Lemma digit_is_timestamp_char c : is_digit c = true -> is_timestamp_char c = true.
Proof. unfold is_timestamp_char. intros ->. reflexivity. Qed.

Lemma digit_not_separator c : is_digit c = true -> is_separator c = false.
Proof.
  unfold is_digit, is_separator. intros H.
  apply andb_true_iff in H. destruct H as [H1 H2].
  apply N.leb_le in H1. apply N.leb_le in H2.
  apply orb_false_iff. split; apply N.eqb_neq; lia.
Qed.

(** ** The timestamp normaliser *)

(** C8. The worked examples of the specification: raw seconds, two, three
    and four components, the empty string, and the rule that tells
    minutes-seconds-milliseconds from hours-minutes-seconds by the length
    of the last of three components. *)
Theorem normalizeTimestamp_examples :
  normalizeTimestamp (lit "123.456") = lit "00:02:03.456"
  /\ normalizeTimestamp (lit "5:30") = lit "00:05:30.000"
  /\ normalizeTimestamp (lit "01:02:03:456") = lit "01:02:03.456"
  /\ normalizeTimestamp (lit "") = lit "00:00:00.000"
  /\ normalizeTimestamp (lit "7") = lit "00:00:07.000"
  /\ normalizeTimestamp (lit "02:15.500") = lit "00:02:15.500"
  /\ normalizeTimestamp (lit "01:02:03") = lit "01:02:03.000".
Proof. repeat split; vm_compute; reflexivity. Qed.

(** C1. On the raw-seconds branch the output is not always in the canonical
    format: a fraction of 0.9995 or more rounds to 1000 milliseconds, which
    is printed on four digits, and 100 hours or more are printed on three
    digits or more. *)
Theorem normalizeTimestamp_raw_seconds_not_canonical :
  normalizeTimestamp (lit "0.9996") = lit "00:00:00.1000"
  /\ is_canonical (normalizeTimestamp (lit "0.9996")) = false
  /\ normalizeTimestamp (lit "360000") = lit "100:00:00.000"
  /\ is_canonical (normalizeTimestamp (lit "360000")) = false.
Proof. repeat split; vm_compute; reflexivity. Qed.

Lemma trim_canonical s : is_canonical s = true -> trim s = s.
Proof.
  intros H.
  do 13 (destruct s as [|? s]; try discriminate H).
  simpl in H.
  repeat match type of H with
  | (_ && _) = true => apply andb_true_iff in H; destruct H as [H ?]
  end.
  unfold trim, trim_end. simpl.
  rewrite (digit_not_space _ H). simpl.
  match goal with
  | Hd : is_digit ?c = true |- context [is_space ?c] =>
      rewrite (digit_not_space _ Hd)
  end.
  reflexivity.
Qed.

(** C2. The normaliser leaves a canonical string unchanged, so that it is
    idempotent on canonical strings. *)
Theorem normalizeTimestamp_canonical_fixpoint (s : jstring) :
  is_canonical s = true ->
  normalizeTimestamp s = s
  /\ normalizeTimestamp (normalizeTimestamp s) = normalizeTimestamp s.
Proof.
  intros H.
  assert (Hfix : normalizeTimestamp s = s).
  { pose proof (trim_canonical _ H) as Ht.
    do 13 (destruct s as [|? s]; try discriminate H).
    simpl in H.
    repeat match type of H with
    | (_ && _) = true => apply andb_true_iff in H; destruct H as [H ?]
    end.
    repeat match goal with
    | E : N.eqb _ _ = true |- _ => apply N.eqb_eq in E; subst
    end.
    unfold normalizeTimestamp. rewrite Ht.
    match goal with
    | |- context [includes_char 58 ?r] =>
        replace (includes_char 58 r) with true
          by (simpl; rewrite ?orb_true_r; reflexivity)
    end.
    rewrite andb_false_r.
    unfold remove_class. simpl.
    repeat match goal with
    | Hd : is_digit ?c = true |- context [is_timestamp_char ?c] =>
        rewrite (digit_is_timestamp_char _ Hd)
    end.
    simpl.
    repeat match goal with
    | Hd : is_digit ?c = true |- context [is_separator ?c] =>
        rewrite (digit_not_separator _ Hd)
    end.
    reflexivity. }
  split; [exact Hfix | rewrite Hfix; exact Hfix].
Qed.

Lemma normalizeTimestamp_canonical_fixpoint_witness :
  is_canonical (lit "01:02:03.456") = true
  /\ normalizeTimestamp (lit "01:02:03.456") = lit "01:02:03.456".
Proof.
  split; [reflexivity |].
  apply (normalizeTimestamp_canonical_fixpoint (lit "01:02:03.456")).
  reflexivity.
Defined.

(** *** The component branch

    Outside the raw-seconds branch every field is cut to its width, and the
    output is always in the canonical format. *)

Lemma remove_class_timestamp_chars s :
  Forall (fun c => is_timestamp_char c = true)
         (remove_class (fun c => negb (is_timestamp_char c)) s).
Proof.
  unfold remove_class. apply Forall_forall. intros c Hin.
  apply filter_In in Hin. destruct Hin as [_ H].
  now apply negb_true_iff, negb_false_iff in H.
Qed.

Lemma split_class_digits s :
  Forall (fun c => is_timestamp_char c = true) s ->
  Forall all_digits (split_class is_separator s).
Proof.
  induction 1 as [|c s Hc _ IH]; simpl.
  - repeat constructor.
  - destruct (is_separator c) eqn:Es.
    + constructor; [constructor | exact IH].
    + assert (Hd : is_digit c = true).
      { unfold is_timestamp_char in Hc. unfold is_separator in Es.
        rewrite <- orb_assoc, Es, orb_false_r in Hc. exact Hc. }
      destruct (split_class is_separator s) as [|w ws].
      * repeat constructor. exact Hd.
      * inversion IH; subst. constructor; [constructor |]; assumption.
Qed.

Lemma fmt2_digits a :
  all_digits a ->
  exists x y, fmt2 a = [x; y] /\ is_digit x = true /\ is_digit y = true.
Proof.
  intros H. destruct H as [|x a Hx H].
  - exists 48%N, 48%N. auto.
  - destruct H as [|y a Hy H].
    + exists 48%N, x. auto.
    + exists x, y. auto.
Qed.

Lemma fmt3_digits a :
  all_digits a ->
  exists x y z, fmt3 a = [x; y; z]
                /\ is_digit x = true /\ is_digit y = true /\ is_digit z = true.
Proof.
  intros H. destruct H as [|x a Hx H].
  - exists 48%N, 48%N, 48%N. auto.
  - destruct H as [|y a Hy H].
    + exists x, 48%N, 48%N. auto.
    + destruct H as [|z a Hz H].
      * exists x, y, 48%N. auto.
      * exists x, y, z. auto.
Qed.

Lemma timestamp_canonical hh mm ss mmm :
  all_digits hh -> all_digits mm -> all_digits ss -> all_digits mmm ->
  is_canonical (timestamp (fmt2 hh) (fmt2 mm) (fmt2 ss) (fmt3 mmm)) = true.
Proof.
  intros Hh Hm Hs Hf.
  destruct (fmt2_digits Hh) as (h1 & h2 & -> & D1 & D2).
  destruct (fmt2_digits Hm) as (m1 & m2 & -> & D3 & D4).
  destruct (fmt2_digits Hs) as (s1 & s2 & -> & D5 & D6).
  destruct (fmt3_digits Hf) as (f1 & f2 & f3 & -> & D7 & D8 & D9).
  simpl. rewrite D1, D2, D3, D4, D5, D6, D7, D8, D9. reflexivity.
Qed.

Lemma literal_zeros_digits n : all_digits (repeat 48%N n).
Proof. induction n; simpl; constructor; auto. Qed.

Lemma normalizeTimestamp_components_canonical ts :
  is_raw_seconds ts = false -> is_canonical (normalizeTimestamp ts) = true.
Proof.
  intros H. destruct ts as [|c ts]; [reflexivity |].
  unfold normalizeTimestamp. unfold is_raw_seconds in H. rewrite H.
  pose proof (split_class_digits
                (remove_class_timestamp_chars (trim (c :: ts)))) as Hc.
  pose proof (literal_zeros_digits 2) as Z2.
  pose proof (literal_zeros_digits 3) as Z3.
  destruct (split_class is_separator _) as [|c0 [|c1 [|c2 [|c3 rest]]]];
    repeat match goal with
    | Hf : Forall all_digits (_ :: _) |- _ => inversion Hf; subst; clear Hf
    end.
  - now apply timestamp_canonical.
  - now apply timestamp_canonical.
  - now apply timestamp_canonical.
  - destruct (Nat.eqb (length c2) 3); now apply timestamp_canonical.
  - now apply timestamp_canonical.
Qed.

(** ** Regular expressions *)

Lemma or_else_some {A} (a b : option A) x :
  or_else a b = Some x -> a = Some x \/ (a = None /\ b = Some x).
Proof. destruct a; simpl; intros H; [left | right]; auto. Qed.

(** A successful run of the iterations of [r*] is a derivation of
    [matches (RStar r)], provided the matcher of [r] is sound. *)
Lemma star_loop_sound r k fuel :
  (forall st k' res,
      rmatch r st k' = Some res ->
      exists st', matches r st st' /\ k' st' = Some res) ->
  forall st res,
    star_loop (rmatch r) (groups_of r) k fuel st = Some res ->
    exists st', matches (RStar r) st st' /\ k st' = Some res.
Proof.
  intros IH. induction fuel as [|f IHf]; intros st res H; simpl in H.
  - exists st. split; [constructor | exact H].
  - apply or_else_some in H. destruct H as [H | [_ H]].
    + apply IH in H. destruct H as (st1 & Hm & Hk).
      destruct (Nat.eqb (ms_pos st1) (ms_pos st)) eqn:E; [discriminate |].
      apply Nat.eqb_neq in E.
      apply IHf in Hk. destruct Hk as (st2 & Hs & Hk).
      exists st2. split; [| exact Hk].
      eapply M_star_cons; eauto.
    + exists st. split; [constructor | exact H].
Qed.

(** Soundness of the matcher. *)
Lemma rmatch_sound r :
  forall st k res,
    rmatch r st k = Some res ->
    exists st', matches r st st' /\ k st' = Some res.
Proof.
  induction r as [p | | r1 IH1 r2 IH2 | r1 IH1 r2 IH2 | r1 IH1 | i r1 IH1 | |];
    intros st k res H; cbn [rmatch] in H.
  - destruct st as [pos rest caps]; simpl in H.
    destruct rest as [|c rest]; [discriminate |].
    destruct (p c) eqn:E; [| discriminate].
    eexists. split; [constructor; exact E | exact H].
  - exists st. split; [constructor | exact H].
  - apply IH1 in H. destruct H as (st1 & H1 & H).
    apply IH2 in H. destruct H as (st2 & H2 & H).
    exists st2. split; [econstructor; eauto | exact H].
  - apply or_else_some in H. destruct H as [H | [_ H]].
    + apply IH1 in H. destruct H as (st1 & H1 & H).
      exists st1. split; [apply M_alt_l; exact H1 | exact H].
    + apply IH2 in H. destruct H as (st1 & H1 & H).
      exists st1. split; [apply M_alt_r; exact H1 | exact H].
  - eapply star_loop_sound; [exact IH1 | exact H].
  - apply IH1 in H. destruct H as (st1 & H1 & H).
    eexists. split; [constructor; exact H1 | exact H].
  - destruct (Nat.eqb (ms_pos st) 0) eqn:E; [| discriminate].
    apply Nat.eqb_eq in E.
    exists st. split; [constructor; exact E | exact H].
  - destruct (ms_rest st) eqn:E; [| discriminate].
    exists st. split; [constructor; exact E | exact H].
Qed.

Lemma match_at_sound r pos s st :
  match_at r pos s = Some st -> matches r (MState pos s []) st.
Proof.
  unfold match_at. intros H. apply rmatch_sound in H.
  destruct H as (st' & Hm & E). injection E as ->. exact Hm.
Qed.

Lemma consumes_refl st : consumes st [] st.
Proof. split; simpl; [reflexivity | lia]. Qed.

Lemma consumes_trans st1 st2 st3 w1 w2 :
  consumes st1 w1 st2 -> consumes st2 w2 st3 -> consumes st1 (w1 ++ w2) st3.
Proof.
  intros [E1 P1] [E2 P2]. split.
  - rewrite E1, E2, app_assoc. reflexivity.
  - rewrite P2, P1, length_app. lia.
Qed.

Lemma consumes_clear gs st w st' :
  consumes (clear_caps gs st) w st' -> consumes st w st'.
Proof. intros H. exact H. Qed.

(** What a match reads is a prefix of the input. *)
Lemma matches_consumes r st st' :
  matches r st st' -> exists w, consumes st w st'.
Proof.
  induction 1.
  - eexists [_]. split; simpl; [reflexivity | lia].
  - exists []. apply consumes_refl.
  - destruct IHmatches1 as (w1 & Hw1). destruct IHmatches2 as (w2 & Hw2).
    exists (w1 ++ w2). eapply consumes_trans; eauto.
  - assumption.
  - assumption.
  - exists []. apply consumes_refl.
  - destruct IHmatches1 as (w1 & Hw1). destruct IHmatches2 as (w2 & Hw2).
    exists (w1 ++ w2). eapply consumes_trans; eauto.
  - destruct IHmatches as (w & Hw). exists w. exact Hw.
  - exists []. apply consumes_refl.
  - exists []. apply consumes_refl.
Qed.

Lemma consumes_firstn st w st' :
  consumes st w st' -> firstn (ms_pos st' - ms_pos st) (ms_rest st) = w.
Proof.
  intros [E P]. rewrite E, P.
  replace (ms_pos st + length w - ms_pos st) with (length w + 0) by lia.
  rewrite firstn_app_2. simpl. apply app_nil_r.
Qed.

Lemma clear_caps_nil st : clear_caps [] st = st.
Proof.
  destruct st as [pos rest caps]. unfold clear_caps. simpl. f_equal.
  induction caps as [|e caps IH]; simpl; [reflexivity | now rewrite IH].
Qed.

(** *** What each piece of the scraping pattern reads *)

Lemma matches_class_inv p st st' :
  matches (RChar p) st st' ->
  exists c, p c = true /\ consumes st [c] st' /\ ms_caps st' = ms_caps st.
Proof.
  intros H. inversion H; subst. exists c.
  split; [assumption |]. split; [| reflexivity].
  split; simpl; [reflexivity | lia].
Qed.

Lemma matches_char_inv c st st' :
  matches (re_char c) st st' ->
  consumes st [c] st' /\ ms_caps st' = ms_caps st.
Proof.
  intros H. apply matches_class_inv in H.
  destruct H as (c' & E & Hc & Hk). apply N.eqb_eq in E. subst c'. auto.
Qed.

Lemma matches_seq_inv a l st st2 :
  matches (re_seq (a :: l)) st st2 ->
  exists st1, matches a st st1 /\ matches (re_seq l) st1 st2.
Proof. simpl. intros H. inversion H; subst. eauto. Qed.

Lemma matches_seq_nil st st' : matches (re_seq []) st st' -> st' = st.
Proof. simpl. intros H. inversion H; subst. reflexivity. Qed.

Lemma matches_lit_inv w : forall st st',
  matches (re_lit w) st st' ->
  consumes st w st' /\ ms_caps st' = ms_caps st.
Proof.
  induction w as [|c w IH]; intros st st' H.
  - apply matches_seq_nil in H. subst. split; [apply consumes_refl | reflexivity].
  - unfold re_lit in H. simpl map in H. apply matches_seq_inv in H.
    destruct H as (st1 & H1 & H2).
    apply matches_char_inv in H1. destruct H1 as [C1 K1].
    apply IH in H2. destruct H2 as [C2 K2].
    split; [| congruence].
    change (c :: w) with ([c] ++ w). eapply consumes_trans; eauto.
Qed.

Lemma matches_star_class_inv p st st' :
  matches (RStar (RChar p)) st st' ->
  exists w, Forall (fun c => p c = true) w /\ consumes st w st'
            /\ ms_caps st' = ms_caps st.
Proof.
  intros H. remember (RStar (RChar p)) as r eqn:Er.
  induction H; try discriminate Er.
  - exists []. split; [constructor |]. split; [apply consumes_refl | reflexivity].
  - injection Er as ->. simpl groups_of in H. rewrite clear_caps_nil in H.
    apply matches_class_inv in H. destruct H as (c & Hp & Hc & Hk).
    destruct (IHmatches2 eq_refl) as (w & Hw & Hcw & Hkw).
    exists (c :: w). split; [| split].
    + constructor; assumption.
    + change (c :: w) with ([c] ++ w). eapply consumes_trans; eauto.
    + congruence.
Qed.

Lemma matches_ws_inv st st' :
  matches re_ws st st' ->
  exists w, all_space w /\ consumes st w st' /\ ms_caps st' = ms_caps st.
Proof. apply matches_star_class_inv. Qed.

Lemma matches_plus_class_inv p st st' :
  matches (RPlus (RChar p)) st st' ->
  exists w, w <> [] /\ Forall (fun c => p c = true) w /\ consumes st w st'
            /\ ms_caps st' = ms_caps st.
Proof.
  unfold RPlus. intros H. inversion H; subst.
  match goal with
  | H1 : matches (RChar p) _ _, H2 : matches (RStar _) _ _ |- _ =>
      apply matches_class_inv in H1; destruct H1 as (c & Hp & Hc & Hk);
      apply matches_star_class_inv in H2; destruct H2 as (w & Hw & Hcw & Hkw)
  end.
  exists (c :: w). split; [| split; [| split]].
  - discriminate.
  - constructor; assumption.
  - change (c :: w) with ([c] ++ w). eapply consumes_trans; eauto.
  - congruence.
Qed.

Lemma matches_quoted_body_inv q st st' :
  matches (re_quoted_body q) st st' ->
  exists w, escaped_run q w /\ consumes st w st' /\ ms_caps st' = ms_caps st.
Proof.
  intros H. unfold re_quoted_body in H.
  match type of H with matches ?r0 _ _ => remember r0 as r eqn:Er end.
  induction H; try discriminate Er.
  - exists []. split; [constructor |]. split; [apply consumes_refl | reflexivity].
  - injection Er as ->. simpl groups_of in H. rewrite clear_caps_nil in H.
    destruct (IHmatches2 eq_refl) as (w & Hw & Hcw & Hkw).
    inversion H; subst.
    + match goal with
      | Hc : matches (RChar _) _ _ |- _ =>
          apply matches_class_inv in Hc; destruct Hc as (c & Hp & Hc & Hk)
      end.
      apply negb_true_iff, orb_false_iff in Hp. destruct Hp as [P1 P2].
      apply N.eqb_neq in P1. apply N.eqb_neq in P2.
      exists (c :: w). split; [| split].
      * constructor; assumption.
      * change (c :: w) with ([c] ++ w). eapply consumes_trans; eauto.
      * congruence.
    + match goal with
      | Hs : matches (RSeq _ _) _ _ |- _ => inversion Hs; subst
      end.
      match goal with
      | Ha : matches (re_char _) _ _, Hb : matches (RChar _) _ _ |- _ =>
          apply matches_char_inv in Ha; destruct Ha as [Ca Ka];
          apply matches_class_inv in Hb; destruct Hb as (c & Hp & Cb & Kb)
      end.
      apply negb_true_iff in Hp.
      exists (c_bslash :: c :: w). split; [| split].
      * constructor; assumption.
      * change (c_bslash :: c :: w) with ([c_bslash] ++ [c] ++ w).
        eapply consumes_trans; [eassumption |].
        eapply consumes_trans; eauto.
      * congruence.
Qed.

Lemma matches_group_inv i r st st' :
  matches (RGroup i r) st st' ->
  exists st1, matches r st st1 /\ st' = set_cap i st st1.
Proof. intros H. inversion H; subst. eauto. Qed.

Lemma consumes_set_cap i from st w st' :
  consumes st w (set_cap i from st') <-> consumes st w st'.
Proof. unfold consumes, set_cap. simpl. tauto. Qed.

Lemma matches_time_value_inv i st st' :
  matches (re_time_value i) st st' ->
  exists v, v <> [] /\ ~ In c_dquote v /\ consumes st (dq v) st'
            /\ ms_caps st' = (i, v) :: ms_caps st.
Proof.
  unfold re_time_value. intros H.
  apply matches_seq_inv in H. destruct H as (s1 & H1 & H).
  apply matches_seq_inv in H. destruct H as (s2 & H2 & H).
  apply matches_seq_inv in H. destruct H as (s3 & H3 & H).
  apply matches_seq_nil in H. subst st'.
  apply matches_char_inv in H1. destruct H1 as [C1 K1].
  apply matches_group_inv in H2. destruct H2 as (s2' & H2 & E2).
  apply matches_plus_class_inv in H2. destruct H2 as (v & Hne & Hv & C2 & K2).
  apply matches_char_inv in H3. destruct H3 as [C3 K3].
  exists v. split; [| split; [| split]].
  - exact Hne.
  - intros Hin. rewrite Forall_forall in Hv. apply Hv in Hin.
    rewrite N.eqb_refl in Hin. discriminate.
  - unfold dq. change (c_dquote :: v ++ [c_dquote])
      with ([c_dquote] ++ v ++ [c_dquote]).
    eapply consumes_trans; [exact C1 |].
    eapply consumes_trans; [exact C2 |].
    subst s2. apply C3.
  - rewrite K3. subst s2. simpl. rewrite K2, K1.
    rewrite (consumes_firstn C2). reflexivity.
Qed.

Lemma matches_key_inv name st st' :
  matches (re_key name) st st' ->
  exists w1 w2, all_space w1 /\ all_space w2
    /\ consumes st (dq name ++ w1 ++ lit ":" ++ w2) st'
    /\ ms_caps st' = ms_caps st.
Proof.
  unfold re_key. intros H.
  apply matches_seq_inv in H. destruct H as (s1 & H1 & H).
  apply matches_seq_inv in H. destruct H as (s2 & H2 & H).
  apply matches_seq_inv in H. destruct H as (s3 & H3 & H).
  apply matches_seq_inv in H. destruct H as (s4 & H4 & H).
  apply matches_seq_nil in H. subst st'.
  apply matches_lit_inv in H1. destruct H1 as [C1 K1].
  apply matches_ws_inv in H2. destruct H2 as (w1 & W1 & C2 & K2).
  apply matches_char_inv in H3. destruct H3 as [C3 K3].
  apply matches_ws_inv in H4. destruct H4 as (w2 & W2 & C4 & K4).
  exists w1, w2. split; [assumption |]. split; [assumption |]. split.
  - eapply consumes_trans; [exact C1 |].
    eapply consumes_trans; [exact C2 |].
    eapply consumes_trans; [exact C3 | exact C4].
  - congruence.
Qed.

Lemma matches_alt_inv a b st st' :
  matches (RAlt a b) st st' -> matches a st st' \/ matches b st st'.
Proof. intros H. inversion H; subst; auto. Qed.

Lemma matches_quoted_inv q i st st' :
  matches (re_seq [re_char q; RGroup i (re_quoted_body q); re_char q]) st st' ->
  exists body, escaped_run q body /\ consumes st ([q] ++ body ++ [q]) st'
               /\ ms_caps st' = (i, body) :: ms_caps st.
Proof.
  intros H.
  apply matches_seq_inv in H. destruct H as (s1 & H1 & H).
  apply matches_seq_inv in H. destruct H as (s2 & H2 & H).
  apply matches_seq_inv in H. destruct H as (s3 & H3 & H).
  apply matches_seq_nil in H. subst st'.
  apply matches_char_inv in H1. destruct H1 as [C1 K1].
  apply matches_group_inv in H2. destruct H2 as (s2' & H2 & E2).
  apply matches_quoted_body_inv in H2. destruct H2 as (body & Hb & C2 & K2).
  apply matches_char_inv in H3. destruct H3 as [C3 K3].
  exists body. split; [exact Hb |]. split.
  - eapply consumes_trans; [exact C1 |].
    eapply consumes_trans; [exact C2 |].
    subst s2. apply C3.
  - rewrite K3. subst s2. simpl. rewrite K2, K1.
    rewrite (consumes_firstn C2). reflexivity.
Qed.

(** Every match of the scraping pattern reads a fragment of the one shape,
    and its captures are the two timestamp values and the text body. *)
Lemma segmentRegex_shape st st' :
  ms_caps st = [] ->
  matches segmentRegex st st' ->
  exists frag sv ev q body,
    consumes st frag st'
    /\ segment_shape frag sv ev q body
    /\ cap_or_empty 1 st' = sv
    /\ cap_or_empty 2 st' = ev
    /\ raw_text_of st' = body.
Proof.
  intros K0 H. unfold segmentRegex in H.
  apply matches_seq_inv in H. destruct H as (s1 & H1 & H).
  apply matches_seq_inv in H. destruct H as (s2 & H2 & H).
  apply matches_seq_inv in H. destruct H as (s3 & H3 & H).
  apply matches_seq_inv in H. destruct H as (s4 & H4 & H).
  apply matches_seq_inv in H. destruct H as (s5 & H5 & H).
  apply matches_seq_inv in H. destruct H as (s6 & H6 & H).
  apply matches_seq_inv in H. destruct H as (s7 & H7 & H).
  apply matches_seq_inv in H. destruct H as (s8 & H8 & H).
  apply matches_seq_inv in H. destruct H as (s9 & H9 & H).
  apply matches_seq_inv in H. destruct H as (s10 & H10 & H).
  apply matches_seq_inv in H. destruct H as (s11 & H11 & H).
  apply matches_seq_inv in H. destruct H as (s12 & H12 & H).
  apply matches_seq_inv in H. destruct H as (s13 & H13 & H).
  apply matches_seq_inv in H. destruct H as (s14 & H14 & H).
  apply matches_seq_nil in H. subst st'.
  apply matches_char_inv in H1. destruct H1 as [C1 K1].
  apply matches_ws_inv in H2. destruct H2 as (w1 & W1 & C2 & K2).
  apply matches_key_inv in H3. destruct H3 as (w2 & w3 & W2 & W3 & C3 & K3).
  apply matches_time_value_inv in H4. destruct H4 as (sv & Ns & Qs & C4 & K4).
  apply matches_ws_inv in H5. destruct H5 as (w4 & W4 & C5 & K5).
  apply matches_char_inv in H6. destruct H6 as [C6 K6].
  apply matches_ws_inv in H7. destruct H7 as (w5 & W5 & C7 & K7).
  apply matches_key_inv in H8. destruct H8 as (w6 & w7 & W6 & W7 & C8 & K8).
  apply matches_time_value_inv in H9. destruct H9 as (ev & Ne & Qe & C9 & K9).
  apply matches_ws_inv in H10. destruct H10 as (w8 & W8 & C10 & K10).
  apply matches_char_inv in H11. destruct H11 as [C11 K11].
  apply matches_ws_inv in H12. destruct H12 as (w9 & W9 & C12 & K12).
  apply matches_key_inv in H13. destruct H13 as (w10 & w11 & W10 & W11 & C13 & K13).
  assert (Hcaps : ms_caps s13 = [(2, ev); (1, sv)]).
  { rewrite K13, K12, K11, K10, K9, K8, K7, K6, K5, K4, K3, K2, K1, K0.
    reflexivity. }
  assert (Hq : exists q i body,
             (q = c_dquote /\ i = 3 \/ q = c_squote /\ i = 4)
             /\ escaped_run q body
             /\ consumes s13 ([q] ++ body ++ [q]) s14
             /\ ms_caps s14 = (i, body) :: ms_caps s13).
  { apply matches_alt_inv in H14. destruct H14 as [Hm | Hm];
      apply matches_quoted_inv in Hm; destruct Hm as (body & Hb & Cb & Kb).
    - exists c_dquote, 3, body. auto.
    - exists c_squote, 4, body. auto. }
  destruct Hq as (q & i & body & Hqi & Hb & C14 & K14).
  pose proof (consumes_trans C1 (consumes_trans C2 (consumes_trans C3
    (consumes_trans C4 (consumes_trans C5 (consumes_trans C6
    (consumes_trans C7 (consumes_trans C8 (consumes_trans C9
    (consumes_trans C10 (consumes_trans C11 (consumes_trans C12
    (consumes_trans C13 C14))))))))))))) as Hall.
  eexists _, sv, ev, q, body.
  split; [exact Hall |]. split; [| split; [| split]].
  - exists w1, w2, w3, w4, w5, w6, w7, w8, w9, w10, w11.
    split.
    { repeat rewrite <- app_assoc. reflexivity. }
    split.
    { repeat (constructor; [assumption |]). constructor. }
    repeat (split; [assumption |]).
    split; [| exact Hb].
    destruct Hqi as [[-> _] | [-> _]]; auto.
  - unfold cap_or_empty. rewrite K14, Hcaps.
    destruct Hqi as [[_ ->] | [_ ->]]; reflexivity.
  - unfold cap_or_empty. rewrite K14, Hcaps.
    destruct Hqi as [[_ ->] | [_ ->]]; reflexivity.
  - unfold raw_text_of, cap_or_empty. rewrite K14, Hcaps.
    destruct Hqi as [[_ ->] | [_ ->]]; reflexivity.
Qed.

(** *** The search and the scanning loop *)

Lemma rsearch_found r : forall s pos start st,
  rsearch r pos s = Some (start, st) ->
  exists pre s', s = pre ++ s' /\ start = pos + length pre
                 /\ match_at r start s' = Some st.
Proof.
  induction s as [|c s IH]; intros pos start st H; simpl in H.
  - destruct (match_at r pos []) eqn:E; [| discriminate].
    injection H as <- <-. exists [], []. simpl.
    rewrite Nat.add_0_r. auto.
  - destruct (match_at r pos (c :: s)) eqn:E.
    + injection H as <- <-. exists [], (c :: s). simpl.
      rewrite Nat.add_0_r. auto.
    + apply IH in H. destruct H as (pre & s' & -> & -> & Hm).
      exists (c :: pre), s'. simpl. split; [reflexivity |].
      split; [lia | exact Hm].
Qed.

(** A match of the scraping pattern reads at least its opening brace. *)
Lemma segment_shape_brace frag sv ev q body :
  segment_shape frag sv ev q body -> exists r, frag = 123%N :: r.
Proof.
  intros (w1 & w2 & w3 & w4 & w5 & w6 & w7 & w8 & w9 & w10 & w11 & -> & _).
  simpl. eauto.
Qed.

Lemma match_at_segment pos s st :
  match_at segmentRegex pos s = Some st ->
  exists frag sv ev q body,
    consumes (MState pos s []) frag st
    /\ matches segmentRegex (MState pos s []) st
    /\ segment_shape frag sv ev q body
    /\ segment_of_match st
       = JObj [(key_startTime, JStr sv); (key_endTime, JStr ev);
               (key_text, unescape_text body)].
Proof.
  intros H. apply match_at_sound in H.
  destruct (segmentRegex_shape (st := MState pos s []) eq_refl H)
    as (frag & sv & ev & q & body & C & Sh & E1 & E2 & E3).
  exists frag, sv, ev, q, body.
  split; [exact C |]. split; [exact H |]. split; [exact Sh |].
  unfold segment_of_match. rewrite E1, E2, E3. reflexivity.
Qed.

Lemma scan_matches_located : forall fuel done s ms,
  scan_matches fuel (length done) s = Some ms ->
  Forall (match_in (done ++ s)) ms
  /\ StronglySorted lt (map fst ms)
  /\ Forall (fun m => length done <= fst m) ms.
Proof.
  induction fuel as [|f IH]; intros done s ms H; simpl in H; [discriminate |].
  destruct (rsearch segmentRegex (length done) s) as [[start st] |] eqn:E.
  2:{ injection H as <-. repeat constructor. }
  destruct (scan_matches f (ms_pos st) (ms_rest st)) as [l |] eqn:El;
    [| discriminate].
  injection H as <-.
  apply rsearch_found in E. destruct E as (pre & s' & -> & -> & Hm).
  destruct (match_at_segment _ _ Hm) as (frag & sv & ev & q & body & C & M & Sh & _).
  destruct C as [Cr Cp]. simpl in Cr, Cp.
  destruct (segment_shape_brace Sh) as (fr & Efr).
  assert (Hpos : ms_pos st = length (done ++ pre ++ frag)).
  { rewrite Cp, !length_app. lia. }
  rewrite Hpos in El. apply IH in El.
  destruct El as (L1 & L2 & L3).
  assert (Etext : done ++ pre ++ s' = (done ++ pre ++ frag) ++ ms_rest st).
  { rewrite Cr, <- !app_assoc. reflexivity. }
  split; [| split].
  - constructor.
    + exists (done ++ pre), frag, (ms_rest st). simpl.
      rewrite length_app, <- Cr.
      split; [now rewrite <- app_assoc |].
      split; [reflexivity |].
      split; [split; [exact Cr | exact Cp] |].
      split; [reflexivity | exact M].
    + rewrite Etext. exact L1.
  - simpl. constructor; [exact L2 |].
    rewrite Forall_map. eapply Forall_impl; [| exact L3].
    intros m Hle. simpl. rewrite !length_app in Hle. subst frag. simpl in Hle. lia.
  - constructor; [simpl; lia |].
    eapply Forall_impl; [| exact L3].
    intros m Hle. rewrite !length_app in Hle. lia.
Qed.

(** The loop ends: every match reads at least one character, so a fuel
    larger than the length of the text is never used up. *)
Lemma scan_matches_total : forall fuel pos s,
  length s < fuel -> scan_matches fuel pos s <> None.
Proof.
  induction fuel as [|f IH]; intros pos s Hlt; [lia |]. simpl.
  destruct (rsearch segmentRegex pos s) as [[start st] |] eqn:E;
    [| discriminate].
  apply rsearch_found in E. destruct E as (pre & s' & -> & -> & Hm).
  destruct (match_at_segment _ _ Hm) as (frag & sv & ev & q & body & C & _ & Sh & _).
  destruct C as [Cr _]. simpl in Cr.
  destruct (segment_shape_brace Sh) as (fr & ->).
  assert (Hlen : length (ms_rest st) < f).
  { rewrite length_app, Cr in Hlt. simpl in Hlt. rewrite length_app in Hlt. lia. }
  specialize (IH (ms_pos st) (ms_rest st) Hlen).
  destruct (scan_matches f (ms_pos st) (ms_rest st)); [discriminate | congruence].
Qed.

Lemma tier3_total trimmed : tier3 trimmed <> None.
Proof.
  unfold tier3.
  pose proof (@scan_matches_total (S (length trimmed)) 0 trimmed (Nat.lt_succ_diag_r _)) as H.
  destruct (scan_matches (S (length trimmed)) 0 trimmed); [discriminate | congruence].
Qed.

(** C10. Tier 3 recovers a segment only from a fragment of the one shape:
    an opening brace, then the keys startTime, endTime and text between
    double quotes, in that order, each followed by a colon, separated by
    commas, with nothing but white space in between; the first two values
    are non-empty and between double quotes, the third is between double
    quotes or between single quotes.  The recovered segment carries the two
    values as they are and the unescaped text. *)
Theorem tier3_only_segment_shape (text : jstring) (segs : list json) (seg : json) :
  tier3 text = Some segs ->
  In seg segs ->
  exists pre frag post sv ev q body,
    text = pre ++ frag ++ post
    /\ segment_shape frag sv ev q body
    /\ seg = JObj [(key_startTime, JStr sv); (key_endTime, JStr ev);
                   (key_text, unescape_text body)].
Proof.
  unfold tier3. intros H Hin.
  destruct (scan_matches (S (length text)) 0 text) as [ms |] eqn:E;
    [| discriminate].
  injection H as <-.
  apply in_map_iff in Hin. destruct Hin as ([start st] & <- & Hin).
  apply (scan_matches_located _ []) in E. destruct E as (L & _ & _).
  rewrite Forall_forall in L. apply L in Hin.
  destruct Hin as (pre & frag & post & Et & _ & C & _ & M).
  simpl in *.
  destruct (segmentRegex_shape (st := MState (length pre) (frag ++ post) []) eq_refl M)
    as (frag' & sv & ev & q & body & C' & Sh & E1 & E2 & E3).
  assert (frag' = frag).
  { rewrite <- (consumes_firstn C), <- (consumes_firstn C'). reflexivity. }
  subst frag'.
  exists pre, frag, post, sv, ev, q, body.
  split; [exact Et |]. split; [exact Sh |].
  unfold segment_of_match. rewrite E1, E2, E3. reflexivity.
Qed.

Lemma tier3_only_segment_shape_witness :
  tier3 quoted_fragment = Some [quoted_fragment_segment]
  /\ In quoted_fragment_segment [quoted_fragment_segment]
  /\ exists pre frag post sv ev q body,
       quoted_fragment = pre ++ frag ++ post
       /\ segment_shape frag sv ev q body
       /\ quoted_fragment_segment
          = JObj [(key_startTime, JStr sv); (key_endTime, JStr ev);
                  (key_text, unescape_text body)].
Proof.
  split; [vm_compute; reflexivity |]. split; [left; reflexivity |].
  apply (@tier3_only_segment_shape quoted_fragment [quoted_fragment_segment]
           quoted_fragment_segment).
  - vm_compute. reflexivity.
  - left. reflexivity.
Defined.

(** Fragments that are not of the one shape are not recovered by tier 3:
    keys in another order, a single-quoted key, an unquoted key, a key in
    between, an empty timestamp, an unquoted timestamp. *)
Lemma tier3_rejects_other_shapes :
  let seg k1 v1 k2 v2 k3 v3 :=
    lit "{" ++ k1 ++ lit ": " ++ v1 ++ lit ", " ++ k2 ++ lit ": " ++ v2
    ++ lit ", " ++ k3 ++ lit ": " ++ v3 ++ lit "}" in
  let t1 := dq (lit "00:00:01.000") in
  let t2 := dq (lit "00:00:02.000") in
  let tx := dq (lit "hello") in
  tier3 (seg (dq key_endTime) t2 (dq key_startTime) t1 (dq key_text) tx) = Some []
  /\ tier3 (seg (dq key_startTime) t1 (dq key_text) tx (dq key_endTime) t2) = Some []
  /\ tier3 (seg (sq key_startTime) t1 (dq key_endTime) t2 (dq key_text) tx) = Some []
  /\ tier3 (seg key_startTime t1 (dq key_endTime) t2 (dq key_text) tx) = Some []
  /\ tier3 (seg (dq key_startTime) (t1 ++ lit ", " ++ dq (lit "speaker") ++ lit ": 1")
              (dq key_endTime) t2 (dq key_text) tx) = Some []
  /\ tier3 (seg (dq key_startTime) (dq []) (dq key_endTime) t2 (dq key_text) tx) = Some []
  /\ tier3 (seg (dq key_startTime) (lit "1.5") (dq key_endTime) t2 (dq key_text) tx) = Some []
  /\ tier3 (seg (dq key_startTime) t1 (dq key_endTime) t2 (dq key_text) tx) <> Some [].
Proof. repeat split; vm_compute; try reflexivity; discriminate. Qed.

(** *** Independence from the position *)










(** *** Substrings and trimming *)

Lemma starts_with_app k p : starts_with k (k ++ p) = true.
Proof.
  induction k as [|c k IH]; simpl; [reflexivity |].
  rewrite N.eqb_refl. exact IH.
Qed.

Lemma starts_with_app_l k : forall a b,
  starts_with k a = true -> starts_with k (a ++ b) = true.
Proof.
  induction k as [|c k IH]; intros [|x a] b H; simpl in *;
    try reflexivity; try discriminate.
  apply andb_true_iff in H. destruct H as [-> H]. simpl. now apply IH.
Qed.

Lemma includes_cons k c s : includes k s = true -> includes k (c :: s) = true.
Proof. intros H. simpl. rewrite H. apply orb_true_r. Qed.

Lemma includes_app_r k a b : includes k b = true -> includes k (a ++ b) = true.
Proof.
  intros H. induction a as [|c a IH]; simpl app; [exact H |].
  now apply includes_cons.
Qed.

Lemma includes_app_l k a b : includes k a = true -> includes k (a ++ b) = true.
Proof.
  induction a as [|c a IH]; intros H.
  - destruct k; [destruct b; reflexivity |]. simpl in H. discriminate.
  - simpl in H. apply orb_true_iff in H. destruct H as [H | H].
    + pose proof (starts_with_app_l k (c :: a) b H) as H'.
      change ((c :: a) ++ b) with (c :: a ++ b) in *.
      cbn [includes]. rewrite H'. reflexivity.
    + change ((c :: a) ++ b) with (c :: a ++ b). apply includes_cons. auto.
Qed.

Lemma includes_occurrence k a b : includes k (a ++ k ++ b) = true.
Proof.
  apply includes_app_r.
  assert (U : forall s, starts_with k s = true -> includes k s = true).
  { intros s H. destruct s; simpl in *; rewrite H; reflexivity. }
  apply U, starts_with_app.
Qed.

Lemma trim_start_nonspace c s : is_space c = false -> trim_start (c :: s) = c :: s.
Proof. intros H. simpl. now rewrite H. Qed.

Lemma trim_start_app pre c s :
  is_space c = false -> trim_start (pre ++ c :: s) = trim_start pre ++ c :: s.
Proof.
  intros H. induction pre as [|a pre IH]; simpl.
  - now rewrite H.
  - destruct (is_space a); [exact IH | reflexivity].
Qed.

Lemma trim_end_app s c post :
  is_space c = false -> trim_end (s ++ c :: post) = s ++ c :: trim_end post.
Proof.
  intros H. unfold trim_end.
  rewrite rev_app_distr. simpl rev. rewrite <- app_assoc. simpl app.
  rewrite (trim_start_app (rev post) c (rev s) H).
  rewrite rev_app_distr. simpl rev. rewrite rev_involutive, <- app_assoc.
  reflexivity.
Qed.

Lemma trim_start_suffix s : exists ws, s = ws ++ trim_start s.
Proof.
  induction s as [|c s (ws & IH)]; [exists []; reflexivity |]. simpl.
  destruct (is_space c).
  - exists (c :: ws). simpl. now rewrite <- IH.
  - exists []. reflexivity.
Qed.

Lemma trim_end_prefix s : exists ws, s = trim_end s ++ ws.
Proof.
  unfold trim_end. destruct (trim_start_suffix (rev s)) as (ws & E).
  exists (rev ws). rewrite <- rev_app_distr, <- E. symmetry. apply rev_involutive.
Qed.

Lemma includes_trim_start k s :
  includes k s = false -> includes k (trim_start s) = false.
Proof.
  intros H. destruct (trim_start_suffix s) as (ws & E).
  destruct (includes k (trim_start s)) eqn:E2; [| reflexivity].
  rewrite E in H. rewrite (includes_app_r k ws _ E2) in H. discriminate.
Qed.

Lemma includes_trim_end k s :
  includes k s = false -> includes k (trim_end s) = false.
Proof.
  intros H. destruct (trim_end_prefix s) as (ws & E).
  destruct (includes k (trim_end s)) eqn:E2; [| reflexivity].
  rewrite E in H. rewrite (includes_app_l k _ ws E2) in H. discriminate.
Qed.

(** *** Where the scraping pattern cannot match *)

Lemma segment_shape_key frag sv ev q body :
  segment_shape frag sv ev q body ->
  exists w1 tail, all_space w1
                  /\ frag = 123%N :: w1 ++ dq key_startTime ++ tail.
Proof.
  intros (w1 & w2 & w3 & w4 & w5 & w6 & w7 & w8 & w9 & w10 & w11 & -> & W & _).
  inversion W; subst. exists w1. eexists. split; [assumption |].
  simpl. reflexivity.
Qed.

Lemma prefix_before_char (x : jchar) : forall K rest p F,
  ~ In x K -> K ++ rest = p ++ x :: F -> starts_with K p = true.
Proof.
  induction K as [|k K IH]; intros rest p F Hx E; [reflexivity |].
  destruct p as [|a p]; simpl in E.
  - injection E as E _. exfalso. apply Hx. left. exact E.
  - injection E as -> E. simpl. rewrite N.eqb_refl. simpl.
    eapply IH; [| exact E]. intros Hin. apply Hx. right. exact Hin.
Qed.

Lemma key_in_prefix (x : jchar) K : forall w1 p F rest,
  all_space w1 -> is_space x = false -> ~ In x K ->
  p ++ x :: F = w1 ++ K ++ rest -> includes K p = true.
Proof.
  induction w1 as [|a w1 IH]; intros p F rest W Hs Hx E.
  - simpl in E. symmetry in E. apply prefix_before_char in E; [| exact Hx].
    destruct p; simpl; rewrite E; reflexivity.
  - inversion W as [|? ? Ha W']; subst.
    destruct p as [|b p]; simpl in E.
    + injection E as -> _. congruence.
    + injection E as -> E. apply includes_cons. eapply IH; eauto.
Qed.

Lemma startTime_key_no_brace : ~ In 123%N (dq key_startTime).
Proof.
  intros H. vm_compute in H.
  repeat (destruct H as [H | H]; [discriminate H |]). exact H.
Qed.

Lemma match_needs_key pos s st :
  match_at segmentRegex pos s = Some st ->
  exists w1 tail, all_space w1 /\ s = 123%N :: w1 ++ dq key_startTime ++ tail.
Proof.
  intros H.
  destruct (match_at_segment _ _ H) as (frag & sv & ev & q & body & C & _ & Sh & _).
  destruct (segment_shape_key Sh) as (w1 & tail & W & ->).
  destruct C as [C _]. simpl in C.
  exists w1, (tail ++ ms_rest st). split; [exact W |].
  rewrite C. simpl. rewrite <- !app_assoc. reflexivity.
Qed.

Lemma no_match_without_key pos s :
  includes (dq key_startTime) s = false -> match_at segmentRegex pos s = None.
Proof.
  intros H. destruct (match_at segmentRegex pos s) eqn:E; [| reflexivity].
  apply match_needs_key in E. destruct E as (w1 & tail & _ & ->).
  pose proof (includes_occurrence (dq key_startTime) (123%N :: w1) tail) as H'.
  change ((123%N :: w1) ++ dq key_startTime ++ tail)
    with (123%N :: w1 ++ dq key_startTime ++ tail) in H'.
  congruence.
Qed.

Lemma rsearch_without_key : forall s pos,
  includes (dq key_startTime) s = false -> rsearch segmentRegex pos s = None.
Proof.
  induction s as [|c s IH]; intros pos H; cbn [rsearch].
  - now rewrite no_match_without_key.
  - rewrite (no_match_without_key _ _ H).
    apply IH. cbn [includes] in H. apply orb_false_iff in H. apply H.
Qed.

Lemma no_match_before_brace pos c p F :
  includes (dq key_startTime) (c :: p) = false ->
  match_at segmentRegex pos (c :: p ++ 123%N :: F) = None.
Proof.
  intros H.
  destruct (match_at segmentRegex pos (c :: p ++ 123%N :: F)) eqn:E;
    [| reflexivity].
  apply match_needs_key in E. destruct E as (w1 & tail & W & E).
  injection E as -> E.
  pose proof (@key_in_prefix 123%N (dq key_startTime) w1 p F tail W eq_refl
                startTime_key_no_brace E) as Hin.
  rewrite (includes_cons _ 123%N _ Hin) in H. discriminate.
Qed.

Lemma rsearch_skip_prefix F : forall p pos,
  includes (dq key_startTime) p = false ->
  rsearch segmentRegex pos (p ++ 123%N :: F)
  = rsearch segmentRegex (pos + length p) (123%N :: F).
Proof.
  induction p as [|c p IH]; intros pos H.
  - simpl length. rewrite Nat.add_0_r. reflexivity.
  - change ((c :: p) ++ 123%N :: F) with (c :: p ++ 123%N :: F).
    cbn [rsearch]. rewrite (@no_match_before_brace pos c p F H).
    rewrite IH.
    + simpl length. now replace (pos + S (length p)) with (S pos + length p) by lia.
    + cbn [includes] in H. apply orb_false_iff in H. apply H.
Qed.

(** *** The single-quoted fragment of the specification *)




Lemma scan_single_match fuel text start st :
  rsearch segmentRegex 0 text = Some (start, st) ->
  rsearch segmentRegex (ms_pos st) (ms_rest st) = None ->
  scan_matches (S (S fuel)) 0 text = Some [(start, st)].
Proof.
  intros H1 H2. cbn [scan_matches]. rewrite H1.
  cbn [scan_matches]. rewrite H2. reflexivity.
Qed.



(** ** The three tiers *)

Lemma has_segments_array_iff v :
  has_segments_array v = true <-> yields_segments (Some v).
Proof.
  unfold has_segments_array, yields_segments, get_prop. split.
  - destruct v as [| | | | |ms]; try discriminate.
    destruct (obj_get key_segments ms) as [[| | | |items|] |] eqn:E; simpl;
      try discriminate; try (intros H; rewrite andb_false_r in H; discriminate).
    intros _. exists ms, items. auto.
  - intros (ms & items & E & G). injection E as ->. rewrite G. reflexivity.
Qed.

Lemma tier1_fails_iff t : tier1 t = None <-> direct_parse_fails t.
Proof.
  unfold tier1, direct_parse_fails. destruct (JSON_parse t) as [v |].
  - rewrite <- has_segments_array_iff.
    destruct (has_segments_array v); split; intros H; try discriminate; auto.
    exfalso. apply H. reflexivity.
  - split; [| reflexivity]. intros _ (ms & items & E & _). discriminate.
Qed.

Lemma tier2_fails_iff t : tier2 t = None <-> truncation_repair_fails t.
Proof.
  unfold tier2, truncation_repair_fails, repaired_text.
  destruct (lastIndexOf 125 t) as [i |].
  - destruct (JSON_parse (firstn (i + 1) t ++ lit "]}")) as [v |] eqn:E.
    + destruct (has_segments_array v) eqn:Hs; split; intros H.
      * discriminate.
      * exfalso. apply (H i eq_refl). rewrite E.
        apply has_segments_array_iff. exact Hs.
      * intros j Hj. injection Hj as <-. rewrite E.
        rewrite <- has_segments_array_iff. congruence.
      * reflexivity.
    + split; [| reflexivity]. intros _ j Hj. injection Hj as <-. rewrite E.
      intros (ms & items & D & _). discriminate.
  - split; [| reflexivity]. intros _ j Hj. discriminate.
Qed.

Lemma tier3_empty_iff t : tier3 t = Some [] <-> scraping_finds_nothing t.
Proof.
  unfold tier3, scraping_finds_nothing. cbn [scan_matches].
  destruct (rsearch segmentRegex 0 t) as [[start st] |].
  - destruct (scan_matches (length t) (ms_pos st) (ms_rest st));
      split; discriminate.
  - split; reflexivity.
Qed.

Lemma tier_success_shape v :
  has_segments_array v = true ->
  exists ms items, v = JObj ms /\ obj_get key_segments ms = Some (JArr items).
Proof.
  intros H. apply has_segments_array_iff in H.
  destruct H as (ms & items & E & G). injection E as ->. eauto.
Qed.

(** C3. The recovery throws its structure-invalid error exactly when the
    three tiers all fail: the direct parse yields no object with a segments
    array, neither does the parse of the text cut after its last closing
    brace and closed by a bracket and a brace, and the pattern matches
    nowhere.  In every other case it returns an object with a segments
    array; it throws nothing else and always terminates. *)
Theorem tryRepairJson_throws_iff_all_tiers_fail (text : jstring) :
  (tryRepairJson text = Throws structure_invalid
   <-> direct_parse_fails (trim text)
       /\ truncation_repair_fails (trim text)
       /\ scraping_finds_nothing (trim text))
  /\ (tryRepairJson text = Throws structure_invalid
      \/ exists ms items,
           tryRepairJson text = Returns (JObj ms)
           /\ obj_get key_segments ms = Some (JArr items)).
Proof.
  rewrite <- tier1_fails_iff, <- tier2_fails_iff, <- tier3_empty_iff.
  unfold tryRepairJson.
  destruct (tier1 (trim text)) as [v1 |] eqn:T1.
  { assert (S1 : has_segments_array v1 = true).
    { unfold tier1 in T1. destruct (JSON_parse (trim text)); [| discriminate].
      destruct (has_segments_array j) eqn:Hs; [| discriminate].
      injection T1 as <-. exact Hs. }
    destruct (tier_success_shape _ S1) as (ms & items & -> & G).
    split; [| right; eauto].
    split; [discriminate | intros (D & _); discriminate]. }
  destruct (tier2 (trim text)) as [v2 |] eqn:T2.
  { assert (S2 : has_segments_array v2 = true).
    { unfold tier2 in T2. destruct (lastIndexOf 125 (trim text)); [| discriminate].
      destruct (JSON_parse _); [| discriminate].
      destruct (has_segments_array j) eqn:Hs; [| discriminate].
      injection T2 as <-. exact Hs. }
    destruct (tier_success_shape _ S2) as (ms & items & -> & G).
    split; [| right; eauto].
    split; [discriminate | intros (_ & D & _); discriminate]. }
  pose proof (tier3_total (trim text)) as T3.
  destruct (tier3 (trim text)) as [[|seg segs] |]; [| | congruence].
  - split; [| left; reflexivity]. split; auto.
  - split.
    + split; [discriminate | intros (_ & _ & D); discriminate].
    + right. exists [(key_segments, JArr (seg :: segs))], (seg :: segs).
      split; reflexivity.
Qed.

Lemma tryRepairJson_throws_iff_all_tiers_fail_witness :
  tryRepairJson (lit "no segment at all") = Throws structure_invalid
  /\ direct_parse_fails (trim (lit "no segment at all")).
Proof.
  split.
  - apply (proj1 (tryRepairJson_throws_iff_all_tiers_fail (lit "no segment at all"))).
    split; [| split].
    + apply tier1_fails_iff. vm_compute. reflexivity.
    + apply tier2_fails_iff. vm_compute. reflexivity.
    + vm_compute. reflexivity.
  - apply (proj1 (tryRepairJson_throws_iff_all_tiers_fail (lit "no segment at all"))).
    vm_compute. reflexivity.
Defined.

(** ** The JSON parser *)

Lemma skip_ws_split s :
  exists ws, s = ws ++ skip_ws s /\ all_json_ws ws.
Proof.
  induction s as [|c s (ws & E & W)]; [exists []; split; [reflexivity | constructor] |].
  simpl. destruct (is_json_ws c) eqn:Hc.
  - exists (c :: ws). split; [simpl; now rewrite <- E | constructor; assumption].
  - exists []. split; [reflexivity | constructor].
Qed.

Lemma skip_ws_app ws x : all_json_ws ws -> skip_ws (ws ++ x) = skip_ws x.
Proof.
  induction 1 as [|c ws Hc _ IH]; [reflexivity |]. simpl. now rewrite Hc.
Qed.

Lemma skip_ws_head s c r : skip_ws s = c :: r -> is_json_ws c = false.
Proof.
  induction s as [|a s IH]; simpl; [discriminate |].
  destruct (is_json_ws a) eqn:Ha; [exact IH |].
  intros E. injection E as <- _. exact Ha.
Qed.

Lemma skip_ws_nonws c r : is_json_ws c = false -> skip_ws (c :: r) = c :: r.
Proof. intros H. simpl. now rewrite H. Qed.

(** The white space skipped and the character found after it do not depend
    on what follows that character. *)
Lemma skip_ws_found s c r :
  skip_ws s = c :: r ->
  exists ws, s = ws ++ c :: r /\ all_json_ws ws
             /\ forall x, skip_ws (ws ++ c :: x) = c :: x.
Proof.
  intros H. destruct (skip_ws_split s) as (ws & E & W).
  exists ws. rewrite H in E. split; [exact E |]. split; [exact W |].
  intros x. rewrite (skip_ws_app _ W). apply skip_ws_nonws.
  eapply skip_ws_head; eauto.
Qed.

Lemma skip_ws_all s : skip_ws s = [] -> all_json_ws s.
Proof.
  intros H. destruct (skip_ws_split s) as (ws & E & W).
  rewrite H, app_nil_r in E. now subst.
Qed.

Lemma span_spec (p : jchar -> bool) : forall s a b,
  span p s = (a, b) ->
  s = a ++ b /\ Forall (fun c => p c = true) a.
Proof.
  induction s as [|c s IH]; intros a b H; simpl in H.
  - injection H as <- <-. split; [reflexivity | constructor].
  - destruct (p c) eqn:Hc.
    + destruct (span p s) as [a' b'] eqn:E. injection H as <- <-.
      destruct (IH a' b' eq_refl) as (-> & Ha).
      split; [reflexivity | constructor; assumption].
    + injection H as <- <-. split; [reflexivity | constructor].
Qed.

Lemma span_app (p : jchar -> bool) a : forall b,
  Forall (fun c => p c = true) a ->
  match b with [] => True | c :: _ => p c = false end ->
  span p (a ++ b) = (a, b).
Proof.
  intros b Ha Hb. induction Ha as [|c a Hc _ IH]; simpl.
  - destruct b as [|c b]; [reflexivity |]. simpl. now rewrite Hb.
  - rewrite Hc, IH. reflexivity.
Qed.

Lemma span_nonempty (p : jchar -> bool) s b : span p s = ([], b) -> b = s.
Proof.
  destruct s as [|c s]; simpl; [intros H; now injection H |].
  destruct (p c); [destruct (span p s); discriminate | intros H; now injection H].
Qed.

(** *** What the parser reads

    Each of the following lemmas says that a successful parse reads a
    non-empty prefix [w] of its input, and reads it in the same way whatever
    follows. *)

Lemma parse_number_reads s x r :
  parse_number s = Some (x, r) ->
  exists w, s = w ++ r /\ w <> []
            /\ forall r', number_stop r' = true ->
                          parse_number (w ++ r') = Some (x, r').
Proof.
  unfold parse_number. destruct (span is_number_char s) as [tok r0] eqn:E.
  intros H.
  destruct (read_number tok) as [[y [|? ?]] |] eqn:R; try discriminate.
  injection H as <- <-.
  destruct (span_spec _ _ E) as (-> & Htok).
  exists tok. split; [reflexivity |]. split.
  - intros ->. vm_compute in R. discriminate.
  - intros r' Hr'. rewrite span_app; [now rewrite R | exact Htok |].
    destruct r' as [|c r']; [exact I |]. simpl in Hr'.
    now apply negb_true_iff in Hr'.
Qed.

Lemma cons_fst_some {A B} (a : A) (o : option (list A * B)) l b :
  cons_fst a o = Some (l, b) -> exists l', o = Some (l', b) /\ l = a :: l'.
Proof.
  destruct o as [[l' b'] |]; simpl; [| discriminate].
  intros H. injection H as <- <-. eauto.
Qed.

Lemma parse_string_body_reads : forall n s str r,
  length s <= n ->
  parse_string_body s = Some (str, r) ->
  exists w, s = w ++ r /\ w <> []
            /\ forall r', parse_string_body (w ++ r') = Some (str, r').
Proof.
  induction n as [|n IH]; intros s str r Hn H.
  { destruct s; [discriminate | simpl in Hn; lia]. }
  destruct s as [|c s]; [discriminate |]. simpl in Hn.
  cbn [parse_string_body] in H.
  destruct (N.eqb c 34) eqn:Eq.
  { injection H as <- <-. exists [c]. split; [reflexivity |].
    split; [discriminate |]. intros r'. simpl. now rewrite Eq. }
  destruct (N.eqb c 92) eqn:Eb.
  - destruct s as [|e s]; [discriminate |]. simpl in Hn.
    destruct (N.eqb e 117) eqn:Eu.
    + destruct s as [|a [|b [|c' [|d s]]]]; try discriminate. simpl in Hn.
      destruct (hex4 a b c' d) as [u |] eqn:Eh; [| discriminate].
      apply cons_fst_some in H. destruct H as (l' & H & ->).
      apply IH in H; [| lia]. destruct H as (w & -> & _ & Hw).
      exists (c :: e :: a :: b :: c' :: d :: w).
      split; [reflexivity |]. split; [discriminate |].
      intros r'. simpl. rewrite Eq, Eb, Eu, Eh, Hw. reflexivity.
    + destruct (simple_escape e) as [u |] eqn:Ee; [| discriminate].
      apply cons_fst_some in H. destruct H as (l' & H & ->).
      apply IH in H; [| lia]. destruct H as (w & -> & _ & Hw).
      exists (c :: e :: w).
      split; [reflexivity |]. split; [discriminate |].
      intros r'. simpl. rewrite Eq, Eb, Eu, Ee, Hw. reflexivity.
  - destruct (c <? 32)%N eqn:Ec; [discriminate |].
    apply cons_fst_some in H. destruct H as (l' & H & ->).
    apply IH in H; [| lia]. destruct H as (w & -> & _ & Hw).
    exists (c :: w).
    split; [reflexivity |]. split; [discriminate |].
    intros r'. simpl. rewrite Eq, Eb, Ec, Hw. reflexivity.
Qed.

Lemma starts_with_split w : forall s,
  starts_with w s = true -> s = w ++ skipn (length w) s.
Proof.
  induction w as [|c w IH]; intros s H; [reflexivity |].
  destruct s as [|a s]; [discriminate |]. simpl in H.
  apply andb_true_iff in H. destruct H as [E H].
  apply N.eqb_eq in E. subst a. simpl. f_equal. now apply IH.
Qed.

Lemma expect_word_reads w v s v' r :
  w <> [] ->
  expect_word w v s = POk v' r ->
  s = w ++ r /\ v' = v /\ forall r', expect_word w v (w ++ r') = POk v r'.
Proof.
  unfold expect_word. intros Hw H.
  destruct (starts_with w s) eqn:E; [| discriminate].
  injection H as <- <-. split; [now apply starts_with_split |].
  split; [reflexivity |]. intros r'. rewrite starts_with_app.
  f_equal. clear. induction w; simpl; auto.
Qed.

Lemma skip_ws_same_head a :
  (exists b, In b a /\ is_json_ws b = false) ->
  exists c t, forall x, skip_ws (a ++ x) = c :: t ++ x.
Proof.
  induction a as [|b a IH]; intros (b0 & Hin & Hb); [destruct Hin |].
  simpl. destruct (is_json_ws b) eqn:E.
  - apply IH. destruct Hin as [-> | Hin]; [congruence | eauto].
  - exists b, a. reflexivity.
Qed.

Lemma skip_ws_after_closer w0 (k : jchar) c r1 x :
  is_json_ws k = false ->
  skip_ws ((w0 ++ [k]) ++ x) = c :: r1 ->
  forall y, exists r1', skip_ws ((w0 ++ [k]) ++ y) = c :: r1'.
Proof.
  intros Hk H y.
  destruct (@skip_ws_same_head (w0 ++ [k])) as (c' & t & Hs).
  { exists k. split; [apply in_or_app; right; left; reflexivity | exact Hk]. }
  rewrite Hs in H. injection H as <- _. rewrite Hs. eauto.
Qed.

Lemma number_stop_after_ws ws c x :
  all_json_ws ws -> is_number_char c = false ->
  number_stop (ws ++ c :: x) = true.
Proof.
  intros W Hc. destruct W as [|a ws Ha _]; simpl.
  - now rewrite Hc.
  - unfold is_json_ws in Ha.
    repeat (apply orb_true_iff in Ha; destruct Ha as [Ha | Ha]);
      apply N.eqb_eq in Ha; subst a; reflexivity.
Qed.

Lemma follow_ok_after_ws v ws c x :
  all_json_ws ws -> is_number_char c = false -> follow_ok v (ws ++ c :: x).
Proof.
  intros W Hc. destruct v; simpl; auto using number_stop_after_ws.
Qed.


Ltac norm_app := repeat (rewrite <- ?app_assoc; simpl).

Lemma parse_reads : forall f,
  (forall s v r, parse_value f s = POk v r ->
     exists w, s = w ++ r /\ w <> []
       /\ (is_object v = true -> exists w0, w = w0 ++ [125%N])
       /\ forall f' r', f <= f' -> follow_ok v r' ->
                        parse_value f' (w ++ r') = POk v r')
  /\ (forall s acc vs r, parse_elements f s acc = POk vs r ->
     exists w, s = w ++ r /\ (exists w0, w = w0 ++ [93%N])
       /\ forall f' r', f <= f' -> parse_elements f' (w ++ r') acc = POk vs r')
  /\ (forall s acc ms r, parse_members f s acc = POk ms r ->
     exists w, s = w ++ r /\ (exists w0, w = w0 ++ [125%N])
       /\ forall f' r', f <= f' -> parse_members f' (w ++ r') acc = POk ms r').
Proof.
  induction f as [|f (IHv & IHe & IHm)].
  { repeat split; intros; discriminate. }
  split; [| split].
  - (* values *)
    intros s v r H. cbn [parse_value] in H.
    destruct (skip_ws s) as [|c r0] eqn:Es; [discriminate |].
    destruct (skip_ws_found _ Es) as (ws & -> & W & Hsk).
    assert (Hne : forall x : jstring, ws ++ c :: x <> []).
    { intros x. destruct ws; discriminate. }
    destruct (N.eqb c 123) eqn:E1.
    { destruct (skip_ws r0) as [|c1 r1] eqn:Es1; [discriminate |].
      destruct (N.eqb c1 125) eqn:E2.
      - injection H as <- <-.
        destruct (skip_ws_found _ Es1) as (ws1 & -> & W1 & Hsk1).
        apply N.eqb_eq in E2. subst c1.
        exists (ws ++ c :: ws1 ++ [125%N]).
        split; [now norm_app |].
        split; [apply Hne |].
        split.
        { intros _. exists (ws ++ c :: ws1). now norm_app. }
        intros [|f'] r' Hf _; [lia |]. cbn [parse_value].
        replace ((ws ++ c :: ws1 ++ [125%N]) ++ r')
          with (ws ++ c :: (ws1 ++ 125%N :: r'))
          by (now norm_app).
        rewrite Hsk, E1, Hsk1. reflexivity.
      - destruct (parse_members f r0 []) as [ms r2 | |] eqn:Em; try discriminate.
        injection H as <- <-.
        destruct (IHm _ _ _ _ Em) as (wm & -> & (w0 & ->) & Hm).
        exists (ws ++ c :: w0 ++ [125%N]).
        split; [now norm_app |].
        split; [apply Hne |].
        split.
        { intros _. exists (ws ++ c :: w0). now norm_app. }
        intros [|f'] r' Hf _; [lia |]. cbn [parse_value].
        replace ((ws ++ c :: w0 ++ [125%N]) ++ r')
          with (ws ++ c :: ((w0 ++ [125%N]) ++ r'))
          by (now norm_app).
        rewrite Hsk, E1.
        destruct (@skip_ws_after_closer w0 125%N c1 r1 r2 eq_refl Es1 r') as (r1' & Hr1').
        rewrite Hr1', E2, Hm by lia. reflexivity. }
    destruct (N.eqb c 91) eqn:E3.
    { destruct (skip_ws r0) as [|c1 r1] eqn:Es1; [discriminate |].
      destruct (N.eqb c1 93) eqn:E2.
      - injection H as <- <-.
        destruct (skip_ws_found _ Es1) as (ws1 & -> & W1 & Hsk1).
        exists (ws ++ c :: ws1 ++ [c1]).
        split; [now norm_app |].
        split; [apply Hne |].
        split; [discriminate |].
        intros [|f'] r' Hf _; [lia |]. cbn [parse_value].
        replace ((ws ++ c :: ws1 ++ [c1]) ++ r')
          with (ws ++ c :: (ws1 ++ c1 :: r'))
          by (now norm_app).
        rewrite Hsk, E1, E3, Hsk1, E2. reflexivity.
      - destruct (parse_elements f r0 []) as [vs r2 | |] eqn:Em; try discriminate.
        injection H as <- <-.
        destruct (IHe _ _ _ _ Em) as (wm & -> & (w0 & ->) & Hm).
        exists (ws ++ c :: w0 ++ [93%N]).
        split; [now norm_app |].
        split; [apply Hne |].
        split; [discriminate |].
        intros [|f'] r' Hf _; [lia |]. cbn [parse_value].
        replace ((ws ++ c :: w0 ++ [93%N]) ++ r')
          with (ws ++ c :: ((w0 ++ [93%N]) ++ r'))
          by (now norm_app).
        rewrite Hsk, E1, E3.
        destruct (@skip_ws_after_closer w0 93%N c1 r1 r2 eq_refl Es1 r') as (r1' & Hr1').
        rewrite Hr1', E2, Hm by lia. reflexivity. }
    destruct (N.eqb c 34) eqn:E4.
    { destruct (parse_string_body r0) as [[str r1] |] eqn:Ep; [| discriminate].
      injection H as <- <-.
      destruct (parse_string_body_reads _ (Nat.le_refl _) Ep) as (w & -> & _ & Hw).
      exists (ws ++ c :: w).
      split; [now norm_app |].
      split; [apply Hne |].
      split; [discriminate |].
      intros [|f'] r' Hf _; [lia |]. cbn [parse_value].
      replace ((ws ++ c :: w) ++ r') with (ws ++ c :: (w ++ r'))
        by (now norm_app).
      rewrite Hsk, E1, E3, E4, Hw. reflexivity. }
    assert (Hword : forall word val,
               word <> [] ->
               is_object val = false ->
               (exists t, word = c :: t) ->
               expect_word word val (c :: r0) = POk v r ->
               (forall f' x, parse_value (S f') (ws ++ c :: x)
                             = expect_word word val (c :: x)) ->
               exists w, ws ++ c :: r0 = w ++ r /\ w <> []
                 /\ (is_object v = true -> exists w0, w = w0 ++ [125%N])
                 /\ forall f' r', S f <= f' -> follow_ok v r' ->
                                  parse_value f' (w ++ r') = POk v r').
    { intros word val Hw Hobj (t & Et) Hx Hpv.
      destruct (expect_word_reads _ _ Hw Hx) as (E & -> & Hr).
      exists (ws ++ word). rewrite E.
      split; [now norm_app |].
      split; [destruct ws; [simpl; exact Hw | discriminate] |].
      split; [intros D; congruence |].
      intros [|f'] r' Hf _; [lia |].
      rewrite <- app_assoc. rewrite Et at 1. simpl app. rewrite Hpv.
      change (c :: t ++ r') with ((c :: t) ++ r'). rewrite <- Et. apply Hr. }
    destruct (N.eqb c 116) eqn:E5.
    { apply (Hword (lit "true") (JBool true)); auto; try discriminate.
      - apply N.eqb_eq in E5. subst c. eexists. reflexivity.
      - intros f' x. cbn [parse_value]. rewrite Hsk, E1, E3, E4, E5. reflexivity. }
    destruct (N.eqb c 102) eqn:E6.
    { apply (Hword (lit "false") (JBool false)); auto; try discriminate.
      - apply N.eqb_eq in E6. subst c. eexists. reflexivity.
      - intros f' x. cbn [parse_value]. rewrite Hsk, E1, E3, E4, E5, E6. reflexivity. }
    destruct (N.eqb c 110) eqn:E7.
    { apply (Hword (lit "null") JNull); auto; try discriminate.
      - apply N.eqb_eq in E7. subst c. eexists. reflexivity.
      - intros f' x. cbn [parse_value]. rewrite Hsk, E1, E3, E4, E5, E6, E7. reflexivity. }
    clear Hword.
    destruct (parse_number (c :: r0)) as [[x r1] |] eqn:Ep; [| discriminate].
    injection H as <- <-.
    destruct (parse_number_reads _ Ep) as (w & E & Hw0 & Hw).
    destruct w as [|c' w]; [congruence |]. injection E as <- ->.
    exists (ws ++ c :: w).
    split; [now norm_app |].
    split; [apply Hne |].
    split; [discriminate |].
    intros [|f'] r' Hf Hfo; [lia |]. cbn [parse_value].
    replace ((ws ++ c :: w) ++ r') with (ws ++ c :: (w ++ r'))
      by (now norm_app).
    rewrite Hsk, E1, E3, E4, E5, E6, E7.
    change (c :: w ++ r') with ((c :: w) ++ r'). rewrite (Hw r' Hfo). reflexivity.
  - (* elements *)
    intros s acc vs r H. cbn [parse_elements] in H.
    destruct (parse_value f s) as [v r0 | |] eqn:Ev; try discriminate.
    destruct (IHv _ _ _ Ev) as (w & -> & Hw0 & _ & Hv).
    destruct (skip_ws r0) as [|c r1] eqn:Es; [discriminate |].
    destruct (skip_ws_found _ Es) as (ws & -> & W & Hsk).
    destruct (N.eqb c 44) eqn:E1.
    + destruct (IHe _ _ _ _ H) as (we & -> & (w1 & ->) & He).
      exists (w ++ ws ++ c :: w1 ++ [93%N]).
      split; [now norm_app |].
      split.
      { exists (w ++ ws ++ c :: w1). now norm_app. }
      intros [|f'] r' Hf; [lia |]. cbn [parse_elements].
      replace ((w ++ ws ++ c :: w1 ++ [93%N]) ++ r')
        with (w ++ (ws ++ c :: ((w1 ++ [93%N]) ++ r')))
        by (now norm_app).
      rewrite Hv; [| lia |].
      * rewrite Hsk, E1. apply He. lia.
      * apply follow_ok_after_ws; [exact W |].
        apply N.eqb_eq in E1. subst c. reflexivity.
    + destruct (N.eqb c 93) eqn:E2; [| discriminate].
      injection H as <- <-.
      apply N.eqb_eq in E2. subst c.
      exists (w ++ ws ++ [93%N]).
      split; [now norm_app |].
      split; [exists (w ++ ws); now norm_app |].
      intros [|f'] r' Hf; [lia |]. cbn [parse_elements].
      replace ((w ++ ws ++ [93%N]) ++ r') with (w ++ (ws ++ 93%N :: r'))
        by (now norm_app).
      rewrite Hv; [| lia |].
      * rewrite Hsk. reflexivity.
      * apply follow_ok_after_ws; [exact W | reflexivity].
  - (* members *)
    intros s acc ms r H. cbn [parse_members] in H.
    destruct (skip_ws s) as [|q r0] eqn:Es; [discriminate |].
    destruct (skip_ws_found _ Es) as (ws & -> & W & Hsk).
    destruct (N.eqb q 34) eqn:E1; [| discriminate].
    destruct (parse_string_body r0) as [[key r1] |] eqn:Ep; [| discriminate].
    destruct (parse_string_body_reads _ (Nat.le_refl _) Ep) as (wk & -> & _ & Hk).
    destruct (skip_ws r1) as [|c r2] eqn:Es1; [discriminate |].
    destruct (skip_ws_found _ Es1) as (ws1 & -> & W1 & Hsk1).
    destruct (N.eqb c 58) eqn:E2; [| discriminate].
    destruct (parse_value f r2) as [v r3 | |] eqn:Ev; try discriminate.
    destruct (IHv _ _ _ Ev) as (w & -> & Hw0 & _ & Hv).
    destruct (skip_ws r3) as [|d r4] eqn:Es2; [discriminate |].
    destruct (skip_ws_found _ Es2) as (ws2 & -> & W2 & Hsk2).
    destruct (N.eqb d 44) eqn:E3.
    + destruct (IHm _ _ _ _ H) as (wm & -> & (w1 & ->) & Hm).
      exists (ws ++ q :: wk ++ ws1 ++ c :: w ++ ws2 ++ d :: w1 ++ [125%N]).
      split; [now norm_app |].
      split.
      { exists (ws ++ q :: wk ++ ws1 ++ c :: w ++ ws2 ++ d :: w1).
        now norm_app. }
      intros [|f'] r' Hf; [lia |]. cbn [parse_members].
      replace ((ws ++ q :: wk ++ ws1 ++ c :: w ++ ws2 ++ d :: w1 ++ [125%N]) ++ r')
        with (ws ++ q :: (wk ++ (ws1 ++ c :: (w ++ (ws2 ++ d :: ((w1 ++ [125%N]) ++ r'))))))
        by (now norm_app).
      rewrite Hsk, E1, Hk, Hsk1, E2.
      rewrite Hv; [| lia |].
      * rewrite Hsk2, E3. apply Hm. lia.
      * apply follow_ok_after_ws; [exact W2 |].
        apply N.eqb_eq in E3. subst d. reflexivity.
    + destruct (N.eqb d 125) eqn:E4; [| discriminate].
      injection H as <- <-.
      apply N.eqb_eq in E4. subst d.
      exists (ws ++ q :: wk ++ ws1 ++ c :: w ++ ws2 ++ [125%N]).
      split; [now norm_app |].
      split.
      { exists (ws ++ q :: wk ++ ws1 ++ c :: w ++ ws2).
        now norm_app. }
      intros [|f'] r' Hf; [lia |]. cbn [parse_members].
      replace ((ws ++ q :: wk ++ ws1 ++ c :: w ++ ws2 ++ [125%N]) ++ r')
        with (ws ++ q :: (wk ++ (ws1 ++ c :: (w ++ (ws2 ++ 125%N :: r')))))
        by (now norm_app).
      rewrite Hsk, E1, Hk, Hsk1, E2.
      rewrite Hv; [| lia |].
      * rewrite Hsk2. reflexivity.
      * apply follow_ok_after_ws; [exact W2 | reflexivity].
Qed.

(** The fuel given by [JSON_parse] is never used up. *)
Lemma parse_fuel : forall f,
  (forall s, 2 * length s < f -> parse_value f s <> PFuel)
  /\ (forall s acc, 2 * length s + 1 < f -> parse_elements f s acc <> PFuel)
  /\ (forall s acc, 2 * length s + 1 < f -> parse_members f s acc <> PFuel).
Proof.
  induction f as [|f (IHv & IHe & IHm)].
  { repeat split; intros; lia. }
  split; [| split].
  - intros s Hf. cbn [parse_value].
    destruct (skip_ws s) as [|c r0] eqn:Es; [discriminate |].
    destruct (skip_ws_found _ Es) as (ws & -> & _ & _).
    rewrite length_app in Hf. simpl in Hf.
    destruct (N.eqb c 123).
    { destruct (skip_ws r0) as [|c1 r1]; [discriminate |].
      destruct (N.eqb c1 125); [discriminate |].
      destruct (parse_members f r0 []) eqn:Em; try discriminate.
      exfalso. apply (IHm r0 []); [lia | exact Em]. }
    destruct (N.eqb c 91).
    { destruct (skip_ws r0) as [|c1 r1]; [discriminate |].
      destruct (N.eqb c1 93); [discriminate |].
      destruct (parse_elements f r0 []) eqn:Em; try discriminate.
      exfalso. apply (IHe r0 []); [lia | exact Em]. }
    destruct (N.eqb c 34).
    { destruct (parse_string_body r0) as [[? ?] |]; discriminate. }
    unfold expect_word.
    destruct (N.eqb c 116); [destruct (starts_with _ _); discriminate |].
    destruct (N.eqb c 102); [destruct (starts_with _ _); discriminate |].
    destruct (N.eqb c 110); [destruct (starts_with _ _); discriminate |].
    destruct (parse_number (c :: r0)) as [[? ?] |]; discriminate.
  - intros s acc Hf. cbn [parse_elements].
    destruct (parse_value f s) as [v r0 | |] eqn:Ev;
      [| discriminate | exfalso; apply (IHv s); [lia | exact Ev]].
    destruct (proj1 (parse_reads f) _ _ _ Ev) as (w & -> & Hw & _).
    destruct (skip_ws r0) as [|c r1] eqn:Es; [discriminate |].
    destruct (skip_ws_found _ Es) as (ws & -> & _ & _).
    destruct (N.eqb c 44).
    + apply IHe. rewrite !length_app in Hf. simpl in Hf.
      destruct w; [congruence |]. simpl in Hf. lia.
    + destruct (N.eqb c 93); discriminate.
  - intros s acc Hf. cbn [parse_members].
    destruct (skip_ws s) as [|q r0] eqn:Es; [discriminate |].
    destruct (skip_ws_found _ Es) as (ws & -> & _ & _).
    destruct (N.eqb q 34); [| discriminate].
    destruct (parse_string_body r0) as [[key r1] |] eqn:Ep; [| discriminate].
    destruct (parse_string_body_reads _ (Nat.le_refl _) Ep) as (wk & -> & _ & _).
    destruct (skip_ws r1) as [|c r2] eqn:Es1; [discriminate |].
    destruct (skip_ws_found _ Es1) as (ws1 & -> & _ & _).
    destruct (N.eqb c 58); [| discriminate].
    rewrite !length_app in Hf. simpl in Hf. rewrite !length_app in Hf.
    simpl in Hf.
    destruct (parse_value f r2) as [v r3 | |] eqn:Ev;
      [| discriminate | exfalso; apply (IHv r2); [lia | exact Ev]].
    destruct (proj1 (parse_reads f) _ _ _ Ev) as (w & -> & Hw & _).
    destruct (skip_ws r3) as [|d r4] eqn:Es2; [discriminate |].
    destruct (skip_ws_found _ Es2) as (ws2 & -> & _ & _).
    destruct (N.eqb d 44).
    + apply IHm. rewrite !length_app in Hf. simpl in Hf. lia.
    + destruct (N.eqb d 125); discriminate.
Qed.

Lemma JSON_parse_fuel s : parse_value (2 * length s + 2) s <> PFuel.
Proof. apply (proj1 (parse_fuel _)). lia. Qed.

(** A result other than the exhaustion of the fuel does not change when
    more fuel is given. *)
Lemma parse_mono_step : forall f,
  (forall s, parse_value f s <> PFuel -> parse_value (S f) s = parse_value f s)
  /\ (forall s acc, parse_elements f s acc <> PFuel ->
                    parse_elements (S f) s acc = parse_elements f s acc)
  /\ (forall s acc, parse_members f s acc <> PFuel ->
                    parse_members (S f) s acc = parse_members f s acc).
Proof.
  induction f as [|f (IHv & IHe & IHm)].
  { repeat split; intros; exfalso; auto. }
  split; [| split].
  - intros s H. cbn [parse_value] in H. cbn [parse_value].
    destruct (skip_ws s) as [|c r0]; [reflexivity |].
    destruct (N.eqb c 123).
    { destruct (skip_ws r0) as [|c1 r1]; [reflexivity |].
      destruct (N.eqb c1 125); [reflexivity |].
      rewrite (IHm r0 []); [reflexivity |].
      intros E. rewrite E in H. apply H. reflexivity. }
    destruct (N.eqb c 91).
    { destruct (skip_ws r0) as [|c1 r1]; [reflexivity |].
      destruct (N.eqb c1 93); [reflexivity |].
      rewrite (IHe r0 []); [reflexivity |].
      intros E. rewrite E in H. apply H. reflexivity. }
    reflexivity.
  - intros s acc H. cbn [parse_elements] in H.
    change (parse_elements (S (S f)) s acc)
      with (match parse_value (S f) s with
            | POk v r =>
                match skip_ws r with
                | c :: r1 =>
                    if N.eqb c 44 then parse_elements (S f) r1 (acc ++ [v])
                    else if N.eqb c 93 then POk (acc ++ [v]) r1
                    else PFail
                | [] => PFail
                end
            | PFail => PFail
            | PFuel => PFuel
            end).
    cbn [parse_elements].
    rewrite (IHv s) by (intros E; rewrite E in H; apply H; reflexivity).
    destruct (parse_value f s) as [v r | |]; try reflexivity.
    destruct (skip_ws r) as [|c r1]; [reflexivity |].
    destruct (N.eqb c 44); [| reflexivity].
    apply IHe. exact H.
  - intros s acc H. cbn [parse_members] in H.
    change (parse_members (S (S f)) s acc)
      with (match skip_ws s with
            | q :: r =>
                if N.eqb q 34 then
                  match parse_string_body r with
                  | Some (key, r1) =>
                      match skip_ws r1 with
                      | c :: r2 =>
                          if N.eqb c 58 then
                            match parse_value (S f) r2 with
                            | POk v r3 =>
                                match skip_ws r3 with
                                | d :: r4 =>
                                    if N.eqb d 44
                                    then parse_members (S f) r4 (obj_set key v acc)
                                    else if N.eqb d 125
                                    then POk (obj_set key v acc) r4
                                    else PFail
                                | [] => PFail
                                end
                            | PFail => PFail
                            | PFuel => PFuel
                            end
                          else PFail
                      | [] => PFail
                      end
                  | None => PFail
                  end
                else PFail
            | [] => PFail
            end).
    cbn [parse_members].
    destruct (skip_ws s) as [|q r0]; [reflexivity |].
    destruct (N.eqb q 34); [| reflexivity].
    destruct (parse_string_body r0) as [[key r1] |]; [| reflexivity].
    destruct (skip_ws r1) as [|c r2]; [reflexivity |].
    destruct (N.eqb c 58); [| reflexivity].
    rewrite (IHv r2) by (intros E; rewrite E in H; apply H; reflexivity).
    destruct (parse_value f r2) as [v r3 | |]; try reflexivity.
    destruct (skip_ws r3) as [|d r4]; [reflexivity |].
    destruct (N.eqb d 44); [| reflexivity].
    apply IHm. exact H.
Qed.

Lemma parse_value_mono f f' s :
  f <= f' -> parse_value f s <> PFuel -> parse_value f' s = parse_value f s.
Proof.
  induction 1 as [|f' _ IH]; intros H; [reflexivity |].
  rewrite (proj1 (parse_mono_step f')); rewrite (IH H); auto.
Qed.

(** Any two fuels above twice the length of the text give the same
    result. *)
Lemma parse_value_enough f f' s :
  2 * length s < f -> 2 * length s < f' -> parse_value f s = parse_value f' s.
Proof.
  intros H H'.
  pose proof (proj1 (parse_fuel f) s H) as N.
  pose proof (proj1 (parse_fuel f') s H') as N'.
  destruct (Nat.le_ge_cases f f') as [L | L].
  - symmetry. now apply parse_value_mono.
  - now apply parse_value_mono.
Qed.

Lemma parse_value_object_head f s v r :
  parse_value f s = POk v r -> is_object v = true ->
  exists ws x, s = ws ++ 123%N :: x /\ all_json_ws ws.
Proof.
  destruct f as [|f]; [discriminate |]. cbn [parse_value]. intros H Ho.
  destruct (skip_ws s) as [|c r0] eqn:Es; [discriminate |].
  destruct (skip_ws_found _ Es) as (ws & -> & W & _).
  destruct (N.eqb c 123) eqn:E1.
  { apply N.eqb_eq in E1. subst c. eauto. }
  exfalso.
  destruct (N.eqb c 91).
  { destruct (skip_ws r0) as [|c1 r1]; [discriminate |].
    destruct (N.eqb c1 93); [injection H as <- _; discriminate |].
    destruct (parse_elements f r0 []); try discriminate.
    injection H as <- _. discriminate. }
  destruct (N.eqb c 34).
  { destruct (parse_string_body r0) as [[? ?] |]; [| discriminate].
    injection H as <- _. discriminate. }
  unfold expect_word in H.
  destruct (N.eqb c 116);
    [destruct (starts_with _ _); [injection H as <- _ |]; discriminate |].
  destruct (N.eqb c 102);
    [destruct (starts_with _ _); [injection H as <- _ |]; discriminate |].
  destruct (N.eqb c 110);
    [destruct (starts_with _ _); [injection H as <- _ |]; discriminate |].
  destruct (parse_number (c :: r0)) as [[? ?] |]; [| discriminate].
  injection H as <- _. discriminate.
Qed.

(** An object text is read up to its closing brace, which only white space
    may follow, and is read in the same way whatever follows the brace. *)
Lemma object_text_reads t o :
  object_text t o ->
  exists w0 r,
    t = w0 ++ 125%N :: r /\ all_json_ws r
    /\ (exists ws x, w0 ++ [125%N] = ws ++ 123%N :: x /\ all_json_ws ws)
    /\ forall f r', 2 * length ((w0 ++ [125%N]) ++ r') < f ->
                    parse_value f ((w0 ++ [125%N]) ++ r') = POk o r'.
Proof.
  intros [Hp Ho]. unfold JSON_parse in Hp.
  destruct (parse_value (2 * length t + 2) t) as [v r | |] eqn:E;
    try discriminate.
  destruct (skip_ws r) eqn:Er; [| discriminate]. injection Hp as ->.
  apply skip_ws_all in Er.
  destruct (proj1 (parse_reads _) _ _ _ E) as (w & -> & _ & Hw & Hrep).
  destruct (Hw Ho) as (w0 & ->).
  assert (Hfo : forall r', follow_ok o r') by (destruct o; simpl; auto; discriminate).
  exists w0, r. split; [now rewrite <- app_assoc |]. split; [exact Er |].
  split.
  - pose proof (Hrep _ [] (Nat.le_refl _) (Hfo [])) as H0.
    apply parse_value_object_head in H0; [| exact Ho].
    rewrite app_nil_r in H0. exact H0.
  - intros f r' Hf.
    rewrite (@parse_value_enough f
               (f + (2 * length ((w0 ++ [125%N]) ++ r) + 2)) _ Hf
               (Nat.lt_lt_add_r _ _ _ Hf)).
    apply Hrep; [apply Nat.le_add_l | apply Hfo].
Qed.

Lemma skip_ws_open_brace ws x y :
  all_json_ws ws -> skip_ws ((ws ++ 123%N :: x) ++ y) = 123%N :: x ++ y.
Proof.
  intros W. rewrite <- app_assoc. rewrite (skip_ws_app _ W). reflexivity.
Qed.

(** The elements of an array of object texts are read in the order of the
    text; after the last one the loop looks for a comma or for the closing
    bracket. *)
Lemma elements_compose : forall ts os,
  Forall2 object_text ts os -> ts <> [] ->
  exists J0 rn,
    join (lit ",") ts = J0 ++ 125%N :: rn /\ all_json_ws rn
    /\ (exists ws x, J0 ++ [125%N] = ws ++ 123%N :: x /\ all_json_ws ws)
    /\ forall f y acc,
         2 * length (J0 ++ 125%N :: y) + 1 < f ->
         parse_elements f (J0 ++ 125%N :: y) acc
         = match skip_ws y with
           | c :: r1 =>
               if N.eqb c 44
               then parse_elements (f - length ts) r1 (acc ++ os)
               else if N.eqb c 93 then POk (acc ++ os) r1
               else PFail
           | [] => PFail
           end.
Proof.
  induction 1 as [|t o ts os Ht Hts IH]; intros Hne; [congruence |].
  destruct (object_text_reads Ht) as (w0 & r & -> & Wr & Hhead & Hrd).
  destruct ts as [|t2 ts].
  - inversion Hts; subst. exists w0, r.
    split; [reflexivity |]. split; [exact Wr |]. split; [exact Hhead |].
    intros [|f] y acc Hf; [lia |].
    change (S f - length [w0 ++ 125%N :: r]) with (f - 0).
    rewrite Nat.sub_0_r. cbn [parse_elements].
    replace (w0 ++ 125%N :: y) with ((w0 ++ [125%N]) ++ y) in * by now norm_app.
    rewrite Hrd by lia. reflexivity.
  - destruct (IH ltac:(discriminate)) as (J0 & rn & EJ & Wn & _ & Hel).
    destruct os as [|o2 os]; [inversion Hts |].
    exists (w0 ++ 125%N :: r ++ 44%N :: J0), rn.
    split.
    { change (join (lit ",") ((w0 ++ 125%N :: r) :: t2 :: ts))
        with ((w0 ++ 125%N :: r) ++ 44%N :: join (lit ",") (t2 :: ts)).
      rewrite EJ. now norm_app. }
    split; [exact Wn |].
    split.
    { destruct Hhead as (ws & x & E & W).
      exists ws, (x ++ r ++ 44%N :: J0 ++ [125%N]). split; [| exact W].
      replace ((w0 ++ 125%N :: r ++ 44%N :: J0) ++ [125%N])
        with ((w0 ++ [125%N]) ++ r ++ 44%N :: J0 ++ [125%N]) by now norm_app.
      rewrite E. now norm_app. }
    intros [|f] y acc Hf; [lia |].
    change (S f - length ((w0 ++ 125%N :: r) :: t2 :: ts))
      with (f - length (t2 :: ts)).
    cbn [parse_elements].
    replace ((w0 ++ 125%N :: r ++ 44%N :: J0) ++ 125%N :: y)
      with ((w0 ++ [125%N]) ++ (r ++ 44%N :: (J0 ++ 125%N :: y))) in *
      by now norm_app.
    rewrite !length_app in Hf. simpl length in Hf. rewrite !length_app in Hf.
    simpl length in Hf.
    rewrite Hrd
      by (rewrite !length_app; simpl length; rewrite !length_app; simpl length;
          lia).
    rewrite (skip_ws_app _ Wr). rewrite (@skip_ws_nonws 44%N _ eq_refl).
    change (N.eqb 44 44) with true. cbv iota.
    rewrite (Hel f y (acc ++ [o])); [| rewrite length_app; simpl length; lia].
    rewrite <- app_assoc. reflexivity.
Qed.

Lemma segments_doc_open_app a1 a2 a3 x :
  segments_doc_open a1 a2 a3 ++ x
  = 123%N :: a1 ++ 34%N :: (key_segments ++ 34%N :: a2 ++ 58%N :: a3 ++ 91%N :: x).
Proof.
  unfold segments_doc_open, dq, c_dquote.
  change (lit "{") with [123%N]. change (lit ":") with [58%N].
  change (lit "[") with [91%N]. now norm_app.
Qed.

Lemma parse_key_segments x :
  parse_string_body (key_segments ++ 34%N :: x) = Some (key_segments, x).
Proof. reflexivity. Qed.

(** How a document opened by [segments_doc_open] is read, up to the
    elements of the array, when the first of them is an object. *)
Lemma parse_segments_doc a1 a2 a3 body x ws f :
  all_json_ws a1 -> all_json_ws a2 -> all_json_ws a3 ->
  all_json_ws ws -> body = ws ++ 123%N :: x ->
  parse_value (S (S (S f))) (segments_doc_open a1 a2 a3 ++ body)
  = match parse_elements f body [] with
    | POk vs r2 =>
        match skip_ws r2 with
        | d :: r4 =>
            if N.eqb d 44 then
              match parse_members (S f) r4 [(key_segments, JArr vs)] with
              | POk ms r => POk (JObj ms) r
              | PFail => PFail
              | PFuel => PFuel
              end
            else if N.eqb d 125 then POk (segments_object vs) r4
            else PFail
        | [] => PFail
        end
    | PFail => PFail
    | PFuel => PFuel
    end.
Proof.
  intros W1 W2 W3 Wh Eh.
  rewrite segments_doc_open_app.
  cbn [parse_value].
  rewrite (@skip_ws_nonws 123%N _ eq_refl).
  change (N.eqb 123 123) with true. cbv iota.
  rewrite (skip_ws_app _ W1).
  rewrite (@skip_ws_nonws 34%N _ eq_refl).
  change (N.eqb 34 125) with false. cbv iota.
  cbn [parse_members].
  rewrite (skip_ws_app _ W1).
  rewrite (@skip_ws_nonws 34%N _ eq_refl).
  change (N.eqb 34 34) with true. cbv iota.
  rewrite parse_key_segments.
  rewrite (skip_ws_app _ W2).
  rewrite (@skip_ws_nonws 58%N _ eq_refl).
  change (N.eqb 58 58) with true. cbv iota.
  cbn [parse_value].
  rewrite (skip_ws_app _ W3).
  rewrite (@skip_ws_nonws 91%N _ eq_refl).
  change (N.eqb 91 123) with false. change (N.eqb 91 91) with true. cbv iota.
  assert (Hs : skip_ws body = 123%N :: x).
  { rewrite Eh, (skip_ws_app _ Wh). reflexivity. }
  rewrite Hs. change (N.eqb 123 93) with false. cbv iota.
  destruct (parse_elements f body []) as [vs r2 | |]; try reflexivity.
  destruct (skip_ws r2) as [|d r4]; [reflexivity |].
  destruct (N.eqb d 44); [reflexivity |].
  destruct (N.eqb d 125); reflexivity.
Qed.

(** *** Documents with a segments array *)

Lemma all_json_ws_no_brace r : all_json_ws r -> ~ In 125%N r.
Proof.
  intros W Hin. unfold all_json_ws in W. rewrite Forall_forall in W.
  apply W in Hin. discriminate.
Qed.

Lemma last_occurrence_unique (c : jchar) : forall p q y r,
  p ++ c :: y = q ++ c :: r -> ~ In c y -> ~ In c r -> y = r.
Proof.
  induction p as [|a p IH]; intros [|b q] y r E Hy Hr; simpl in E.
  - now injection E.
  - injection E as <- E. exfalso. apply Hy. rewrite E.
    apply in_or_app. right. left. reflexivity.
  - injection E as -> E. exfalso. apply Hr. rewrite <- E.
    apply in_or_app. right. left. reflexivity.
  - injection E as _ E. eapply IH; eauto.
Qed.

Lemma parse_value_brace_object f s v r x :
  parse_value f s = POk v r -> skip_ws s = 123%N :: x -> is_object v = true.
Proof.
  destruct f as [|f]; [discriminate |]. cbn [parse_value]. intros H Hs.
  rewrite Hs in H.
  change (N.eqb 123 123) with true in H. cbv iota in H.
  destruct (skip_ws x) as [|c1 r1]; [discriminate |].
  destruct (N.eqb c1 125); [injection H as <- _; reflexivity |].
  destruct (parse_members f x []); try discriminate.
  injection H as <- _. reflexivity.
Qed.

(** A document opened by [segments_doc_open], holding object texts and
    then closed by a bracket and a brace, reads as the object whose
    [segments] member is the array of these objects, in the order of the
    text. *)
Lemma parse_closed_doc a1 a2 a3 J0 os x ws y y1 r' :
  all_json_ws a1 -> all_json_ws a2 -> all_json_ws a3 ->
  all_json_ws ws -> J0 ++ [125%N] = ws ++ 123%N :: x ->
  (forall f y acc,
      2 * length (J0 ++ 125%N :: y) + 1 < f ->
      parse_elements f (J0 ++ 125%N :: y) acc
      = match skip_ws y with
        | c :: r1 =>
            if N.eqb c 44 then parse_elements (f - length os) r1 (acc ++ os)
            else if N.eqb c 93 then POk (acc ++ os) r1
            else PFail
        | [] => PFail
        end) ->
  skip_ws y = 93%N :: y1 -> skip_ws y1 = 125%N :: r' -> skip_ws r' = [] ->
  JSON_parse (segments_doc_open a1 a2 a3 ++ J0 ++ 125%N :: y)
  = Some (segments_object os).
Proof.
  intros W1 W2 W3 Wh Eh Hel Hy Hy1 Hr'.
  assert (Eb : J0 ++ 125%N :: y = ws ++ 123%N :: (x ++ y)).
  { replace (J0 ++ 125%N :: y) with ((J0 ++ [125%N]) ++ y) by now norm_app.
    rewrite Eh. now norm_app. }
  unfold JSON_parse.
  set (doc := segments_doc_open a1 a2 a3 ++ J0 ++ 125%N :: y).
  assert (Hlen : exists f, 2 * length doc + 2 = S (S (S f))
                           /\ 2 * length (J0 ++ 125%N :: y) + 1 < f).
  { exists (2 * length doc - 1). unfold doc.
    rewrite segments_doc_open_app.
    repeat (rewrite ?length_app; simpl length). lia. }
  destruct Hlen as (f & -> & Hf). unfold doc.
  rewrite (@parse_segments_doc a1 a2 a3 _ (x ++ y) ws f W1 W2 W3 Wh Eb).
  rewrite (Hel f y [] Hf), Hy.
  change (N.eqb 93 44) with false. change (N.eqb 93 93) with true.
  cbv iota. rewrite Hy1.
  change (N.eqb 125 44) with false. change (N.eqb 125 125) with true.
  cbv iota. rewrite Hr'. reflexivity.
Qed.

(** The same document, cut anywhere after its last object: the direct
    parse fails when what follows holds no closing brace. *)
Lemma parse_open_doc_fails a1 a2 a3 J0 os x ws y :
  all_json_ws a1 -> all_json_ws a2 -> all_json_ws a3 ->
  all_json_ws ws -> J0 ++ [125%N] = ws ++ 123%N :: x ->
  (forall f y acc,
      2 * length (J0 ++ 125%N :: y) + 1 < f ->
      parse_elements f (J0 ++ 125%N :: y) acc
      = match skip_ws y with
        | c :: r1 =>
            if N.eqb c 44 then parse_elements (f - length os) r1 (acc ++ os)
            else if N.eqb c 93 then POk (acc ++ os) r1
            else PFail
        | [] => PFail
        end) ->
  ~ In 125%N y ->
  JSON_parse (segments_doc_open a1 a2 a3 ++ J0 ++ 125%N :: y) = None.
Proof.
  intros W1 W2 W3 Wh Eh Hel Hy.
  assert (Eb : J0 ++ 125%N :: y = ws ++ 123%N :: (x ++ y)).
  { replace (J0 ++ 125%N :: y) with ((J0 ++ [125%N]) ++ y) by now norm_app.
    rewrite Eh. now norm_app. }
  unfold JSON_parse.
  set (doc := segments_doc_open a1 a2 a3 ++ J0 ++ 125%N :: y).
  destruct (parse_value (2 * length doc + 2) doc) as [v r | |] eqn:E;
    try reflexivity.
  destruct (skip_ws r) eqn:Er; [| reflexivity]. exfalso.
  assert (Ho : is_object v = true).
  { eapply parse_value_brace_object; [exact E |]. unfold doc.
    rewrite segments_doc_open_app. apply skip_ws_nonws. reflexivity. }
  destruct (proj1 (parse_reads _) _ _ _ E) as (w & Ew & _ & Hw & _).
  destruct (Hw Ho) as (w0 & ->).
  apply skip_ws_all in Er.
  assert (Ey : y = r).
  { unfold doc in Ew. rewrite app_assoc in Ew.
    replace ((w0 ++ [125%N]) ++ r) with (w0 ++ 125%N :: r) in Ew by now norm_app.
    eapply last_occurrence_unique; [exact Ew | exact Hy |].
    now apply all_json_ws_no_brace. }
  subst y.
  assert (Hlen : exists f, 2 * length doc + 2 = S (S (S f))
                           /\ 2 * length (J0 ++ 125%N :: r) + 1 < f).
  { exists (2 * length doc - 1). unfold doc.
    rewrite segments_doc_open_app.
    repeat (rewrite ?length_app; simpl length). lia. }
  destruct Hlen as (f & Ef & Hf). rewrite Ef in E. unfold doc in E.
  rewrite (@parse_segments_doc a1 a2 a3 _ (x ++ r) ws f W1 W2 W3 Wh Eb) in E.
  rewrite (Hel f r [] Hf) in E.
  replace (skip_ws r) with (@nil N) in E; [discriminate |].
  symmetry. clear - Er. induction Er as [|c r Hc _ IH]; simpl; [reflexivity |].
  now rewrite Hc.
Qed.

(** Tier 1 on a complete document: the objects of the array, in the order
    of the text. *)
Lemma direct_parse_doc a1 a2 a3 a4 a5 ts os :
  all_json_ws a1 -> all_json_ws a2 -> all_json_ws a3 ->
  all_json_ws a4 -> all_json_ws a5 ->
  Forall2 object_text ts os -> ts <> [] ->
  JSON_parse (segments_doc a1 a2 a3 ts a4 a5) = Some (segments_object os).
Proof.
  intros W1 W2 W3 W4 W5 Hts Hne.
  destruct (elements_compose Hts Hne)
    as (J0 & rn & EJ & Wn & (ws & x & Eh & Wh) & Hel).
  rewrite (Forall2_length Hts) in Hel.
  unfold segments_doc. rewrite EJ.
  replace ((J0 ++ 125%N :: rn) ++ a4 ++ lit "]" ++ a5 ++ lit "}")
    with (J0 ++ 125%N :: (rn ++ a4 ++ lit "]" ++ a5 ++ lit "}"))
    by now norm_app.
  eapply parse_closed_doc; eauto.
  - rewrite (skip_ws_app _ Wn), (skip_ws_app _ W4). reflexivity.
  - rewrite (skip_ws_app _ W5). reflexivity.
  - reflexivity.
Qed.

Lemma lastIndexOf_from_absent c : forall s i found,
  ~ In c s -> lastIndexOf_from c s i found = found.
Proof.
  induction s as [|a s IH]; intros i found H; simpl; [reflexivity |].
  rewrite IH by (intros Hin; apply H; right; exact Hin).
  destruct (N.eqb_spec a c) as [-> | _]; [| reflexivity].
  exfalso. apply H. left. reflexivity.
Qed.

Lemma lastIndexOf_from_last c y : forall p i found,
  ~ In c y -> lastIndexOf_from c (p ++ c :: y) i found = Some (i + length p).
Proof.
  induction p as [|a p IH]; intros i found H; simpl.
  - rewrite N.eqb_refl, lastIndexOf_from_absent by exact H.
    now rewrite Nat.add_0_r.
  - rewrite IH by exact H. f_equal. lia.
Qed.

Lemma lastIndexOf_last c p y :
  ~ In c y -> lastIndexOf c (p ++ c :: y) = Some (length p).
Proof. intros H. unfold lastIndexOf. now rewrite lastIndexOf_from_last. Qed.

Lemma firstn_through p (c : jchar) y :
  firstn (length p + 1) (p ++ c :: y) = p ++ [c].
Proof.
  replace (p ++ c :: y) with ((p ++ [c]) ++ y) by now norm_app.
  replace (length p + 1) with (length (p ++ [c]) + 0)
    by (rewrite length_app; simpl; lia).
  rewrite firstn_app_2. simpl. apply app_nil_r.
Qed.

Lemma not_in_trim_end c s : ~ In c s -> ~ In c (trim_end s).
Proof.
  intros H Hin. destruct (trim_end_prefix s) as (ws & E).
  apply H. rewrite E. apply in_or_app. left. exact Hin.
Qed.

Lemma trim_braced p y :
  trim ((123%N :: p) ++ 125%N :: y) = (123%N :: p) ++ 125%N :: trim_end y.
Proof.
  unfold trim. change ((123%N :: p) ++ 125%N :: y) with (123%N :: p ++ 125%N :: y).
  rewrite trim_start_nonspace by reflexivity.
  change (123%N :: p ++ 125%N :: y) with ((123%N :: p) ++ 125%N :: y).
  apply trim_end_app. reflexivity.
Qed.

(** The two first tiers on a document cut after its last complete object,
    when what follows that object holds no closing brace: the direct parse
    fails, and the truncation repair returns the complete objects, in the
    order of the text. *)
Lemma truncated_doc_tiers a1 a2 a3 ts os tail :
  all_json_ws a1 -> all_json_ws a2 -> all_json_ws a3 ->
  Forall2 object_text ts os -> ts <> [] ->
  ~ In 125%N tail ->
  tier1 (trim (truncated_doc a1 a2 a3 ts tail)) = None
  /\ tier2 (trim (truncated_doc a1 a2 a3 ts tail)) = Some (segments_object os).
Proof.
  intros W1 W2 W3 Hts Hne Htail.
  destruct (elements_compose Hts Hne)
    as (J0 & rn & EJ & Wn & (ws & x & Eh & Wh) & Hel).
  rewrite (Forall2_length Hts) in Hel.
  assert (Hy : ~ In 125%N (trim_end (rn ++ tail))).
  { apply not_in_trim_end. intros Hin. apply in_app_or in Hin.
    destruct Hin as [Hin | Hin]; [| now apply Htail].
    now apply (all_json_ws_no_brace Wn). }
  set (y := trim_end (rn ++ tail)) in *.
  assert (Et : trim (truncated_doc a1 a2 a3 ts tail)
               = segments_doc_open a1 a2 a3 ++ J0 ++ 125%N :: y).
  { unfold truncated_doc. rewrite EJ.
    replace (segments_doc_open a1 a2 a3 ++ (J0 ++ 125%N :: rn) ++ tail)
      with ((segments_doc_open a1 a2 a3 ++ J0) ++ 125%N :: rn ++ tail)
      by now norm_app.
    rewrite segments_doc_open_app.
    match goal with
    | |- trim ((123%N :: ?p) ++ _) = _ => rewrite (trim_braced p (rn ++ tail))
    end.
    rewrite <- segments_doc_open_app. now norm_app. }
  rewrite Et. split.
  - unfold tier1.
    rewrite (@parse_open_doc_fails a1 a2 a3 J0 os x ws y W1 W2 W3 Wh Eh Hel Hy).
    reflexivity.
  - unfold tier2, repaired_text.
    rewrite app_assoc, (@lastIndexOf_last 125%N _ y Hy), firstn_through.
    replace (((segments_doc_open a1 a2 a3 ++ J0) ++ [125%N]) ++ lit "]}")
      with (segments_doc_open a1 a2 a3 ++ J0 ++ 125%N :: lit "]}")
      by now norm_app.
    rewrite (@parse_closed_doc a1 a2 a3 J0 os x ws (lit "]}") (lit "}") []
               W1 W2 W3 Wh Eh Hel eq_refl eq_refl eq_refl).
    reflexivity.
Qed.

(** C4 (amended). For a document with a segments array holding the objects
    o1, ..., on, p, cut inside its final object p, with at least one
    complete object before and no closing brace in what is left of p, the
    direct parse fails and tier 2 returns exactly o1, ..., on, in the order
    of the text; so does the recovery as a whole. *)
Theorem tier2_recovers_complete_objects
    (a1 a2 a3 : jstring) (ts : list jstring) (os : list json) (tail : jstring) :
  all_json_ws a1 -> all_json_ws a2 -> all_json_ws a3 ->
  Forall2 object_text ts os -> ts <> [] ->
  ~ In 125%N tail ->
  tier1 (trim (truncated_doc a1 a2 a3 ts tail)) = None
  /\ tier2 (trim (truncated_doc a1 a2 a3 ts tail)) = Some (segments_object os)
  /\ tryRepairJson (truncated_doc a1 a2 a3 ts tail)
     = Returns (segments_object os).
Proof.
  intros W1 W2 W3 Hts Hne Htail.
  destruct (@truncated_doc_tiers a1 a2 a3 ts os tail W1 W2 W3 Hts Hne Htail)
    as [T1 T2].
  split; [exact T1 |]. split; [exact T2 |].
  unfold tryRepairJson. rewrite T1, T2. reflexivity.
Qed.

(** C4 as stated fails: this document is cut inside its final object, its
    first object is complete and the direct parse fails, but the final
    object is cut inside a text that holds a closing brace; the text cut
    after that brace does not parse, tier 2 returns nothing, and the
    recovery throws. *)
Lemma tier2_misses_complete_object :
  exists o1,
    object_text brace_in_text_first o1
    /\ JSON_parse (brace_in_text_doc ++ [c_dquote] ++ lit "}]}")
       = Some (segments_object
                 [o1; JObj [(key_startTime, JStr (lit "00:00:02.000"));
                            (key_endTime, JStr (lit "00:00:03.000"));
                            (key_text, JStr (lit "a } b"))]])
    /\ tier1 (trim brace_in_text_doc) = None
    /\ tier2 (trim brace_in_text_doc) = None
    /\ tryRepairJson brace_in_text_doc = Throws structure_invalid.
Proof.
  eexists. split; [split; [vm_compute; reflexivity | reflexivity] |].
  split; [vm_compute; reflexivity |].
  split; [vm_compute; reflexivity |].
  split; vm_compute; reflexivity.
Qed.

Lemma tier2_recovers_complete_objects_witness :
  Forall2 object_text sample_texts sample_objects
  /\ sample_texts <> []
  /\ ~ In 125%N sample_tail
  /\ tier2 (trim (truncated_doc [] [] (lit " ") sample_texts sample_tail))
     = Some (segments_object sample_objects)
  /\ tryRepairJson (truncated_doc [] [] (lit " ") sample_texts sample_tail)
     = Returns (segments_object sample_objects).
Proof.
  assert (H1 : Forall2 object_text sample_texts sample_objects).
  { repeat constructor. }
  assert (H2 : sample_texts <> []) by discriminate.
  assert (H3 : ~ In 125%N sample_tail).
  { vm_compute. intros H.
    repeat (destruct H as [H | H]; [discriminate H |]). exact H. }
  split; [exact H1 |]. split; [exact H2 |]. split; [exact H3 |].
  apply (@tier2_recovers_complete_objects [] [] (lit " ")
           sample_texts sample_objects sample_tail);
    try assumption; repeat constructor.
Defined.

(** ** The clients *)

Lemma mapM_Forall2 {A B} (f : A -> outcome B) : forall l out,
  mapM f l = Returns out -> Forall2 (fun a b => f a = Returns b) l out.
Proof.
  induction l as [|a l IH]; intros out H; simpl in H.
  - injection H as <-. constructor.
  - destruct (f a) as [b | |] eqn:E; try discriminate. simpl in H.
    destruct (mapM f l) as [bs | |]; try discriminate. simpl in H.
    injection H as <-. constructor; [exact E | now apply IH].
Qed.

Lemma tryRepairJson_returns text v :
  tryRepairJson text = Returns v ->
  tier1 (trim text) = Some v
  \/ (tier1 (trim text) = None /\ tier2 (trim text) = Some v)
  \/ (tier1 (trim text) = None /\ tier2 (trim text) = None
      /\ exists segs, tier3 (trim text) = Some segs
                      /\ v = segments_object segs).
Proof.
  unfold tryRepairJson. intros H.
  destruct (tier1 (trim text)) as [v1 |]; [injection H as ->; auto |].
  destruct (tier2 (trim text)) as [v2 |]; [injection H as ->; auto |].
  destruct (tier3 (trim text)) as [[|s l] |]; try discriminate.
  injection H as <-. right. right. eauto.
Qed.

Lemma tier_value_segments (t : option json) v :
  (t = Some v) ->
  (forall w, t = Some w -> has_segments_array w = true) ->
  exists segs, get_prop v key_segments = Returns (Some (JArr segs)).
Proof.
  intros E H. apply H, tier_success_shape in E.
  destruct E as (ms & items & -> & G). exists items. simpl. now rewrite G.
Qed.

Lemma tier1_has_segments t w : tier1 t = Some w -> has_segments_array w = true.
Proof.
  unfold tier1. destruct (JSON_parse t); [| discriminate].
  destruct (has_segments_array j) eqn:E; [| discriminate].
  intros H. injection H as <-. exact E.
Qed.

Lemma tier2_has_segments t w : tier2 t = Some w -> has_segments_array w = true.
Proof.
  unfold tier2. destruct (lastIndexOf 125 t); [| discriminate].
  destruct (JSON_parse _); [| discriminate].
  destruct (has_segments_array j) eqn:E; [| discriminate].
  intros H. injection H as <-. exact E.
Qed.

(** *** Cancellation *)

Lemma race_step_settled signal st ev :
  p_race st <> Pending -> p_race (race_step signal st ev) = p_race st.
Proof.
  intros H. destruct ev as [|r]; simpl.
  - destruct signal; [| reflexivity].
    destruct (p_abort st); [| reflexivity | reflexivity].
    simpl. destruct (p_race st); [congruence | reflexivity | reflexivity].
  - destruct (p_request st); [| reflexivity | reflexivity].
    simpl. destruct (p_race st); [congruence | reflexivity | reflexivity].
Qed.

Lemma race_fold_settled signal trace : forall st,
  p_race st <> Pending ->
  p_race (fold_left (race_step signal) trace st) = p_race st.
Proof.
  induction trace as [|ev trace IH]; intros st H; simpl; [reflexivity |].
  rewrite IH; rewrite race_step_settled; auto.
Qed.




(** *** Translation *)

(** C9. The translation client returns the parsed segments array as it is:
    nothing is applied to its timestamps or to any other field.  When the
    response has no text, or an empty one, it throws its own error, the one
    with the message Empty translation response. *)
Theorem translateSegments_returns_parsed_array
    (t : jstring) (parsed : json) (segs : list json) :
  t <> [] ->
  JSON_parse (strip_fences t) = Some parsed ->
  get_prop parsed key_segments = Returns (Some (JArr segs)) ->
  translateSegments (Response (Some t)) = Returns (JArr segs)
  /\ translateSegments (Response None)
     = Throws (Error (lit "Empty translation response"))
  /\ translateSegments (Response (Some []))
     = Throws (Error (lit "Empty translation response")).
Proof.
  intros Ht Hp Hg. split; [| split; reflexivity].
  unfold translateSegments. simpl resp_text.
  destruct t as [|c t]; [congruence |].
  rewrite Hp. unfold translate_result. rewrite Hg. reflexivity.
Qed.

Lemma translateSegments_returns_parsed_array_witness :
  loose_translation_text <> []
  /\ JSON_parse (strip_fences loose_translation_text)
     = Some (segments_object loose_translation_segments)
  /\ get_prop (segments_object loose_translation_segments) key_segments
     = Returns (Some (JArr loose_translation_segments))
  /\ translateSegments (Response (Some loose_translation_text))
     = Returns (JArr loose_translation_segments).
Proof.
  split; [discriminate |].
  split; [vm_compute; reflexivity |].
  split; [reflexivity |].
  apply (@translateSegments_returns_parsed_array loose_translation_text
           (segments_object loose_translation_segments)
           loose_translation_segments).
  - discriminate.
  - vm_compute. reflexivity.
  - reflexivity.
Defined.

(* ================================================================= *)
(** * Part III: further properties *)
(* ================================================================= *)

(** ** Trimming *)

Lemma json_ws_space c : is_json_ws c = true -> is_space c = true.
Proof.
  unfold is_json_ws, is_space, is_line_terminator. intros H.
  repeat (apply orb_true_iff in H; destruct H as [H|H]);
    apply N.eqb_eq in H; subst; reflexivity.
Qed.

Lemma all_json_ws_space ws : all_json_ws ws -> all_space ws.
Proof.
  unfold all_json_ws, all_space. intros H.
  eapply Forall_impl; [| exact H]. apply json_ws_space.
Qed.

Lemma all_space_trim_start ws s : all_space ws -> trim_start (ws ++ s) = trim_start s.
Proof.
  induction 1 as [|c ws Hc _ IH]; [reflexivity |]. simpl. now rewrite Hc.
Qed.

Lemma all_space_rev ws : all_space ws -> all_space (rev ws).
Proof. unfold all_space. apply Forall_rev. Qed.

Lemma all_space_trim_end ws s : all_space ws -> trim_end (s ++ ws) = trim_end s.
Proof.
  intros H. unfold trim_end. rewrite rev_app_distr.
  now rewrite (@all_space_trim_start (rev ws) (rev s) (all_space_rev H)).
Qed.

Lemma trim_start_split s : exists ws, all_space ws /\ s = ws ++ trim_start s.
Proof.
  induction s as [|c s (ws & Hw & IH)]; [exists []; split; [constructor | reflexivity] |].
  simpl. destruct (is_space c) eqn:E.
  - exists (c :: ws). split; [now constructor |]. simpl. now rewrite <- IH.
  - exists []. split; [constructor | reflexivity].
Qed.

Lemma trim_end_split s : exists ws, all_space ws /\ s = trim_end s ++ ws.
Proof.
  unfold trim_end. destruct (trim_start_split (rev s)) as (ws & Hw & E).
  exists (rev ws). split; [now apply all_space_rev |].
  rewrite <- rev_app_distr, <- E. symmetry. apply rev_involutive.
Qed.

Lemma trim_start_head s c r : trim_start s = c :: r -> is_space c = false.
Proof.
  induction s as [|a s IH]; simpl; [discriminate |].
  destruct (is_space a) eqn:E; [exact IH |].
  intros H. injection H as <- _. exact E.
Qed.

Lemma trim_start_fixed s :
  match s with c :: _ => is_space c = false | [] => True end -> trim_start s = s.
Proof. destruct s as [|c s]; [reflexivity |]. simpl. now intros ->. Qed.

Lemma trim_start_idem s : trim_start (trim_start s) = trim_start s.
Proof.
  apply trim_start_fixed. destruct (trim_start s) eqn:E; [exact I |].
  exact (trim_start_head _ E).
Qed.

Lemma trim_end_idem s : trim_end (trim_end s) = trim_end s.
Proof.
  unfold trim_end. now rewrite rev_involutive, trim_start_idem.
Qed.

Lemma trim_end_nil_space s : all_space s -> trim_end s = [].
Proof.
  intros H. change s with ([] ++ s). now rewrite (@all_space_trim_end s [] H).
Qed.

(** Trimming the two ends in either order gives the same text. *)
Lemma trim_start_trim_end s : trim_start (trim_end s) = trim s.
Proof.
  unfold trim. destruct (trim_start_split s) as (ws & Hw & E).
  destruct (trim_start s) as [|c r] eqn:Et.
  - rewrite app_nil_r in E. subst s. now rewrite (trim_end_nil_space Hw).
  - pose proof (trim_start_head _ Et) as Hc.
    rewrite E. rewrite (@trim_end_app ws c r Hc).
    rewrite (@all_space_trim_start ws _ Hw).
    rewrite (@trim_start_nonspace c _ Hc).
    change (c :: r) with ([] ++ c :: r). now rewrite (@trim_end_app [] c r Hc).
Qed.

Lemma trim_idem s : trim (trim s) = trim s.
Proof.
  unfold trim at 1. rewrite <- (trim_start_trim_end s) at 1.
  rewrite trim_start_idem, trim_start_trim_end.
  unfold trim. apply trim_end_idem.
Qed.

Lemma trim_around ws1 s ws2 :
  all_space ws1 -> all_space ws2 -> trim (ws1 ++ s ++ ws2) = trim s.
Proof.
  intros H1 H2. unfold trim at 1.
  rewrite (@all_space_trim_start ws1 _ H1).
  change (trim_end (trim_start (s ++ ws2))) with (trim (s ++ ws2)).
  rewrite <- trim_start_trim_end.
  rewrite (@all_space_trim_end ws2 s H2).
  apply trim_start_trim_end.
Qed.

(** ** Greedy runs and literals in the matcher *)

Lemma rmatch_lit w : forall pos r caps k,
  rmatch (re_lit w) (MState pos (w ++ r) caps) k
  = k (MState (pos + length w) r caps).
Proof.
  induction w as [|c w IH]; intros pos r caps k.
  - simpl. now rewrite Nat.add_0_r.
  - change (re_lit (c :: w)) with (RSeq (re_char c) (re_lit w)).
    cbn [rmatch]. unfold re_char. cbn [rmatch ms_rest ms_pos ms_caps app].
    rewrite N.eqb_refl. rewrite IH. simpl length.
    now rewrite Nat.add_succ_r.
Qed.

Lemma rmatch_lit_end w pos caps k :
  rmatch (re_lit w) (MState pos w caps) k = k (MState (pos + length w) [] caps).
Proof.
  pose proof (rmatch_lit w pos [] caps k) as H. now rewrite app_nil_r in H.
Qed.

Lemma rmatch_seq r1 r2 st k :
  rmatch (RSeq r1 r2) st k = rmatch r1 st (fun st1 => rmatch r2 st1 k).
Proof. reflexivity. Qed.

Lemma rmatch_bol s caps k : rmatch RBol (MState 0 s caps) k = k (MState 0 s caps).
Proof. reflexivity. Qed.

Lemma rmatch_eol pos caps k :
  rmatch REol (MState pos [] caps) k = k (MState pos [] caps).
Proof. reflexivity. Qed.

Lemma rmatch_empty st k : rmatch REmpty st k = k st.
Proof. reflexivity. Qed.

(** A starred character class takes the whole run of characters of the
    class when the rest of the pattern cannot start inside the run, or
    cannot fail. *)
Lemma star_class_run p k :
  (forall st, k st <> None)
  \/ (forall pos c r caps, p c = true -> k (MState pos (c :: r) caps) = None) ->
  forall s fuel pos caps, length s < fuel ->
  star_loop (rmatch (RChar p)) [] k fuel (MState pos s caps)
  = k (MState (pos + length (fst (span p s))) (snd (span p s)) caps).
Proof.
  intros Hk. induction s as [|c s IH]; intros fuel pos caps Hlen;
    (destruct fuel as [|f]; [simpl in Hlen; lia |]).
  - cbn [star_loop]. rewrite clear_caps_nil. cbn [rmatch ms_rest]. simpl.
    now rewrite Nat.add_0_r.
  - cbn [star_loop]. rewrite clear_caps_nil. cbn [rmatch ms_rest ms_pos ms_caps].
    simpl span. destruct (p c) eqn:Hp.
    + replace (Nat.eqb (S pos) pos) with false
        by (symmetry; apply Nat.eqb_neq; lia).
      rewrite IH by (simpl in Hlen; lia).
      destruct (span p s) as [a b]. cbn [fst snd length].
      rewrite Nat.add_succ_r. cbn [Nat.add].
      destruct Hk as [Hk|Hk].
      * destruct (k (MState (S (pos + length a)) b caps)) eqn:E;
          [reflexivity | exfalso; exact (Hk _ E)].
      * rewrite (Hk pos c s caps Hp). destruct (k _); reflexivity.
    + cbn [or_else fst snd length]. now rewrite Nat.add_0_r.
Qed.

Lemma span_space_trim_start s : snd (span is_space s) = trim_start s.
Proof.
  induction s as [|c s IH]; [reflexivity |]. simpl.
  destruct (is_space c); [| reflexivity].
  destruct (span is_space s). exact IH.
Qed.

Lemma rmatch_ws_run k s pos caps :
  (forall st, k st <> None)
  \/ (forall pos c r caps, is_space c = true -> k (MState pos (c :: r) caps) = None) ->
  rmatch re_ws (MState pos s caps) k
  = k (MState (pos + length (fst (span is_space s))) (trim_start s) caps).
Proof.
  intros Hk. rewrite <- span_space_trim_start.
  apply (@star_class_run is_space k Hk s (S (length s)) pos caps). lia.
Qed.

(** *** The leftmost match *)

Lemma rsearch_first r s st : forall pre pos,
  (forall p1 c p2, pre = p1 ++ c :: p2 ->
                   match_at r (pos + length p1) (c :: p2 ++ s) = None) ->
  match_at r (pos + length pre) s = Some st ->
  rsearch r pos (pre ++ s) = Some (pos + length pre, st).
Proof.
  induction pre as [|a pre IH]; intros pos Hno Hm.
  - simpl in *. rewrite Nat.add_0_r in *.
    destruct s; cbn [rsearch]; now rewrite Hm.
  - cbn [app rsearch].
    pose proof (Hno [] a pre eq_refl) as H0. simpl in H0.
    rewrite Nat.add_0_r in H0. rewrite H0.
    rewrite (IH (S pos)).
    + f_equal. f_equal. simpl. lia.
    + intros p1 c p2 E. subst pre.
      specialize (Hno (a :: p1) c p2 eq_refl). simpl in Hno.
      now rewrite Nat.add_succ_r in Hno.
    + simpl in Hm. now rewrite Nat.add_succ_r in Hm.
Qed.

Lemma rsearch_none r : forall s pos,
  (forall p1 p2, s = p1 ++ p2 -> match_at r (pos + length p1) p2 = None) ->
  rsearch r pos s = None.
Proof.
  induction s as [|a s IH]; intros pos Hno.
  - cbn [rsearch]. pose proof (Hno [] [] eq_refl) as H0. simpl in H0.
    rewrite Nat.add_0_r in H0. now rewrite H0.
  - cbn [rsearch]. pose proof (Hno [] (a :: s) eq_refl) as H0. simpl in H0.
    rewrite Nat.add_0_r in H0. rewrite H0.
    apply IH. intros p1 p2 E. subst s.
    specialize (Hno (a :: p1) p2 eq_refl). simpl in Hno.
    now rewrite Nat.add_succ_r in Hno.
Qed.

(** ** The code fences *)

Lemma space_not_backtick c : is_space c = true -> N.eqb c_backtick c = false.
Proof.
  intros H. destruct (N.eqb_spec c_backtick c) as [E|]; [| reflexivity].
  subst c. discriminate H.
Qed.

(** The opening patterns match at the start of a fenced text, and take the
    fence and all the white space after it. *)
Lemma open_fence_replace (tagged : bool) rest :
  regex_replace (if tagged then open_json_fence_regex else open_fence_regex) []
                (opening_fence tagged ++ rest)
  = trim_start rest.
Proof.
  unfold regex_replace.
  assert (H : exists n,
            match_at (if tagged then open_json_fence_regex else open_fence_regex)
                     0 (opening_fence tagged ++ rest)
            = Some (MState n (trim_start rest) [])).
  { unfold match_at.
    destruct tagged; unfold open_json_fence_regex, open_fence_regex, opening_fence.
    - change (re_seq [RBol; re_lit (fence ++ lit "json"); re_ws])
        with (RSeq RBol (RSeq (re_lit (fence ++ lit "json")) (RSeq re_ws REmpty))).
      rewrite rmatch_seq, rmatch_bol, rmatch_seq.
      rewrite (rmatch_lit (fence ++ lit "json")).
      rewrite rmatch_seq, rmatch_ws_run by (left; intros st; rewrite rmatch_empty; discriminate).
      rewrite rmatch_empty. eexists. reflexivity.
    - change (re_seq [RBol; re_lit fence; re_ws])
        with (RSeq RBol (RSeq (re_lit fence) (RSeq re_ws REmpty))).
      rewrite rmatch_seq, rmatch_bol, rmatch_seq.
      rewrite (rmatch_lit fence).
      rewrite rmatch_seq, rmatch_ws_run by (left; intros st; rewrite rmatch_empty; discriminate).
      rewrite rmatch_empty. eexists. reflexivity. }
  destruct H as (n & H).
  destruct (opening_fence tagged ++ rest) eqn:E; cbn [rsearch]; rewrite H;
    reflexivity.
Qed.

(** The closing pattern matches exactly a run of white space followed by a
    fence that ends the text. *)
Lemma close_fence_match pos ws :
  all_space ws ->
  match_at close_fence_regex pos (ws ++ fence)
  = Some (MState (pos + length ws + 3) [] []).
Proof.
  intros Hws. unfold match_at, close_fence_regex.
  change (re_seq [re_ws; re_lit fence; REol])
    with (RSeq re_ws (RSeq (re_lit fence) (RSeq REol REmpty))).
  rewrite rmatch_seq, rmatch_ws_run.
  - assert (Hs : span is_space (ws ++ fence) = (ws, fence)).
    { apply span_app; [exact Hws | reflexivity]. }
    rewrite <- span_space_trim_start, Hs. cbn [fst snd].
    rewrite rmatch_seq, (rmatch_lit_end fence).
    rewrite rmatch_seq, rmatch_eol, rmatch_empty. reflexivity.
  - right. intros p c r caps Hc.
    rewrite rmatch_seq.
    unfold fence, re_lit, re_seq, re_char. cbn [map fold_right].
    rewrite rmatch_seq. cbn [rmatch ms_rest].
    now rewrite (space_not_backtick _ Hc).
Qed.

Lemma close_fence_sound pos s st :
  match_at close_fence_regex pos s = Some st ->
  exists ws, all_space ws /\ s = ws ++ fence /\ ms_rest st = [].
Proof.
  intros H. apply match_at_sound in H. unfold close_fence_regex in H.
  apply matches_seq_inv in H. destruct H as (st1 & H1 & H).
  apply matches_seq_inv in H. destruct H as (st2 & H2 & H).
  apply matches_seq_inv in H. destruct H as (st3 & H3 & H).
  apply matches_seq_nil in H. subst st.
  apply matches_ws_inv in H1. destruct H1 as (ws & Hws & (E1 & _) & _).
  apply matches_lit_inv in H2. destruct H2 as ((E2 & _) & _).
  inversion H3; subst. simpl in E1.
  exists ws. split; [exact Hws |]. split; [| assumption].
  rewrite E1, E2. match goal with Hr : ms_rest _ = [] |- _ => rewrite Hr end.
  now rewrite app_nil_r.
Qed.

Lemma trim_end_length s : length (trim_end s) <= length s.
Proof.
  destruct (trim_end_split s) as (ws & _ & E).
  rewrite E at 2. rewrite length_app. lia.
Qed.

(** Removing the closing fence of a text that ends with one leaves what
    precedes the fence, without the white space before it. *)
Lemma close_fence_replace y :
  regex_replace close_fence_regex [] (y ++ fence) = trim_end y.
Proof.
  unfold regex_replace.
  destruct (trim_end_split y) as (ws & Hws & E).
  pose proof (trim_end_idem y) as Hi.
  remember (trim_end y) as t eqn:Et. clear Et.
  assert (Hr : rsearch close_fence_regex 0 (t ++ ws ++ fence)
               = Some (0 + length t,
                       MState (0 + length t + length ws + 3) [] [])).
  { apply rsearch_first; [| now apply close_fence_match].
    intros p1 c p2 Ey.
    destruct (match_at close_fence_regex (0 + length p1)
                (c :: p2 ++ ws ++ fence)) eqn:Em; [| reflexivity].
    exfalso. apply close_fence_sound in Em.
    destruct Em as (ws' & Hws' & Es & _).
    assert (Ec : (c :: p2) ++ ws = ws').
    { apply (app_inv_tail fence). rewrite <- Es, <- app_assoc. reflexivity. }
    assert (Hcp : all_space (c :: p2)).
    { unfold all_space in *. rewrite <- Ec in Hws'.
      now apply Forall_app in Hws'. }
    rewrite Ey in Hi.
    rewrite (@all_space_trim_end (c :: p2) p1 Hcp) in Hi.
    pose proof (trim_end_length p1) as Hl. rewrite Hi in Hl.
    rewrite length_app in Hl. simpl in Hl. lia. }
  rewrite E, <- app_assoc, Hr. cbn [ms_rest Nat.add].
  rewrite firstn_app, firstn_all, Nat.sub_diag. simpl. now rewrite !app_nil_r.
Qed.

Lemma close_fence_absent x :
  ~ ends_with_fence x -> regex_replace close_fence_regex [] x = x.
Proof.
  intros Hx. unfold regex_replace. rewrite rsearch_none; [reflexivity |].
  intros p1 p2 E.
  destruct (match_at close_fence_regex (0 + length p1) p2) eqn:Em; [| reflexivity].
  exfalso. apply Hx. apply close_fence_sound in Em.
  destruct Em as (ws & _ & Es & _). exists (p1 ++ ws).
  now rewrite E, Es, app_assoc.
Qed.

Lemma starts_with_prefix a b : forall s,
  starts_with (a ++ b) s = true -> starts_with a s = true.
Proof.
  induction a as [|x a IH]; intros s H; [reflexivity |].
  destruct s as [|y s]; [discriminate H |]. simpl in *.
  apply andb_true_iff in H. destruct H as [H1 H2].
  now rewrite H1, (IH _ H2).
Qed.

Lemma starts_with_trim_end k s :
  starts_with k (trim_end s) = true -> starts_with k s = true.
Proof.
  intros H. destruct (trim_end_prefix s) as (ws & E). rewrite E.
  now apply starts_with_app_l.
Qed.

Lemma trim_opening (tagged : bool) ws1 rest :
  all_space ws1 ->
  trim (ws1 ++ opening_fence tagged ++ rest) = opening_fence tagged ++ trim_end rest.
Proof.
  intros H1. unfold trim. rewrite (@all_space_trim_start ws1 _ H1).
  destruct tagged.
  - change (opening_fence true ++ rest)
      with (c_backtick :: (lit "``jso" ++ 110%N :: rest)).
    rewrite (@trim_start_nonspace c_backtick _ eq_refl).
    change (c_backtick :: lit "``jso" ++ 110%N :: rest)
      with (lit "```jso" ++ 110%N :: rest).
    now rewrite (@trim_end_app (lit "```jso") 110%N rest eq_refl).
  - change (opening_fence false ++ rest)
      with (c_backtick :: (lit "`" ++ c_backtick :: rest)).
    rewrite (@trim_start_nonspace c_backtick _ eq_refl).
    change (c_backtick :: lit "`" ++ c_backtick :: rest)
      with (lit "``" ++ c_backtick :: rest).
    now rewrite (@trim_end_app (lit "``") c_backtick rest eq_refl).
Qed.

(** Stripping a text that opens with a fence: the fence, its tag and the
    white space around are removed, then the closing pattern is applied to
    what is left. *)
Lemma strip_fences_opening (tagged : bool) ws1 rest :
  all_space ws1 ->
  (tagged = false -> starts_with (lit "json") rest = false) ->
  strip_fences (ws1 ++ opening_fence tagged ++ rest)
  = regex_replace close_fence_regex [] (trim rest).
Proof.
  intros H1 Hj. unfold strip_fences. rewrite (@trim_opening tagged ws1 rest H1).
  destruct tagged.
  - unfold opening_fence at 1. rewrite starts_with_app.
    rewrite (open_fence_replace true). now rewrite trim_start_trim_end.
  - assert (E : starts_with (fence ++ lit "json") (opening_fence false ++ trim_end rest)
                = false).
    { change (starts_with (fence ++ lit "json") (opening_fence false ++ trim_end rest))
        with (starts_with (lit "json") (trim_end rest)).
      destruct (starts_with (lit "json") (trim_end rest)) eqn:E; [| reflexivity].
      apply starts_with_trim_end in E. rewrite (Hj eq_refl) in E. discriminate. }
    rewrite E. unfold opening_fence at 1. rewrite starts_with_app.
    rewrite (open_fence_replace false). now rewrite trim_start_trim_end.
Qed.

(** X7. Fence stripping, for a text that opens with a code fence (tagged
    json or not, after optional white space): the fence, the tag and the
    white space around them are removed; when what is left (trimmed) ends
    with a fence, that fence and the white space before it are removed too,
    and otherwise nothing more is removed. *)
Theorem strip_fences_fenced_text (tagged : bool) (ws1 rest : jstring) :
  all_space ws1 ->
  (tagged = false -> starts_with (lit "json") rest = false) ->
  (forall y, trim rest = y ++ fence ->
             strip_fences (ws1 ++ opening_fence tagged ++ rest) = trim_end y)
  /\ (~ ends_with_fence (trim rest) ->
      strip_fences (ws1 ++ opening_fence tagged ++ rest) = trim rest).
Proof.
  intros H1 Hj. rewrite (@strip_fences_opening tagged ws1 rest H1 Hj). split.
  - intros y ->. apply close_fence_replace.
  - apply close_fence_absent.
Qed.

Lemma strip_fences_fenced_text_witness :
  all_space (lit " ")
  /\ strip_fences (lit " " ++ opening_fence true ++ 10%N :: lit "{} ```  ")
     = lit "{}".
Proof.
  split; [repeat constructor |].
  apply (proj1 (@strip_fences_fenced_text true (lit " ") (10%N :: lit "{} ```  ")
                  ltac:(repeat constructor) ltac:(discriminate))
               (lit "{} ")).
  reflexivity.
Defined.

Lemma strip_fences_plain t :
  starts_with fence (trim t) = false -> strip_fences t = trim t.
Proof.
  intros H. unfold strip_fences. rewrite H.
  destruct (starts_with (fence ++ lit "json") (trim t)) eqn:E; [| reflexivity].
  apply starts_with_prefix in E. rewrite E in H. discriminate.
Qed.

(** A text inside a fenced block is what stripping leaves, trimmed. *)
Lemma strip_fences_fenced (tagged : bool) ws1 ws2 body ws3 ws4 :
  all_space ws1 -> all_space ws2 -> all_space ws3 -> all_space ws4 ->
  (tagged = false ->
   starts_with (lit "json") (ws2 ++ body ++ ws3 ++ fence ++ ws4) = false) ->
  strip_fences (fenced tagged ws1 ws2 body ws3 ws4) = trim body.
Proof.
  intros H1 H2 H3 H4 Hj. unfold fenced.
  rewrite (@strip_fences_opening tagged ws1 _ H1 Hj).
  replace (ws2 ++ body ++ ws3 ++ fence ++ ws4)
    with (ws2 ++ (body ++ ws3 ++ fence) ++ ws4)
    by (now rewrite <- !app_assoc).
  rewrite (@trim_around ws2 (body ++ ws3 ++ fence) ws4 H2 H4).
  rewrite <- trim_start_trim_end.
  replace (body ++ ws3 ++ fence)
    with ((body ++ ws3 ++ lit "``") ++ c_backtick :: [])
    by (now rewrite <- !app_assoc).
  rewrite (@trim_end_app (body ++ ws3 ++ lit "``") c_backtick [] eq_refl).
  change (trim_end []) with (@nil N).
  replace ((body ++ ws3 ++ lit "``") ++ [c_backtick])
    with ((body ++ ws3) ++ c_backtick :: lit "``")
    by (now rewrite <- !app_assoc).
  rewrite (@trim_start_app (body ++ ws3) c_backtick (lit "``") eq_refl).
  change (c_backtick :: lit "``") with fence.
  rewrite close_fence_replace.
  change (trim_end (trim_start (body ++ ws3))) with (trim (body ++ ws3)).
  exact (@trim_around [] body ws3 ltac:(constructor) H3).
Qed.

(** ** Well-formed documents *)

Lemma parse_value_skip_ws ws s f :
  all_json_ws ws -> parse_value f (ws ++ s) = parse_value f s.
Proof.
  intros H. destruct f as [|f]; [reflexivity |].
  simpl. now rewrite (@skip_ws_app ws s H).
Qed.

Lemma braced_text ws x w0 :
  w0 ++ [125%N] = ws ++ 123%N :: x -> exists p, 123%N :: x = (123%N :: p) ++ [125%N].
Proof.
  intros E. destruct (@exists_last _ (123%N :: x) ltac:(discriminate))
    as (x0 & l & El).
  rewrite El, app_assoc in E. apply app_inj_tail in E. destruct E as [_ <-].
  destruct x0 as [|a x0].
  - destruct x; discriminate El.
  - injection El as <- El. exists x0. now rewrite El.
Qed.

(** A text that reads as an object starts with a brace once trimmed, and
    trimming does not change how it is parsed. *)
Lemma trim_object_text t v :
  JSON_parse t = Some v -> is_object v = true ->
  exists x, trim t = 123%N :: x /\ JSON_parse (123%N :: x) = Some v.
Proof.
  intros Hp Ho.
  destruct (@object_text_reads t v (conj Hp Ho))
    as (w0 & r & Et & Wr & (ws & x & Eh & Wh) & Hread).
  destruct (@braced_text ws x w0 Eh) as (p & Ex).
  exists x. split.
  - rewrite Et. change (w0 ++ 125%N :: r) with (w0 ++ [125%N] ++ r).
    rewrite app_assoc, Eh, <- app_assoc.
    rewrite (@trim_around ws (123%N :: x) r
               (all_json_ws_space Wh) (all_json_ws_space Wr)).
    rewrite Ex. rewrite (trim_braced p []). reflexivity.
  - unfold JSON_parse.
    specialize (Hread (2 * length (ws ++ 123%N :: x) + 2) []).
    rewrite app_nil_r, Eh in Hread.
    rewrite (@parse_value_skip_ws ws (123%N :: x) _ Wh) in Hread by lia.
    rewrite (@parse_value_enough (2 * length (123%N :: x) + 2)
               (2 * length (ws ++ 123%N :: x) + 2) (123%N :: x))
      by (rewrite ?length_app; lia).
    rewrite Hread by lia. reflexivity.
Qed.

Lemma JSON_parse_trim_object t v :
  JSON_parse t = Some v -> is_object v = true -> JSON_parse (trim t) = Some v.
Proof.
  intros Hp Ho. destruct (@trim_object_text t v Hp Ho) as (x & -> & H). exact H.
Qed.

Lemma has_segments_array_object v : has_segments_array v = true -> is_object v = true.
Proof.
  intros H. destruct (@tier_success_shape v H) as (ms & items & -> & _).
  reflexivity.
Qed.

Lemma tryRepairJson_parsed t v :
  JSON_parse t = Some v -> has_segments_array v = true ->
  tryRepairJson t = Returns v.
Proof.
  intros Hp Hs. unfold tryRepairJson, tier1.
  rewrite (@JSON_parse_trim_object t v Hp (@has_segments_array_object v Hs)).
  now rewrite Hs.
Qed.

(** X10. A text that [JSON.parse] accepts as a value with a segments array
    is returned as parsed, whatever white space surrounds it: the trimming
    done first does not change the parse, and no repair is attempted. *)
Theorem tryRepairJson_well_formed (t : jstring) (v : json) :
  JSON_parse t = Some v ->
  has_segments_array v = true ->
  tryRepairJson t = Returns v.
Proof.
  intros Hp Hs.
  destruct (@trim_object_text t v Hp (@has_segments_array_object v Hs))
    as (x & Et & Ex).
  unfold tryRepairJson, tier1. rewrite Et, Ex, Hs. reflexivity.
Qed.

Lemma tryRepairJson_well_formed_witness :
  tryRepairJson (lit "  " ++ unordered_doc ++ [10%N])
  = Returns (segments_object unordered_objects).
Proof.
  apply tryRepairJson_well_formed; reflexivity.
Defined.

(** ** Fenced responses *)

Lemma tryRepairJson_trim t : tryRepairJson (trim t) = tryRepairJson t.
Proof. unfold tryRepairJson. now rewrite trim_idem. Qed.

Lemma fenced_nonempty (tagged : bool) ws1 ws2 body ws3 ws4 :
  exists c r, fenced tagged ws1 ws2 body ws3 ws4 = c :: r.
Proof.
  unfold fenced. destruct ws1 as [|c ws1]; [| simpl; eexists; eexists; reflexivity].
  destruct tagged; eexists; eexists; reflexivity.
Qed.

(** X8. A response whose text is wrapped in a fenced code block (tagged json
    or not, with optional white space around the fences) is processed
    exactly like the response holding the unwrapped text. *)
Theorem transcribe_response_fenced
    (tagged : bool) (ws1 ws2 body ws3 ws4 : jstring) :
  all_space ws1 -> all_space ws2 -> all_space ws3 -> all_space ws4 ->
  body <> [] ->
  starts_with fence (trim body) = false ->
  (tagged = false ->
   starts_with (lit "json") (ws2 ++ body ++ ws3 ++ fence ++ ws4) = false) ->
  transcribe_response (Response (Some (fenced tagged ws1 ws2 body ws3 ws4)))
  = transcribe_response (Response (Some body)).
Proof.
  intros H1 H2 H3 H4 Hne Hb Hj.
  pose proof (@strip_fences_fenced tagged ws1 ws2 body ws3 ws4 H1 H2 H3 H4 Hj)
    as Ef.
  destruct (fenced_nonempty tagged ws1 ws2 body ws3 ws4) as (c & r & Ec).
  rewrite Ec in *. destruct body as [|b body]; [now elim Hne |].
  unfold transcribe_response. cbn [resp_text].
  rewrite Ef, (@strip_fences_plain _ Hb), tryRepairJson_trim.
  reflexivity.
Qed.

Lemma transcribe_response_fenced_witness :
  transcribe_response
    (Response (Some (fenced true [] [10%N] unordered_doc [10%N] [])))
  = transcribe_response (Response (Some unordered_doc)).
Proof.
  apply transcribe_response_fenced;
    try (repeat constructor); try discriminate; reflexivity.
Defined.

(** X9. The same for the translation client: a fenced response gives what
    the unwrapped text gives. *)
Theorem translateSegments_fenced
    (tagged : bool) (ws1 ws2 body ws3 ws4 : jstring) :
  all_space ws1 -> all_space ws2 -> all_space ws3 -> all_space ws4 ->
  body <> [] ->
  starts_with fence (trim body) = false ->
  (tagged = false ->
   starts_with (lit "json") (ws2 ++ body ++ ws3 ++ fence ++ ws4) = false) ->
  translateSegments (Response (Some (fenced tagged ws1 ws2 body ws3 ws4)))
  = translateSegments (Response (Some body)).
Proof.
  intros H1 H2 H3 H4 Hne Hb Hj.
  pose proof (@strip_fences_fenced tagged ws1 ws2 body ws3 ws4 H1 H2 H3 H4 Hj)
    as Ef.
  destruct (fenced_nonempty tagged ws1 ws2 body ws3 ws4) as (c & r & Ec).
  rewrite Ec in *. destruct body as [|b body]; [now elim Hne |].
  unfold translateSegments. cbn [resp_text].
  rewrite Ef, (@strip_fences_plain _ Hb). reflexivity.
Qed.

Lemma translateSegments_fenced_witness :
  translateSegments
    (Response (Some (fenced false [] [10%N] loose_translation_text [] [])))
  = Returns (JArr loose_translation_segments).
Proof.
  rewrite translateSegments_fenced;
    try (repeat constructor); try discriminate; reflexivity.
Defined.

(** ** The guard of the raw-seconds branch *)

Lemma rmatch_star_class p k s pos caps :
  (forall st, k st <> None)
  \/ (forall pos c r caps, p c = true -> k (MState pos (c :: r) caps) = None) ->
  rmatch (RStar (RChar p)) (MState pos s caps) k
  = k (MState (pos + length (fst (span p s))) (snd (span p s)) caps).
Proof.
  intros Hk. apply (@star_class_run p k Hk s (S (length s)) pos caps). lia.
Qed.

Lemma rmatch_plus_class p k c s pos caps :
  p c = true ->
  (forall pos c r caps, p c = true -> k (MState pos (c :: r) caps) = None) ->
  rmatch (RPlus (RChar p)) (MState pos (c :: s) caps) k
  = k (MState (S pos + length (fst (span p s))) (snd (span p s)) caps).
Proof.
  intros Hc Hk. unfold RPlus. rewrite rmatch_seq.
  change (rmatch (RChar p) (MState pos (c :: s) caps)
            (fun st1 => rmatch (RStar (RChar p)) st1 k))
    with (if p c then rmatch (RStar (RChar p)) (MState (S pos) s caps) k
          else None).
  rewrite Hc. apply rmatch_star_class. now right.
Qed.

Lemma digit_not_period c : is_digit c = true -> N.eqb 46 c = false.
Proof.
  intros H. destruct (N.eqb_spec 46 c) as [E|]; [| reflexivity].
  subst c. discriminate H.
Qed.

Lemma span_all (p : jchar -> bool) s :
  Forall (fun c => p c = true) s -> span p s = (s, []).
Proof.
  intros H. rewrite <- (app_nil_r s) at 1. now apply span_app.
Qed.

(** The pattern of the guard accepts every decimal numeral. *)
Lemma decimal_regex_complete s :
  decimal_text s -> match_at decimal_regex 0 s <> None.
Proof.
  intros (ip & fp & Hne & Hip & Hfp & Hs).
  destruct ip as [|c ip]; [now elim Hne |].
  inversion Hip as [|? ? Hc Hip']; subst.
  unfold match_at, decimal_regex.
  change (re_seq [RBol; RPlus (RChar is_digit);
                  ROpt (RGroup 1 (RSeq (re_char 46) (RPlus (RChar is_digit))));
                  REol])
    with (RSeq RBol
            (RSeq (RPlus (RChar is_digit))
               (RSeq (ROpt (RGroup 1 (RSeq (re_char 46)
                                           (RPlus (RChar is_digit)))))
                     (RSeq REol REmpty)))).
  rewrite rmatch_seq.
  assert (Hk : forall (k : mstate -> option mstate) pos c r caps,
             is_digit c = true ->
             rmatch (RSeq (ROpt (RGroup 1 (RSeq (re_char 46)
                                                (RPlus (RChar is_digit)))))
                          (RSeq REol REmpty))
                    (MState pos (c :: r) caps) k = None).
  { intros k pos c0 r caps Hd. cbn [rmatch ROpt re_char ms_rest].
    now rewrite (@digit_not_period c0 Hd). }
  destruct Hs as [-> | (Hfne & ->)].
  - rewrite rmatch_bol, rmatch_seq.
    rewrite rmatch_plus_class; [| exact Hc | intros; now apply Hk].
    rewrite (@span_all is_digit ip Hip'). cbn. discriminate.
  - destruct fp as [|d fp]; [now elim Hfne |].
    inversion Hfp as [|? ? Hd Hfp']; subst.
    change ((c :: ip) ++ lit "." ++ d :: fp) with (c :: ip ++ 46%N :: d :: fp).
    rewrite rmatch_bol, rmatch_seq.
    rewrite rmatch_plus_class; [| exact Hc | intros; now apply Hk].
    rewrite (@span_app is_digit ip (46%N :: d :: fp) Hip' eq_refl).
    cbn [fst snd]. rewrite rmatch_seq. unfold ROpt.
    change (rmatch (RAlt ?a ?b) ?st ?k)
      with (or_else (rmatch a st k) (rmatch b st k)).
    match goal with
    | |- or_else ?x _ <> None =>
        assert (Hx : x <> None); [| destruct x; [discriminate | now elim Hx]]
    end.
    change (rmatch (RGroup 1 ?r) ?st ?k)
      with (rmatch r st (fun st1 => k (set_cap 1 st st1))).
    rewrite rmatch_seq. unfold re_char at 1.
    cbn [rmatch ms_rest ms_pos ms_caps N.eqb Pos.eqb].
    rewrite rmatch_plus_class; [| exact Hd |].
    + rewrite (@span_all is_digit fp Hfp'). cbn. discriminate.
    + intros. reflexivity.
Qed.

(** Conversely, the pattern accepts nothing else. *)
Lemma decimal_regex_sound s :
  regex_test decimal_regex s = true -> decimal_text s.
Proof.
  unfold regex_test. destruct (rsearch decimal_regex 0 s) as [[start st]|] eqn:E;
    [intros _ | discriminate].
  apply rsearch_found in E. destruct E as (pre & s' & -> & -> & Hm).
  apply match_at_sound in Hm. unfold decimal_regex in Hm.
  apply matches_seq_inv in Hm. destruct Hm as (st1 & Hb & Hm).
  apply matches_seq_inv in Hm. destruct Hm as (st2 & Hp & Hm).
  apply matches_seq_inv in Hm. destruct Hm as (st3 & Ho & Hm).
  apply matches_seq_inv in Hm. destruct Hm as (st4 & He & Hm).
  apply matches_seq_nil in Hm. subst st.
  inversion Hb as [| | | | | | | |? Hpos|]; subst. simpl in Hpos.
  destruct pre; [| discriminate Hpos]. simpl in *.
  apply matches_plus_class_inv in Hp.
  destruct Hp as (w & Hw & Hfw & (Ew & _) & _). simpl in Ew.
  inversion He as [| | | | | | | | |? Hend]; subst.
  apply matches_alt_inv in Ho. destruct Ho as [Ho | Ho].
  - apply matches_group_inv in Ho. destruct Ho as (sg & Hg & ->).
    inversion Hg as [| |? ? ? sd ? Hdot Hfr| | | | | | |]; subst.
    apply matches_char_inv in Hdot. destruct Hdot as ((Ed & _) & _).
    apply matches_plus_class_inv in Hfr.
    destruct Hfr as (w2 & Hw2 & Hfw2 & (Ew2 & _) & _).
    simpl in Hend. rewrite Hend, app_nil_r in Ew2.
    exists w, w2. repeat (split; [assumption |]).
    right. split; [assumption |]. rewrite Ed, Ew2. reflexivity.
  - inversion Ho; subst. simpl in Hend.
    exists w, []. repeat (split; [assumption || constructor |]).
    left. rewrite Hend. apply app_nil_r.
Qed.

Lemma decimal_text_no_colon s : decimal_text s -> includes_char 58 s = false.
Proof.
  intros (ip & fp & _ & Hip & Hfp & Hs).
  unfold includes_char.
  assert (Hd : forall w, all_digits w -> existsb (N.eqb 58) w = false).
  { induction 1 as [|c w Hc _ IH]; [reflexivity |]. cbn [existsb].
    rewrite IH, orb_false_r.
    destruct (N.eqb_spec 58 c) as [E|]; [| reflexivity].
    subst c. discriminate Hc. }
  destruct Hs as [-> | (_ & ->)]; [now apply Hd |].
  rewrite !existsb_app, (Hd _ Hip), (Hd _ Hfp). reflexivity.
Qed.

Lemma regex_test_match r s :
  match_at r 0 s <> None -> regex_test r s = true.
Proof.
  intros H. unfold regex_test.
  destruct s; cbn [rsearch]; destruct (match_at r 0 _); try reflexivity;
    now elim H.
Qed.

Lemma raw_seconds_guard_iff ts :
  is_raw_seconds ts = true <-> decimal_text (trim ts).
Proof.
  unfold is_raw_seconds. split.
  - intros H. apply andb_true_iff in H. now apply decimal_regex_sound.
  - intros H.
    rewrite (@regex_test_match decimal_regex (trim ts)
               (@decimal_regex_complete (trim ts) H)).
    now rewrite (@decimal_text_no_colon (trim ts) H).
Qed.

(** X2. The raw-seconds branch is taken exactly for the texts that, once
    trimmed, are a decimal numeral: digits, alone or followed by a period
    and digits.  (Such a text holds no colon, so that the second test of
    the guard never decides.) *)
Theorem raw_seconds_guard (ts : jstring) :
  (is_raw_seconds ts = true <-> decimal_text (trim ts))
  /\ (regex_test decimal_regex (trim ts) = true ->
      includes_char 58 (trim ts) = false).
Proof.
  split; [apply raw_seconds_guard_iff |].
  intros H. apply decimal_text_no_colon. now apply decimal_regex_sound.
Qed.

(** ** The component branch, form by form *)

Lemma space_not_timestamp_char c : is_space c = true -> is_timestamp_char c = false.
Proof.
  intros H. destruct (is_timestamp_char c) eqn:E; [| reflexivity].
  unfold is_timestamp_char in E.
  apply orb_true_iff in E. destruct E as [E|E].
  - apply orb_true_iff in E. destruct E as [E|E].
    + rewrite (@digit_not_space c E) in H. discriminate.
    + apply N.eqb_eq in E. subst c. discriminate.
  - apply N.eqb_eq in E. subst c. discriminate.
Qed.

Lemma remove_class_spaces ws :
  all_space ws -> remove_class (fun c => negb (is_timestamp_char c)) ws = [].
Proof.
  unfold remove_class. induction 1 as [|c ws Hc _ IH]; [reflexivity |].
  simpl. now rewrite (@space_not_timestamp_char c Hc).
Qed.

(** Cleaning removes the white space that trimming removes. *)
Lemma remove_class_trim s :
  remove_class (fun c => negb (is_timestamp_char c)) (trim s)
  = remove_class (fun c => negb (is_timestamp_char c)) s.
Proof.
  destruct (trim_start_split s) as (ws & Hws & E).
  destruct (trim_end_split (trim_start s)) as (ws' & Hws' & E').
  fold (trim s) in E'. rewrite E at 2. rewrite E'.
  unfold remove_class. rewrite !filter_app.
  fold (remove_class (fun c => negb (is_timestamp_char c)) ws).
  fold (remove_class (fun c => negb (is_timestamp_char c)) ws').
  rewrite (@remove_class_spaces ws Hws), (@remove_class_spaces ws' Hws').
  now rewrite app_nil_r.
Qed.

Lemma remove_class_clean s :
  Forall (fun c => is_timestamp_char c = true) s ->
  remove_class (fun c => negb (is_timestamp_char c)) s = s.
Proof.
  unfold remove_class. induction 1 as [|c s Hc _ IH]; [reflexivity |].
  simpl. rewrite Hc. simpl. now rewrite IH.
Qed.

Lemma previous_unfold ts :
  Previous.normalizeTimestamp ts
  = let clean := remove_class (fun c => negb (is_timestamp_char c)) ts in
    let '(hh, mm, ss, mmm) :=
      match split_class is_separator clean with
      | c0 :: c1 :: c2 :: c3 :: _ => (c0, c1, c2, c3)
      | [c0; c1; c2] =>
          if Nat.eqb (length c2) 3
          then (lit "00", c0, c1, c2)
          else (c0, c1, c2, lit "000")
      | [c0; c1] => (lit "00", c0, c1, lit "000")
      | [c0] => (lit "00", lit "00", c0, lit "000")
      | [] => (lit "00", lit "00", lit "00", lit "000")
      end in
    timestamp (fmt2 hh) (fmt2 mm) (fmt2 ss) (fmt3 mmm).
Proof. destruct ts; reflexivity. Qed.

Lemma normalizeTimestamp_previous ts :
  is_raw_seconds ts = false -> normalizeTimestamp ts = Previous.normalizeTimestamp ts.
Proof.
  intros H. rewrite previous_unfold. destruct ts as [|c ts]; [reflexivity |].
  unfold normalizeTimestamp. unfold is_raw_seconds in H. rewrite H.
  rewrite remove_class_trim. reflexivity.
Qed.

Lemma split_digits a :
  all_digits a -> split_class is_separator a = [a].
Proof.
  induction 1 as [|c a Hc _ IH]; [reflexivity |].
  simpl. now rewrite (@digit_not_separator c Hc), IH.
Qed.

Lemma split_component a s r :
  all_digits a -> is_separator s = true ->
  split_class is_separator (a ++ s :: r) = a :: split_class is_separator r.
Proof.
  intros Ha Hs. induction Ha as [|c a Hc _ IH].
  - simpl. now rewrite Hs.
  - simpl. now rewrite (@digit_not_separator c Hc), IH.
Qed.

Lemma digits_timestamp_chars a :
  all_digits a -> Forall (fun c => is_timestamp_char c = true) a.
Proof.
  intros H. eapply Forall_impl; [| exact H]. apply digit_is_timestamp_char.
Qed.

Lemma separator_timestamp_char s : is_separator s = true -> is_timestamp_char s = true.
Proof.
  unfold is_separator, is_timestamp_char. intros H.
  apply orb_true_iff in H. destruct H as [-> | ->];
    rewrite ?orb_true_r; reflexivity.
Qed.

Lemma fmt3_exact c : length c = 3 -> fmt3 c = c.
Proof.
  intros H. do 4 (destruct c as [|? c]; try discriminate H). reflexivity.
Qed.

(** The previous normaliser on two, three and four or more components. *)
Lemma previous_two a s1 b :
  all_digits a -> all_digits b -> is_separator s1 = true ->
  Previous.normalizeTimestamp (a ++ s1 :: b)
  = timestamp (lit "00") (fmt2 a) (fmt2 b) (lit "000").
Proof.
  intros Ha Hb H1. rewrite previous_unfold. cbv zeta.
  rewrite remove_class_clean.
  - rewrite (@split_component a s1 b Ha H1), (@split_digits b Hb). reflexivity.
  - apply Forall_app. split; [now apply digits_timestamp_chars |].
    constructor; [now apply separator_timestamp_char |].
    now apply digits_timestamp_chars.
Qed.

Lemma previous_three a s1 b s2 c :
  all_digits a -> all_digits b -> all_digits c ->
  is_separator s1 = true -> is_separator s2 = true ->
  Previous.normalizeTimestamp (a ++ s1 :: b ++ s2 :: c)
  = if Nat.eqb (length c) 3
    then timestamp (lit "00") (fmt2 a) (fmt2 b) c
    else timestamp (fmt2 a) (fmt2 b) (fmt2 c) (lit "000").
Proof.
  intros Ha Hb Hc H1 H2. rewrite previous_unfold. cbv zeta.
  rewrite remove_class_clean.
  - rewrite (@split_component a s1 _ Ha H1), (@split_component b s2 _ Hb H2),
      (@split_digits c Hc).
    destruct (Nat.eqb (length c) 3) eqn:E; [| reflexivity].
    apply Nat.eqb_eq in E. now rewrite (@fmt3_exact c E).
  - repeat (apply Forall_app; split; [now apply digits_timestamp_chars |];
            constructor; [now apply separator_timestamp_char |]).
    now apply digits_timestamp_chars.
Qed.

Lemma split_nonempty cls s : split_class cls s <> [].
Proof.
  induction s as [|c s IH]; simpl; [discriminate |].
  destruct (cls c); [discriminate |].
  destruct (split_class cls s); discriminate.
Qed.

Lemma split_component_clean a s r :
  all_digits a -> is_separator s = true ->
  split_class is_separator
    (remove_class (fun c => negb (is_timestamp_char c)) (a ++ s :: r))
  = a :: split_class is_separator
           (remove_class (fun c => negb (is_timestamp_char c)) r).
Proof.
  intros Ha Hs. unfold remove_class. rewrite filter_app.
  fold (remove_class (fun c => negb (is_timestamp_char c)) a).
  rewrite (@remove_class_clean a (@digits_timestamp_chars a Ha)).
  simpl. rewrite (@separator_timestamp_char s Hs). simpl.
  now apply split_component.
Qed.

Lemma previous_four a s1 b s2 c s3 more :
  all_digits a -> all_digits b -> all_digits c ->
  is_separator s1 = true -> is_separator s2 = true -> is_separator s3 = true ->
  Previous.normalizeTimestamp (a ++ s1 :: b ++ s2 :: c ++ s3 :: more)
  = match split_class is_separator
            (remove_class (fun c => negb (is_timestamp_char c)) more) with
    | d :: _ => timestamp (fmt2 a) (fmt2 b) (fmt2 c) (fmt3 d)
    | [] => []
    end.
Proof.
  intros Ha Hb Hc H1 H2 H3. rewrite previous_unfold. cbv zeta.
  rewrite (@split_component_clean a s1 _ Ha H1),
    (@split_component_clean b s2 _ Hb H2),
    (@split_component_clean c s3 _ Hc H3).
  destruct (split_class is_separator _) as [|d l] eqn:E; [| reflexivity].
  now apply split_nonempty in E.
Qed.

Lemma trim_nonspace s : Forall (fun c => is_space c = false) s -> trim s = s.
Proof.
  intros H. unfold trim.
  rewrite (@trim_start_fixed s) by (destruct H; [exact I | assumption]).
  unfold trim_end.
  rewrite (@trim_start_fixed (rev s)).
  - apply rev_involutive.
  - apply Forall_rev in H. destruct H; [exact I | assumption].
Qed.

Lemma In_trim c s : In c (trim s) -> In c s.
Proof.
  intros H. destruct (trim_start_split s) as (ws & _ & E).
  destruct (trim_end_split (trim_start s)) as (ws' & _ & E').
  fold (trim s) in E'. rewrite E, E'.
  apply in_or_app. right. apply in_or_app. now left.
Qed.

Lemma colon_after_digits_not_raw a rest :
  all_digits a -> is_raw_seconds (a ++ 58%N :: rest) = false.
Proof.
  intros Ha. destruct (is_raw_seconds (a ++ 58%N :: rest)) eqn:E; [| reflexivity].
  exfalso. unfold is_raw_seconds in E. apply andb_true_iff in E.
  destruct E as [_ E]. apply negb_true_iff in E.
  assert (Ht : trim (a ++ 58%N :: rest) = a ++ 58%N :: trim_end rest).
  { unfold trim. rewrite trim_start_fixed.
    - now apply trim_end_app.
    - destruct Ha as [|c a Hc _]; [reflexivity |]. simpl.
      now apply digit_not_space. }
  rewrite Ht in E. unfold includes_char in E. rewrite existsb_app in E.
  simpl in E. rewrite orb_true_r in E. discriminate.
Qed.

(** X4. How the component branch reads a text that begins with digits and a
    colon: two components are minutes and seconds; three are minutes,
    seconds and milliseconds when the third has exactly three digits, and
    hours, minutes and seconds otherwise; of four or more, the first four
    are hours, minutes, seconds and milliseconds and the others are
    ignored.  Every field is padded or cut to its width. *)
Theorem normalizeTimestamp_component_forms
    (a b c d : jstring) (s2 s3 : jchar) :
  all_digits a -> all_digits b -> all_digits c -> all_digits d ->
  is_separator s2 = true -> is_separator s3 = true ->
  normalizeTimestamp (a ++ lit ":" ++ b)
  = timestamp (lit "00") (fmt2 a) (fmt2 b) (lit "000")
  /\ normalizeTimestamp (a ++ lit ":" ++ b ++ s2 :: c)
     = (if Nat.eqb (length c) 3
        then timestamp (lit "00") (fmt2 a) (fmt2 b) c
        else timestamp (fmt2 a) (fmt2 b) (fmt2 c) (lit "000"))
  /\ (forall more,
         more = [] \/ (exists s4 r, is_separator s4 = true /\ more = s4 :: r) ->
         normalizeTimestamp (a ++ lit ":" ++ b ++ s2 :: c ++ s3 :: d ++ more)
         = timestamp (fmt2 a) (fmt2 b) (fmt2 c) (fmt3 d)).
Proof.
  intros Ha Hb Hc Hd H2 H3.
  change (lit ":") with [58%N]. cbn [app].
  split; [| split].
  - rewrite (normalizeTimestamp_previous _ (@colon_after_digits_not_raw a _ Ha)).
    now apply previous_two.
  - rewrite (normalizeTimestamp_previous _ (@colon_after_digits_not_raw a _ Ha)).
    now apply previous_three.
  - intros more Hm.
    rewrite (normalizeTimestamp_previous _ (@colon_after_digits_not_raw a _ Ha)).
    rewrite previous_four by (assumption || reflexivity).
    destruct Hm as [-> | (s4 & r & H4 & ->)].
    + rewrite app_nil_r.
      rewrite (@remove_class_clean d (@digits_timestamp_chars d Hd)).
      now rewrite (@split_digits d Hd).
    + now rewrite (@split_component_clean d s4 r Hd H4).
Qed.

Lemma normalizeTimestamp_component_forms_witness :
  normalizeTimestamp (lit "5:30") = lit "00:05:30.000"
  /\ normalizeTimestamp (lit "02:15.500") = lit "00:02:15.500"
  /\ normalizeTimestamp (lit "1:02:03.4567:89 pm") = lit "01:02:03.456".
Proof.
  assert (D : forall s, forallb is_digit s = true -> all_digits s).
  { intros s H. apply Forall_forall. intros x Hx.
    exact (proj1 (forallb_forall is_digit s) H x Hx). }
  pose proof (@normalizeTimestamp_component_forms
                (lit "5") (lit "30") [] [] 46%N 46%N
                (D (lit "5") eq_refl) (D (lit "30") eq_refl)
                (D [] eq_refl) (D [] eq_refl)
                eq_refl eq_refl) as (F1 & _ & _).
  pose proof (@normalizeTimestamp_component_forms
                (lit "02") (lit "15") (lit "500") [] 46%N 46%N
                (D (lit "02") eq_refl) (D (lit "15") eq_refl)
                (D (lit "500") eq_refl) (D [] eq_refl)
                eq_refl eq_refl) as (_ & F2 & _).
  pose proof (@normalizeTimestamp_component_forms
                (lit "1") (lit "02") (lit "03") (lit "4567") 58%N 46%N
                (D (lit "1") eq_refl) (D (lit "02") eq_refl)
                (D (lit "03") eq_refl) (D (lit "4567") eq_refl)
                eq_refl eq_refl) as (_ & _ & F3).
  split; [exact F1 | split; [exact F2 |]].
  apply (F3 (lit ":89 pm")). right. exists 58%N, (lit "89 pm"). now split.
Defined.

Lemma canonical_shape s :
  is_canonical s = true ->
  exists a b c d,
    s = a ++ 58%N :: b ++ 58%N :: c ++ 46%N :: d
    /\ all_digits a /\ all_digits b /\ all_digits c /\ all_digits d
    /\ length a = 2 /\ length b = 2 /\ length c = 2 /\ length d = 3.
Proof.
  intros H. do 13 (destruct s as [|? s]; try discriminate H).
  simpl in H.
  repeat match type of H with
  | (_ && _) = true => apply andb_true_iff in H; destruct H as [H ?]
  end.
  repeat match goal with
  | E : N.eqb _ _ = true |- _ => apply N.eqb_eq in E; subst
  end.
  match goal with
  | |- exists a b c d, [?h1; ?h2; _; ?m1; ?m2; _; ?s1; ?s2; _; ?f1; ?f2; ?f3] = _ /\ _ =>
      exists [h1; h2], [m1; m2], [s1; s2], [f1; f2; f3]
  end.
  split; [reflexivity |].
  unfold all_digits. repeat split; repeat constructor; assumption.
Qed.

Lemma fmt2_exact a : length a = 2 -> fmt2 a = a.
Proof.
  intros H. do 3 (destruct a as [|? a]; try discriminate H). reflexivity.
Qed.

Lemma previous_canonical_fixed s :
  is_canonical s = true -> Previous.normalizeTimestamp s = s.
Proof.
  intros H. destruct (canonical_shape _ H)
    as (a & b & c & d & -> & Ha & Hb & Hc & Hd & La & Lb & Lc & Ld).
  rewrite previous_four by (assumption || reflexivity).
  rewrite (@remove_class_clean d (@digits_timestamp_chars d Hd)).
  rewrite (@split_digits d Hd).
  now rewrite (fmt2_exact _ La), (fmt2_exact _ Lb), (fmt2_exact _ Lc),
    (fmt3_exact _ Ld).
Qed.

Lemma canonical_not_raw s : is_canonical s = true -> is_raw_seconds s = false.
Proof.
  intros H. destruct (canonical_shape _ H) as (a & b & c & d & -> & Ha & _).
  now apply colon_after_digits_not_raw.
Qed.

(** X1. Outside the raw-seconds branch the result is always in the canonical
    format, and normalising it again changes nothing. *)
Theorem normalizeTimestamp_component_branch (ts : jstring) :
  is_raw_seconds ts = false ->
  is_canonical (normalizeTimestamp ts) = true
  /\ normalizeTimestamp (normalizeTimestamp ts) = normalizeTimestamp ts.
Proof.
  intros H. pose proof (normalizeTimestamp_components_canonical _ H) as Hc.
  split; [exact Hc |].
  rewrite (normalizeTimestamp_previous _ (canonical_not_raw _ Hc)).
  now apply previous_canonical_fixed.
Qed.

Lemma normalizeTimestamp_component_branch_witness :
  is_canonical (normalizeTimestamp (lit " at 1:2,5 ")) = true
  /\ normalizeTimestamp (normalizeTimestamp (lit " at 1:2,5 "))
     = normalizeTimestamp (lit " at 1:2,5 ").
Proof.
  apply (@normalizeTimestamp_component_branch (lit " at 1:2,5 ")).
  vm_compute. reflexivity.
Defined.

(** X5. The normaliser differs from its previous version only on the
    raw-seconds branch: on every other text the two give the same result. *)
Theorem normalizeTimestamp_agrees_with_previous (ts : jstring) :
  is_raw_seconds ts = false ->
  normalizeTimestamp ts = Previous.normalizeTimestamp ts.
Proof.
  intros H. rewrite previous_unfold. destruct ts as [|c ts]; [reflexivity |].
  unfold normalizeTimestamp. unfold is_raw_seconds in H. rewrite H.
  rewrite remove_class_trim. reflexivity.
Qed.

Lemma normalizeTimestamp_agrees_with_previous_witness :
  normalizeTimestamp (lit "01:02:03") = Previous.normalizeTimestamp (lit "01:02:03")
  /\ normalizeTimestamp (lit "123.456") <> Previous.normalizeTimestamp (lit "123.456").
Proof.
  split.
  - apply (@normalizeTimestamp_agrees_with_previous (lit "01:02:03")).
    vm_compute. reflexivity.
  - vm_compute. discriminate.
Defined.

(** X6. The previous version of the normaliser, which had no raw-seconds
    branch, gives a canonical result on every input, and is idempotent. *)
Theorem previous_normalizeTimestamp_canonical (ts : jstring) :
  is_canonical (Previous.normalizeTimestamp ts) = true
  /\ Previous.normalizeTimestamp (Previous.normalizeTimestamp ts)
     = Previous.normalizeTimestamp ts.
Proof.
  assert (Hc : is_canonical (Previous.normalizeTimestamp ts) = true).
  { rewrite previous_unfold. cbv zeta.
    pose proof (split_class_digits (remove_class_timestamp_chars ts)) as Hc.
    pose proof (literal_zeros_digits 2) as Z2.
    pose proof (literal_zeros_digits 3) as Z3.
    destruct (split_class is_separator _) as [|c0 [|c1 [|c2 [|c3 rest]]]];
      repeat match goal with
      | Hf : Forall all_digits (_ :: _) |- _ => inversion Hf; subst; clear Hf
      end.
    - now apply timestamp_canonical.
    - now apply timestamp_canonical.
    - now apply timestamp_canonical.
    - destruct (Nat.eqb (length c2) 3); now apply timestamp_canonical.
    - now apply timestamp_canonical. }
  split; [exact Hc | now apply previous_canonical_fixed].
Qed.

(** *** Texts without a digit *)

Lemma split_separators s :
  Forall (fun c => is_separator c = true) s ->
  split_class is_separator s = repeat [] (S (length s)).
Proof.
  induction 1 as [|c s Hc _ IH]; [reflexivity |].
  cbn [split_class]. rewrite Hc, IH. reflexivity.
Qed.

Lemma clean_no_digit ts :
  Forall (fun c => is_digit c = false) ts ->
  Forall (fun c => is_separator c = true)
         (remove_class (fun c => negb (is_timestamp_char c)) ts).
Proof.
  unfold remove_class. induction 1 as [|c ts Hc _ IH]; [constructor |].
  simpl. destruct (is_timestamp_char c) eqn:E; simpl; [| exact IH].
  constructor; [| exact IH].
  unfold is_timestamp_char in E. rewrite Hc in E. exact E.
Qed.

Lemma no_digit_not_raw ts :
  Forall (fun c => is_digit c = false) ts -> is_raw_seconds ts = false.
Proof.
  intros H. destruct (is_raw_seconds ts) eqn:E; [| reflexivity].
  exfalso. apply (proj1 (raw_seconds_guard_iff ts)) in E.
  destruct E as (ip & fp & Hne & Hip & _ & Hs).
  destruct ip as [|c ip]; [now elim Hne |].
  inversion Hip as [|? ? Hc _]; subst.
  assert (Hin : In c (trim ts)).
  { destruct Hs as [-> | (_ & ->)]; now left. }
  apply In_trim in Hin.
  rewrite Forall_forall in H. rewrite (H _ Hin) in Hc. discriminate.
Qed.

(** X3. A text without any digit is normalised to the zero timestamp,
    whatever else it holds. *)
Theorem normalizeTimestamp_no_digit (ts : jstring) :
  Forall (fun c => is_digit c = false) ts ->
  normalizeTimestamp ts = lit "00:00:00.000".
Proof.
  intros H. rewrite (normalizeTimestamp_previous _ (no_digit_not_raw H)).
  rewrite previous_unfold. cbv zeta.
  rewrite (split_separators (clean_no_digit H)).
  destruct (length _) as [|[|[|n]]]; reflexivity.
Qed.

Lemma normalizeTimestamp_no_digit_witness :
  normalizeTimestamp (lit "undefined") = lit "00:00:00.000".
Proof.
  apply normalizeTimestamp_no_digit. repeat constructor.
Defined.

(** ** What the clients can throw *)

Lemma to_String_arr items :
  to_String (JArr items)
  = parts <- strings_of items ;; Returns (join (lit ",") parts).
Proof.
  reflexivity.
Qed.

(** [String] returns or throws a TypeError. *)
Lemma to_String_outcome : forall v,
  (exists s, to_String v = Returns s) \/ to_String v = Throws TypeError.
Proof.
  fix IH 1. intros [|[|]|x|s|items|ms]; try (left; eexists; reflexivity).
  - rewrite to_String_arr.
    assert (H : (exists ps, strings_of items = Returns ps)
                \/ strings_of items = Throws TypeError).
    { induction items as [|a items IHl]; [left; eexists; reflexivity |].
      assert (Ha : forall k : jstring -> outcome (list jstring),
                 (forall p, (exists ps, k p = Returns ps) \/ k p = Throws TypeError) ->
                 (exists ps, (p <- to_String a ;; k p) = Returns ps)
                 \/ (p <- to_String a ;; k p) = Throws TypeError).
      { intros k Hk. destruct (IH a) as [(p & ->) | ->]; [apply Hk | now right]. }
      assert (Hr : forall f : list jstring -> list jstring,
                 (exists ps, (ps <- strings_of items ;; Returns (f ps)) = Returns ps)
                 \/ (ps <- strings_of items ;; Returns (f ps)) = Throws TypeError).
      { intros f. destruct IHl as [(ps & ->) | ->];
          [left; eexists; reflexivity | now right]. }
      destruct a; cbn [strings_of]; try (apply Ha; intros p; apply Hr).
      apply Hr. }
    destruct H as [(ps & ->) | ->]; [left; eexists; reflexivity | now right].
  - simpl. destruct (obj_get (lit "toString") ms);
      [now right | left; eexists; reflexivity].
Qed.

Lemma String_of_outcome v :
  (exists s, String_of v = Returns s) \/ String_of v = Throws TypeError.
Proof.
  destruct v as [j|]; [apply to_String_outcome | left; eexists; reflexivity].
Qed.

Lemma get_prop_outcome v key :
  (exists p, get_prop v key = Returns p) \/ get_prop v key = Throws TypeError.
Proof. destruct v; simpl; (now right) || (left; eexists; reflexivity). Qed.

Lemma convert_segment_outcome s :
  (exists seg, convert_segment s = Returns seg)
  \/ convert_segment s = Throws TypeError.
Proof.
  unfold convert_segment.
  destruct (get_prop_outcome s key_startTime) as [(p1 & ->) | ->]; [| now right].
  cbn [bind].
  destruct (String_of_outcome p1) as [(s1 & ->) | ->]; [| now right].
  cbn [bind].
  destruct (get_prop_outcome s key_endTime) as [(p2 & ->) | ->]; [| now right].
  cbn [bind].
  destruct (String_of_outcome p2) as [(s2 & ->) | ->]; [| now right].
  cbn [bind].
  destruct (get_prop_outcome s key_text) as [(p3 & ->) | ->]; [| now right].
  cbn [bind].
  destruct (String_of_outcome p3) as [(s3 & ->) | ->]; [| now right].
  left. eexists. reflexivity.
Qed.

Lemma mapM_outcome {A B} (f : A -> outcome B) (e : js_error) l :
  (forall a, (exists b, f a = Returns b) \/ f a = Throws e) ->
  (exists out, mapM f l = Returns out) \/ mapM f l = Throws e.
Proof.
  intros Hf. induction l as [|a l IH]; [left; eexists; reflexivity |].
  simpl. destruct (Hf a) as [(b & ->) | ->]; [| now right]. cbn [bind].
  destruct IH as [(out & ->) | ->]; [left; eexists; reflexivity | now right].
Qed.

Lemma segments_or_empty_outcome v :
  (exists segs, segments_or_empty v = Returns segs)
  \/ segments_or_empty v = Throws TypeError.
Proof.
  unfold segments_or_empty.
  destruct (get_prop_outcome v key_segments) as [(p & ->) | ->]; [| now right].
  cbn [bind]. destruct p as [[| | | | |]|]; try (left; eexists; reflexivity);
    destruct (truthy _); (now right) || (left; eexists; reflexivity).
Qed.

Lemma tryRepairJson_outcome t :
  (exists v, tryRepairJson t = Returns v)
  \/ tryRepairJson t = Throws structure_invalid.
Proof.
  unfold tryRepairJson.
  destruct (tier1 _); [left; eexists; reflexivity |].
  destruct (tier2 _); [left; eexists; reflexivity |].
  pose proof (tier3_total (trim t)) as H3.
  destruct (tier3 _) as [[|s l]|];
    [now right | left; eexists; reflexivity | now elim H3].
Qed.

(** The body of the [try] block returns, or throws one of three errors. *)
Lemma transcribe_response_outcome r :
  (exists out, transcribe_response r = Returns out)
  \/ transcribe_response r = Throws (Error (lit "Empty response from model"))
  \/ transcribe_response r = Throws structure_invalid
  \/ transcribe_response r = Throws TypeError.
Proof.
  unfold transcribe_response. destruct (resp_text r) as [[|c t]|]; [tauto | | tauto].
  destruct (tryRepairJson_outcome (strip_fences (c :: t))) as [(v & ->) | ->];
    [| tauto].
  cbn [bind].
  destruct (segments_or_empty_outcome v) as [(segs & ->) | ->]; [| tauto].
  cbn [bind].
  destruct (@mapM_outcome _ _ convert_segment TypeError segs convert_segment_outcome)
    as [(out & ->) | ->]; [left; eexists; reflexivity | tauto].
Qed.

(** ** The race, event by event *)

Lemma settled_not_pending s : settled s <> Pending.
Proof. destruct s; discriminate. Qed.

Lemma race_unheard signal trace :
  unheard signal trace ->
  fold_left (race_step signal) trace (race_start signal) = race_start signal.
Proof.
  induction 1 as [|e trace (-> & ->) _ IH]; [reflexivity |]. exact IH.
Qed.

Lemma race_start_pending signal :
  signal <> Some true -> race_start signal = RaceState Pending Pending Pending.
Proof. destruct signal as [[|]|]; [intros H; now elim H | reflexivity..]. Qed.

(** The race settles like the request when the request settles first. *)
Lemma race_first_settlement signal pre s post :
  signal <> Some true -> unheard signal pre ->
  p_race (race_run signal (pre ++ EvTransport s :: post)) = settled s.
Proof.
  intros Hs Hpre. unfold race_run. rewrite fold_left_app.
  rewrite (race_unheard Hpre). cbn [fold_left].
  rewrite race_fold_settled; rewrite (race_start_pending Hs); cbn.
  - reflexivity.
  - apply settled_not_pending.
Qed.

(** The race is still pending exactly when nothing has settled it. *)
Lemma race_pending_iff signal trace :
  p_race (race_run signal trace) = Pending
  <-> signal <> Some true /\ unheard signal trace.
Proof.
  split.
  - intros H.
    assert (Hs : signal <> Some true).
    { intros ->. unfold race_run in H.
      rewrite race_fold_settled in H; cbn in *; discriminate. }
    split; [exact Hs |].
    unfold race_run in H. rewrite (race_start_pending Hs) in H.
    induction trace as [|e trace IH]; [constructor |].
    cbn [fold_left] in H. destruct e as [|s].
    + destruct signal as [b|].
      * exfalso. cbn in H. rewrite race_fold_settled in H; cbn in *; discriminate.
      * constructor; [now split | exact (IH H)].
    + exfalso. cbn in H. rewrite race_fold_settled in H; cbn in *.
      * now apply (settled_not_pending s).
      * apply settled_not_pending.
  - intros (Hs & Hu). unfold race_run. rewrite (race_unheard Hu).
    now rewrite (race_start_pending Hs).
Qed.

Lemma race_step_rejected signal st ev e0 :
  p_race (race_step signal st ev) = Rejected e0 ->
  p_race st = Rejected e0 \/ e0 = AbortError \/ ev = EvTransport (Rejects e0).
Proof.
  destruct ev as [|s]; cbn [race_step].
  - destruct signal; [| now left]. destruct (p_abort st); [| now left..].
    cbn [p_race]. destruct (p_race st); cbn [settle]; intros H; [| now left..].
    injection H as <-. right. now left.
  - destruct (p_request st); [| now left..].
    cbn [p_race]. destruct (p_race st); cbn [settle]; intros H; [| now left..].
    destruct s as [r|e]; [discriminate H |]. injection H as <-. now right; right.
Qed.

(** A rejected race carries the abort error or the error of a rejected
    request. *)
Lemma race_rejected signal trace e0 :
  p_race (race_run signal trace) = Rejected e0 ->
  e0 = AbortError \/ In (EvTransport (Rejects e0)) trace.
Proof.
  unfold race_run.
  assert (G : forall st,
             p_race (fold_left (race_step signal) trace st) = Rejected e0 ->
             p_race st = Rejected e0 \/ e0 = AbortError
             \/ In (EvTransport (Rejects e0)) trace).
  { induction trace as [|ev trace IH]; intros st H; [now left |].
    cbn [fold_left] in H. destruct (IH _ H) as [H1 | [H1 | H1]].
    - destruct (race_step_rejected _ _ _ H1) as [H2 | [H2 | H2]];
        [now left | now right; left | right; right; left; now symmetry].
    - now right; left.
    - right; right; now right. }
  intros H. destruct (G _ H) as [H1 | H1]; [| exact H1].
  left. destruct signal as [[|]|]; cbn in H1; try discriminate.
  now injection H1.
Qed.

(** ** The transcription client, case by case *)

(** X13. The outcome of a call is decided by the first settlement: when the
    request settles before the signal aborts (or without a signal, whatever
    abort events occur), the call ends as that settlement dictates, the
    response being processed and a rejection going through the [catch]
    clause; what happens afterwards, a late abort included, changes
    nothing. *)
Theorem transcribeAudio_first_settlement
    (signal : option bool) (pre post : list event) (s : settlement) :
  signal <> Some true ->
  unheard signal pre ->
  transcribeAudio signal (pre ++ EvTransport s :: post)
  = transcribe_catch
      match s with
      | Resolves r => transcribe_response r
      | Rejects e => Throws e
      end.
Proof.
  intros Hs Hpre. unfold transcribeAudio.
  rewrite (race_first_settlement s post Hs Hpre). now destruct s.
Qed.

Lemma transcribeAudio_first_settlement_witness :
  transcribeAudio None ([EvAbort] ++ late_answer :: [EvAbort])
  = transcribe_catch (transcribe_response (Response (Some unordered_doc))).
Proof.
  exact (@transcribeAudio_first_settlement None [EvAbort] [EvAbort]
           (Resolves (Response (Some unordered_doc)))
           ltac:(discriminate) ltac:(repeat constructor)).
Defined.

Lemma transcribe_catch_diverges {A} (o : outcome A) :
  transcribe_catch o = Diverges <-> o = Diverges.
Proof.
  destruct o as [a|e|]; simpl; try tauto; try (split; discriminate).
  destruct (jstr_eqb _ _); split; discriminate.
Qed.

Lemma transcribe_response_settles r : transcribe_response r <> Diverges.
Proof.
  destruct (transcribe_response_outcome r) as [(out & ->) | [-> | [-> | ->]]];
    discriminate.
Qed.

(** X14. A call stays pending exactly as long as nothing settles the race:
    the signal was not aborted at call time, the request has not settled,
    and no abort event was heard.  Once the response is there the call
    always ends: its own processing (the scanning loop of the recovery
    included) terminates. *)
Theorem transcribeAudio_pending_iff (signal : option bool) (trace : list event) :
  transcribeAudio signal trace = Diverges
  <-> signal <> Some true /\ unheard signal trace.
Proof.
  rewrite <- race_pending_iff. unfold transcribeAudio.
  destruct (p_race (race_run signal trace)) as [|r|e].
  - tauto.
  - rewrite transcribe_catch_diverges.
    split; [intros H; now apply transcribe_response_settles in H | discriminate].
  - rewrite transcribe_catch_diverges. split; discriminate.
Qed.

(** X15. The errors a call can throw: the error of the rejected race, thrown
    again as it is when it is named AbortError; and otherwise an error
    named Error, whose message is that of the rejection (or the generic
    message when it has none), or the message of one of the three failures
    of the processing: an empty response, a structure that no tier could
    recover, a value of the wrong type among the segments. *)
Theorem transcribeAudio_errors
    (signal : option bool) (trace : list event) (e : js_error) :
  transcribeAudio signal trace = Throws e ->
  (exists e0,
      (e0 = AbortError \/ In (EvTransport (Rejects e0)) trace)
      /\ Throws e = transcribe_catch (@Throws (list segment) e0)
      /\ (jstr_eqb (err_name e0) (lit "AbortError") = true -> e = e0))
  \/ e = Error (lit "Empty response from model")
  \/ e = structure_invalid
  \/ e = JsError (lit "Error") EngineText.
Proof.
  unfold transcribeAudio.
  destruct (p_race (race_run signal trace)) as [|r|e0] eqn:Er; [discriminate | |].
  - intros H. right.
    destruct (transcribe_response_outcome r) as [(out & E) | [E | [E | E]]];
      rewrite E in H; cbn in H; try discriminate H; injection H as <-; tauto.
  - intros H. left. exists e0. split; [exact (race_rejected _ _ Er) |].
    split; [now rewrite <- H |].
    intros Hn. unfold transcribe_catch in H. rewrite Hn in H. now injection H.
Qed.

Lemma transcribeAudio_errors_witness :
  (exists e0,
      (e0 = AbortError
       \/ In (EvTransport (Rejects e0))
             [EvTransport (Resolves (Response (Some (lit "[]"))))])
      /\ Throws structure_invalid = transcribe_catch (@Throws (list segment) e0)
      /\ (jstr_eqb (err_name e0) (lit "AbortError") = true
          -> structure_invalid = e0))
  \/ structure_invalid = Error (lit "Empty response from model")
  \/ structure_invalid = structure_invalid
  \/ structure_invalid = JsError (lit "Error") EngineText.
Proof.
  apply (@transcribeAudio_errors None
           [EvTransport (Resolves (Response (Some (lit "[]"))))]
           structure_invalid).
  vm_compute. reflexivity.
Defined.

Lemma trim_all_space t : all_space t -> trim t = [].
Proof.
  intros H. rewrite <- (app_nil_r t).
  change (t ++ []) with (t ++ [] ++ []).
  now rewrite (@trim_around t [] [] H ltac:(constructor)).
Qed.

(** X16. A response without text, or with an empty text, makes the call
    throw the error of the empty response; a text of white space only is
    not empty, and makes it throw the error of the recovery. *)
Theorem transcribeAudio_empty_response
    (signal : option bool) (pre post : list event) (r : response) :
  signal <> Some true ->
  unheard signal pre ->
  (resp_text r = None \/ resp_text r = Some [] ->
   transcribeAudio signal (pre ++ EvTransport (Resolves r) :: post)
   = Throws (Error (lit "Empty response from model")))
  /\ (forall t, resp_text r = Some t -> t <> [] -> all_space t ->
      transcribeAudio signal (pre ++ EvTransport (Resolves r) :: post)
      = Throws structure_invalid).
Proof.
  intros Hs Hpre. unfold transcribeAudio.
  rewrite (race_first_settlement (Resolves r) post Hs Hpre). cbn [settled].
  split.
  - intros [E | E]; unfold transcribe_response; rewrite E; reflexivity.
  - intros t E Hne Ht. unfold transcribe_response. rewrite E.
    destruct t as [|c t]; [now elim Hne |].
    assert (Es : strip_fences (c :: t) = []).
    { rewrite strip_fences_plain; rewrite (trim_all_space Ht); reflexivity. }
    rewrite Es. reflexivity.
Qed.

Lemma transcribeAudio_empty_response_witness :
  transcribeAudio (Some false)
    ([] ++ EvTransport (Resolves (Response (Some []))) :: [EvAbort])
  = Throws (Error (lit "Empty response from model"))
  /\ transcribeAudio (Some false)
       ([] ++ EvTransport (Resolves (Response (Some (lit "  ")))) :: [EvAbort])
     = Throws structure_invalid.
Proof.
  split.
  - apply (proj1 (@transcribeAudio_empty_response (Some false) [] [EvAbort]
                    (Response (Some [])) ltac:(discriminate) ltac:(constructor))).
    now right.
  - apply (proj2 (@transcribeAudio_empty_response (Some false) [] [EvAbort]
                    (Response (Some (lit "  ")))
                    ltac:(discriminate) ltac:(constructor))
                 (lit "  ")); [reflexivity | discriminate | repeat constructor].
Defined.

Lemma transcribe_catch_returns {A} (o : outcome A) a :
  transcribe_catch o = Returns a -> o = Returns a.
Proof.
  destruct o as [x|e|]; simpl; try (intros H; exact H || discriminate H).
  destruct (jstr_eqb _ _); discriminate.
Qed.

Lemma bind_returns {A B} (o : outcome A) (f : A -> outcome B) b :
  bind o f = Returns b -> exists a, o = Returns a /\ f a = Returns b.
Proof. destruct o as [a|e|]; simpl; [now exists a | discriminate..]. Qed.

Lemma normalizeTimestamp_normalised ts : normalised (normalizeTimestamp ts).
Proof.
  destruct (is_raw_seconds ts) eqn:E.
  - right. now exists ts.
  - left. now apply normalizeTimestamp_components_canonical.
Qed.

Lemma convert_segment_normalised s seg :
  convert_segment s = Returns seg ->
  normalised (startTime seg) /\ normalised (endTime seg).
Proof.
  unfold convert_segment. intros H.
  repeat match type of H with
  | bind _ _ = Returns _ =>
      apply bind_returns in H; destruct H as (? & _ & H)
  end.
  injection H as <-. split; apply normalizeTimestamp_normalised.
Qed.

(** X17. Every segment a call returns has its two timestamps normalised:
    each is in the canonical format, unless it comes from the raw-seconds
    branch. *)
Theorem transcribeAudio_timestamps_normalised
    (signal : option bool) (trace : list event) (out : list segment) :
  transcribeAudio signal trace = Returns out ->
  Forall (fun seg => normalised (startTime seg) /\ normalised (endTime seg)) out.
Proof.
  unfold transcribeAudio.
  destruct (p_race (race_run signal trace)) as [|r|e]; [discriminate | |].
  - intros H. apply transcribe_catch_returns in H.
    unfold transcribe_response in H.
    destruct (resp_text r) as [[|c t]|]; try discriminate H.
    apply bind_returns in H. destruct H as (parsed & _ & H).
    apply bind_returns in H. destruct H as (segs & _ & H).
    apply mapM_Forall2 in H.
    induction H as [|s seg segs out Hs _ IH]; constructor;
      [exact (convert_segment_normalised _ Hs) | exact IH].
  - intros H. apply transcribe_catch_returns in H. discriminate H.
Qed.

Lemma transcribeAudio_timestamps_normalised_witness :
  Forall (fun seg => normalised (startTime seg) /\ normalised (endTime seg))
         [Segment (lit "00:00:09.000") (lit "00:00:00.000") (lit "undefined");
          Segment (lit "00:00:03.000") (lit "00:00:00.000") (lit "undefined")].
Proof.
  apply (@transcribeAudio_timestamps_normalised None [late_answer]).
  vm_compute. reflexivity.
Defined.

(** *** Segments with missing parts *)

Lemma mapM_throws {A B} (f : A -> outcome B) (e : js_error) l a :
  (forall x, (exists b, f x = Returns b) \/ f x = Throws e) ->
  In a l -> f a = Throws e -> mapM f l = Throws e.
Proof.
  intros Hf. induction l as [|x l IH]; intros Hin Ha; [destruct Hin |].
  simpl. destruct (Hf x) as [(b & Ex) | Ex]; rewrite Ex; [| reflexivity].
  cbn [bind]. destruct Hin as [-> | Hin].
  - rewrite Ha in Ex. discriminate.
  - now rewrite (IH Hin Ha).
Qed.

Lemma String_of_primitive p :
  is_primitive p = true -> exists s, String_of p = Returns s.
Proof.
  destruct p as [[|[|]|x|s|items|ms] |]; intros H; try discriminate H;
    eexists; reflexivity.
Qed.

(** X18. A segment object without a [startTime], an [endTime] or a [text]
    member is not rejected.  When each of the three members is absent or is
    a string, a number, a boolean or [null], the conversion returns a
    segment; in it a missing timestamp is the zero timestamp and a missing
    text is the word undefined; the object without any member becomes the
    segment with two zero timestamps and the text undefined.  A [null]
    among the segments makes the whole conversion throw a TypeError: no
    partial list is returned. *)
Theorem convert_segment_missing_members :
  (forall ms,
      is_primitive (obj_get key_startTime ms) = true ->
      is_primitive (obj_get key_endTime ms) = true ->
      is_primitive (obj_get key_text ms) = true ->
      exists seg,
        convert_segment (JObj ms) = Returns seg
        /\ (obj_get key_startTime ms = None -> startTime seg = lit "00:00:00.000")
        /\ (obj_get key_endTime ms = None -> endTime seg = lit "00:00:00.000")
        /\ (obj_get key_text ms = None -> text seg = lit "undefined"))
  /\ (forall ms,
         obj_get key_startTime ms = None ->
         obj_get key_endTime ms = None ->
         obj_get key_text ms = None ->
         mapM convert_segment [JObj ms]
         = Returns [Segment (lit "00:00:00.000") (lit "00:00:00.000")
                            (lit "undefined")])
  /\ (forall segs, In JNull segs -> mapM convert_segment segs = Throws TypeError).
Proof.
  split; [| split].
  - intros ms P1 P2 P3. unfold convert_segment. cbn [get_prop bind].
    destruct (String_of_primitive _ P1) as (s1 & E1).
    destruct (String_of_primitive _ P2) as (s2 & E2).
    destruct (String_of_primitive _ P3) as (s3 & E3).
    rewrite E1. cbn [bind]. rewrite E2. cbn [bind]. rewrite E3. cbn [bind].
    eexists. split; [reflexivity |]. cbn [startTime endTime text].
    split; [| split]; intros E; rewrite E in *; cbn [String_of] in *.
    + injection E1 as <-. vm_compute. reflexivity.
    + injection E2 as <-. vm_compute. reflexivity.
    + now injection E3 as <-.
  - intros ms E1 E2 E3. cbn [mapM]. unfold convert_segment.
    cbn [get_prop bind]. rewrite E1, E2, E3. vm_compute. reflexivity.
  - intros segs Hin.
    apply (@mapM_throws _ _ convert_segment TypeError segs JNull
             convert_segment_outcome Hin).
    reflexivity.
Qed.

(** A segment that holds nothing but a translation. *)
Lemma convert_segment_missing_members_witness :
  exists seg,
    convert_segment (JObj [(lit "translatedText", JStr (lit "hola"))])
    = Returns seg
    /\ startTime seg = lit "00:00:00.000"
    /\ endTime seg = lit "00:00:00.000"
    /\ text seg = lit "undefined".
Proof.
  destruct (proj1 convert_segment_missing_members
              [(lit "translatedText", JStr (lit "hola"))]
              eq_refl eq_refl eq_refl) as (seg & E & H1 & H2 & H3).
  exists seg. split; [exact E |].
  split; [apply H1; reflexivity |].
  split; [apply H2; reflexivity | apply H3; reflexivity].
Defined.

(** ** Unescaping the captured text *)

Lemma JSON_parse_string body :
  JSON_parse (dq body)
  = match parse_string_body (body ++ [c_dquote]) with
    | Some (str, r1) =>
        match skip_ws r1 with [] => Some (JStr str) | _ :: _ => None end
    | None => None
    end.
Proof.
  unfold JSON_parse, dq.
  replace (2 * length (c_dquote :: body ++ [c_dquote]) + 2)
    with (S (2 * length (c_dquote :: body ++ [c_dquote]) + 1)) by lia.
  cbn [parse_value].
  change (skip_ws (c_dquote :: body ++ [c_dquote]))
    with (c_dquote :: body ++ [c_dquote]).
  change (N.eqb c_dquote 123) with false.
  change (N.eqb c_dquote 91) with false.
  change (N.eqb c_dquote 34) with true.
  cbv iota.
  destruct (parse_string_body (body ++ [c_dquote])) as [[str r1]|]; reflexivity.
Qed.

Lemma replace_char_cons c r a s :
  replace_char c r (a :: s)
  = (if N.eqb a c then r else [a]) ++ replace_char c r s.
Proof. reflexivity. Qed.

Lemma plain_char_inv c :
  is_plain_char c = true -> N.eqb c 92 = false /\ (c <? 32)%N = false.
Proof.
  unfold is_plain_char. intros H. apply andb_true_iff in H.
  destruct H as [H1 H2]. apply negb_true_iff in H1, H2. now split.
Qed.

Lemma parse_string_body_plain rest : forall raw,
  Forall (fun c => is_plain_char c = true) raw ->
  parse_string_body
    (replace_char c_dquote [c_bslash; c_dquote] raw ++ c_dquote :: rest)
  = Some (raw, rest).
Proof.
  induction 1 as [|c raw Hc _ IH]; [reflexivity |].
  rewrite replace_char_cons. destruct (plain_char_inv _ Hc) as [Hb Hl].
  destruct (N.eqb_spec c c_dquote) as [-> | Hq].
  - cbn [app]. cbn [parse_string_body].
    change (N.eqb c_bslash 34) with false.
    change (N.eqb c_bslash 92) with true.
    change (N.eqb c_dquote 117) with false.
    change (simple_escape c_dquote) with (Some 34%N).
    cbv iota. rewrite IH. reflexivity.
  - cbn [app]. cbn [parse_string_body].
    apply N.eqb_neq in Hq. unfold c_dquote in Hq. rewrite Hq, Hb, Hl.
    rewrite IH. reflexivity.
Qed.

(** X11. A captured text without backslash or control character is
    recovered as it is, the double quotes it may hold included: escaping
    them and parsing the result gives the text back. *)
Theorem unescape_text_plain (rawText : jstring) :
  Forall (fun c => is_plain_char c = true) rawText ->
  unescape_text rawText = JStr rawText.
Proof.
  intros H. unfold unescape_text. rewrite JSON_parse_string.
  rewrite (@parse_string_body_plain [] rawText H). reflexivity.
Qed.

Lemma unescape_text_plain_witness :
  unescape_text (lit "say " ++ dq (lit "hi")) = JStr (lit "say " ++ dq (lit "hi")).
Proof.
  apply unescape_text_plain. repeat constructor.
Defined.

Lemma hex_value_plain x u :
  hex_value x = Some u -> x <> c_dquote /\ x <> c_bslash.
Proof.
  intros H. split; intros ->; discriminate H.
Qed.

Lemma hex4_plain a b c d u :
  hex4 a b c d = Some u ->
  (a <> c_dquote /\ a <> c_bslash) /\ (b <> c_dquote /\ b <> c_bslash)
  /\ (c <> c_dquote /\ c <> c_bslash) /\ (d <> c_dquote /\ d <> c_bslash).
Proof.
  unfold hex4. intros H.
  destruct (hex_value a) eqn:Ea; [| discriminate].
  destruct (hex_value b) eqn:Eb; [| discriminate].
  destruct (hex_value c) eqn:Ec; [| discriminate].
  destruct (hex_value d) eqn:Ed; [| discriminate].
  repeat split;
    match goal with
    | |- ?x <> _ => intros ->; discriminate
    end.
Qed.

(** The head of an escaped run whose escaped form starts with a plain
    character. *)
Lemma escaped_run_plain_head w x r :
  escaped_run c_dquote w ->
  replace_char c_dquote [c_bslash; c_dquote] w ++ [c_dquote] = x :: r ->
  x <> c_dquote -> x <> c_bslash ->
  exists w', w = x :: w' /\ escaped_run c_dquote w'
             /\ r = replace_char c_dquote [c_bslash; c_dquote] w' ++ [c_dquote].
Proof.
  intros Hw E Hq Hb. destruct Hw as [|c w Hc1 Hc2 Hw|c w Hc Hw].
  - simpl in E. injection E as <- _. now elim Hq.
  - rewrite replace_char_cons in E.
    apply N.eqb_neq in Hc1. rewrite Hc1 in E. simpl in E.
    injection E as <- <-. now exists w.
  - rewrite replace_char_cons in E. simpl in E. injection E as <- _.
    now elim Hb.
Qed.

(** Parsing the escaped form of a text that holds an escaped double quote
    stops before the end of the text. *)
Lemma escaped_quote_stops : forall n raw,
  length raw <= n ->
  escaped_run c_dquote raw -> In c_dquote raw ->
  forall str r,
    parse_string_body
      (replace_char c_dquote [c_bslash; c_dquote] raw ++ [c_dquote])
    = Some (str, r) ->
    r <> [].
Proof.
  induction n as [|n IH]; intros raw Hn Hrun Hin str r Hp.
  - destruct raw; [destruct Hin | simpl in Hn; lia].
  - destruct Hrun as [|c w Hc1 Hc2 Hw|c w Hc Hw]; [destruct Hin | |].
    + rewrite replace_char_cons in Hp.
      pose proof Hc1 as Hq. apply N.eqb_neq in Hq. rewrite Hq in Hp.
      cbn [app parse_string_body] in Hp. unfold c_dquote in Hq. rewrite Hq in Hp.
      pose proof Hc2 as Hb. apply N.eqb_neq in Hb. unfold c_bslash in Hb.
      rewrite Hb in Hp.
      destruct (c <? 32)%N; [discriminate Hp |].
      apply cons_fst_some in Hp. destruct Hp as (l' & Hp & _).
      refine (IH w _ Hw _ l' r Hp); [simpl in Hn; lia |].
      destruct Hin as [E | Hin]; [now elim Hc1 | exact Hin].
    + rewrite replace_char_cons in Hp.
      change (N.eqb c_bslash c_dquote) with false in Hp.
      rewrite replace_char_cons in Hp.
      destruct (N.eqb_spec c c_dquote) as [-> | Hq].
      * cbn [app parse_string_body] in Hp.
        change (N.eqb c_bslash 34) with false in Hp.
        change (N.eqb c_bslash 92) with true in Hp.
        change (N.eqb c_bslash 117) with false in Hp.
        change (simple_escape c_bslash) with (Some 92%N) in Hp.
        change (N.eqb c_dquote 34) with true in Hp.
        cbv iota in Hp. cbn [cons_fst] in Hp. injection Hp as _ <-.
        destruct (replace_char _ _ w); discriminate.
      * assert (Hin' : In c_dquote w).
        { destruct Hin as [E | [E | Hin]];
            [discriminate E | now elim Hq | exact Hin]. }
        cbn [app parse_string_body] in Hp.
        change (N.eqb c_bslash 34) with false in Hp.
        change (N.eqb c_bslash 92) with true in Hp.
        cbv iota in Hp.
        destruct (N.eqb c 117) eqn:Eu.
        -- destruct (replace_char c_dquote [c_bslash; c_dquote] w ++ [c_dquote])
             as [|x1 [|x2 [|x3 [|x4 r2]]]] eqn:E1; try discriminate Hp.
           destruct (hex4 x1 x2 x3 x4) as [u|] eqn:Eh; [| discriminate Hp].
           destruct (hex4_plain _ _ _ _ Eh)
             as ((Q1 & B1) & (Q2 & B2) & (Q3 & B3) & (Q4 & B4)).
           destruct (escaped_run_plain_head Hw E1 Q1 B1) as (w1 & -> & Hw1 & E2).
           destruct (escaped_run_plain_head Hw1 (eq_sym E2) Q2 B2)
             as (w2 & -> & Hw2 & E3).
           destruct (escaped_run_plain_head Hw2 (eq_sym E3) Q3 B3)
             as (w3 & -> & Hw3 & E4).
           destruct (escaped_run_plain_head Hw3 (eq_sym E4) Q4 B4)
             as (w4 & -> & Hw4 & E5).
           subst r2.
           apply cons_fst_some in Hp. destruct Hp as (l' & Hp & _).
           refine (IH w4 _ Hw4 _ l' r Hp); [simpl in Hn; lia |].
           destruct Hin' as [E | [E | [E | [E | Hin']]]];
             try contradiction. exact Hin'.
        -- destruct (simple_escape c) as [u|]; [| discriminate Hp].
           apply cons_fst_some in Hp. destruct Hp as (l' & Hp & _).
           refine (IH w _ Hw Hin' l' r Hp). simpl in Hn; lia.
Qed.

Lemma skip_ws_ends_with_quote r p : r = p ++ [c_dquote] -> skip_ws r <> [].
Proof.
  intros -> H. apply skip_ws_all in H. unfold all_json_ws in H.
  apply Forall_app in H. destruct H as [_ H]. inversion H; subst. discriminate.
Qed.

(** X12. A text captured between double quotes that holds an escaped double
    quote is never decoded by [JSON.parse]: escaping its quotes again
    closes the string early, the parse throws, and the text goes through
    the three substitutions instead, which leave any other escape sequence
    as it is written. *)
Theorem unescape_text_escaped_quote (rawText : jstring) :
  escaped_run c_dquote rawText ->
  In c_dquote rawText ->
  JSON_parse (dq (replace_char c_dquote [c_bslash; c_dquote] rawText)) = None
  /\ unescape_text rawText = JStr (basic_unescape rawText).
Proof.
  intros Hrun Hin.
  assert (Hp : JSON_parse (dq (replace_char c_dquote [c_bslash; c_dquote] rawText))
               = None).
  { rewrite JSON_parse_string.
    destruct (parse_string_body _) as [[str r1]|] eqn:Ep; [| reflexivity].
    pose proof (@escaped_quote_stops (length rawText) rawText (le_n _)
                  Hrun Hin str r1 Ep) as Hne.
    destruct (@parse_string_body_reads _ _ str r1 (le_n _) Ep) as (w & Ew & _).
    assert (Hq : exists p, r1 = p ++ [c_dquote]).
    { destruct (@exists_last _ r1 Hne) as (p & l & El). exists p.
      rewrite El, app_assoc in Ew. apply app_inj_tail in Ew.
      destruct Ew as [_ <-]. exact El. }
    destruct Hq as (p & Hq).
    pose proof (@skip_ws_ends_with_quote r1 p Hq) as Hs.
    destruct (skip_ws r1); [now elim Hs | reflexivity]. }
  split; [exact Hp |]. unfold unescape_text. rewrite Hp. reflexivity.
Qed.

Lemma unescape_text_escaped_quote_witness :
  unescape_text escaped_sample
  = JStr (lit "say " ++ dq (lit "hi") ++ [c_bslash; 110%N]).
Proof.
  refine (proj2 (@unescape_text_escaped_quote escaped_sample _ _)).
  - cbv [escaped_sample lit app map list_ascii_of_string N_of_ascii N_of_digits
         c_bslash c_dquote].
    repeat first
      [ apply ER_nil
      | apply ER_escape; [reflexivity |]
      | apply ER_plain; [discriminate | discriminate |] ].
  - cbv. tauto.
Defined.

(** ** The translation client has no recovery *)

(** A document cut inside its final object is not a JSON text, and starts
    with a brace once trimmed. *)
Lemma truncated_doc_unparsable a1 a2 a3 ts os tail :
  all_json_ws a1 -> all_json_ws a2 -> all_json_ws a3 ->
  Forall2 object_text ts os -> ts <> [] ->
  ~ In 125%N tail ->
  JSON_parse (trim (truncated_doc a1 a2 a3 ts tail)) = None
  /\ exists p, trim (truncated_doc a1 a2 a3 ts tail) = 123%N :: p.
Proof.
  intros W1 W2 W3 Hts Hne Htail.
  destruct (elements_compose Hts Hne)
    as (J0 & rn & EJ & Wn & (ws & x & Eh & Wh) & Hel).
  rewrite (Forall2_length Hts) in Hel.
  assert (Hy : ~ In 125%N (trim_end (rn ++ tail))).
  { apply not_in_trim_end. intros Hin. apply in_app_or in Hin.
    destruct Hin as [Hin | Hin]; [| now apply Htail].
    now apply (all_json_ws_no_brace Wn). }
  set (y := trim_end (rn ++ tail)) in *.
  assert (Et : trim (truncated_doc a1 a2 a3 ts tail)
               = segments_doc_open a1 a2 a3 ++ J0 ++ 125%N :: y).
  { unfold truncated_doc. rewrite EJ.
    replace (segments_doc_open a1 a2 a3 ++ (J0 ++ 125%N :: rn) ++ tail)
      with ((segments_doc_open a1 a2 a3 ++ J0) ++ 125%N :: rn ++ tail)
      by now norm_app.
    rewrite segments_doc_open_app.
    match goal with
    | |- trim ((123%N :: ?p) ++ _) = _ => rewrite (trim_braced p (rn ++ tail))
    end.
    rewrite <- segments_doc_open_app. now norm_app. }
  rewrite Et. split.
  - exact (@parse_open_doc_fails a1 a2 a3 J0 os x ws y W1 W2 W3 Wh Eh Hel Hy).
  - rewrite segments_doc_open_app. eexists. reflexivity.
Qed.

Lemma truncated_doc_nonempty a1 a2 a3 ts tail :
  exists c r, truncated_doc a1 a2 a3 ts tail = c :: r.
Proof. unfold truncated_doc. rewrite segments_doc_open_app. eauto. Qed.

(** X19. The translation client attempts no repair: a response cut inside
    its final object, which the recovery of the transcription client turns
    into its complete segments, makes the translation client throw the
    SyntaxError of the parser. *)
Theorem translateSegments_no_repair
    (a1 a2 a3 : jstring) (ts : list jstring) (os : list json) (tail : jstring) :
  all_json_ws a1 -> all_json_ws a2 -> all_json_ws a3 ->
  Forall2 object_text ts os -> ts <> [] -> ~ In 125%N tail ->
  translateSegments (Response (Some (truncated_doc a1 a2 a3 ts tail)))
  = Throws SyntaxError
  /\ tryRepairJson (strip_fences (truncated_doc a1 a2 a3 ts tail))
     = Returns (segments_object os).
Proof.
  intros W1 W2 W3 Hts Hne Htail.
  destruct (@truncated_doc_unparsable a1 a2 a3 ts os tail W1 W2 W3 Hts Hne Htail)
    as (Hp & p & Ep).
  assert (Es : strip_fences (truncated_doc a1 a2 a3 ts tail)
               = trim (truncated_doc a1 a2 a3 ts tail)).
  { apply strip_fences_plain. rewrite Ep. reflexivity. }
  split.
  - destruct (truncated_doc_nonempty a1 a2 a3 ts tail) as (c & r & Ec).
    unfold translateSegments. cbn [resp_text].
    rewrite Es, Hp. rewrite Ec. reflexivity.
  - rewrite Es, tryRepairJson_trim. unfold tryRepairJson.
    destruct (@truncated_doc_tiers a1 a2 a3 ts os tail W1 W2 W3 Hts Hne Htail)
      as (T1 & T2).
    now rewrite T1, T2.
Qed.

Lemma translateSegments_no_repair_witness :
  translateSegments
    (Response (Some (truncated_doc [] [] (lit " ") sample_texts sample_tail)))
  = Throws SyntaxError
  /\ tryRepairJson
       (strip_fences (truncated_doc [] [] (lit " ") sample_texts sample_tail))
     = Returns (segments_object sample_objects).
Proof.
  assert (H1 : Forall2 object_text sample_texts sample_objects).
  { repeat constructor. }
  assert (H3 : ~ In 125%N sample_tail).
  { vm_compute. intros H.
    repeat (destruct H as [H | H]; [discriminate H |]). exact H. }
  apply (@translateSegments_no_repair [] [] (lit " ")
           sample_texts sample_objects sample_tail);
    try assumption; try discriminate; repeat constructor.
Defined.

(** ** The previous version of the clients *)

Lemma convert_segment_previous s a :
  Previous.convert_segment s = Returns a ->
  exists sts ens,
    a = Segment (Previous.normalizeTimestamp sts)
                (Previous.normalizeTimestamp ens) (text a)
    /\ convert_segment s
       = Returns (Segment (normalizeTimestamp sts) (normalizeTimestamp ens)
                          (text a)).
Proof.
  unfold Previous.convert_segment, convert_segment. intros H.
  apply bind_returns in H. destruct H as (p1 & E1 & H).
  apply bind_returns in H. destruct H as (sts & E2 & H).
  apply bind_returns in H. destruct H as (p2 & E3 & H).
  apply bind_returns in H. destruct H as (ens & E4 & H).
  apply bind_returns in H. destruct H as (p3 & E5 & H).
  apply bind_returns in H. destruct H as (txs & E6 & H).
  injection H as <-. exists sts, ens.
  rewrite E1. cbn [bind]. rewrite E2. cbn [bind].
  rewrite E3. cbn [bind]. rewrite E4. cbn [bind].
  rewrite E5. cbn [bind]. rewrite E6. cbn [bind text]. now split.
Qed.

Lemma mapM_convert_previous segs : forall out,
  mapM Previous.convert_segment segs = Returns out ->
  exists out',
    mapM convert_segment segs = Returns out'
    /\ Forall2 (fun a b =>
                  text b = text a
                  /\ exists sts ens,
                       startTime a = Previous.normalizeTimestamp sts
                       /\ startTime b = normalizeTimestamp sts
                       /\ endTime a = Previous.normalizeTimestamp ens
                       /\ endTime b = normalizeTimestamp ens)
               out out'.
Proof.
  induction segs as [|s segs IH]; intros out H.
  - injection H as <-. exists []. split; [reflexivity | constructor].
  - cbn [mapM] in H.
    apply bind_returns in H. destruct H as (a & Ea & H).
    apply bind_returns in H. destruct H as (l & El & H).
    injection H as <-.
    destruct (@convert_segment_previous s a Ea) as (sts & ens & Ha & Eb).
    destruct (IH l El) as (l' & El' & Hl).
    eexists. cbn [mapM]. rewrite Eb, El'. cbn [bind].
    split; [reflexivity |]. constructor; [| exact Hl].
    cbn [text startTime endTime]. split; [reflexivity |].
    exists sts, ens. rewrite Ha at 1 2. cbn [startTime endTime]. tauto.
Qed.

(** X21. On a well-formed response the current client returns what the
    previous version returned: a text that [JSON.parse] accepts as a value
    with a segments array gives, in both versions, the same segments in the
    same order with the same texts, each timestamp being normalised from
    the same string by the normaliser of its version.  (The recovery tiers
    and the fence stripping added since do not interfere.) *)
Theorem transcribeAudio_extends_previous
    (t : jstring) (v : json) (out : list segment) :
  JSON_parse t = Some v ->
  has_segments_array v = true ->
  Previous.transcribeAudio (Fulfilled (Response (Some t))) = Returns out ->
  exists out',
    transcribeAudio None [EvTransport (Resolves (Response (Some t)))]
    = Returns out'
    /\ Forall2 (fun a b =>
                  text b = text a
                  /\ exists sts ens,
                       startTime a = Previous.normalizeTimestamp sts
                       /\ startTime b = normalizeTimestamp sts
                       /\ endTime a = Previous.normalizeTimestamp ens
                       /\ endTime b = normalizeTimestamp ens)
               out out'.
Proof.
  intros Hp Hs H.
  destruct t as [|c t]; [discriminate Hp |].
  cbn [Previous.transcribeAudio] in H.
  assert (H' : Previous.transcribe_response (Response (Some (c :: t)))
               = Returns out).
  { destruct (Previous.transcribe_response _) as [x|e|]; try discriminate H.
    exact H. }
  clear H. unfold Previous.transcribe_response in H'. cbn [resp_text] in H'.
  rewrite Hp in H'.
  apply bind_returns in H'. destruct H' as (segs & Es & H').
  destruct (@mapM_convert_previous segs out H') as (out' & Eo & Hrel).
  exists out'. split; [| exact Hrel].
  change (transcribeAudio None [EvTransport (Resolves (Response (Some (c :: t))))])
    with (transcribe_catch (transcribe_response (Response (Some (c :: t))))).
  unfold transcribe_response. cbn [resp_text].
  destruct (@trim_object_text (c :: t) v Hp (@has_segments_array_object v Hs))
    as (x & Et & _).
  rewrite strip_fences_plain by (rewrite Et; reflexivity).
  rewrite tryRepairJson_trim, (@tryRepairJson_parsed (c :: t) v Hp Hs). cbn [bind].
  rewrite Es. cbn [bind]. rewrite Eo. reflexivity.
Qed.

Lemma transcribeAudio_extends_previous_witness :
  exists out',
    transcribeAudio None [EvTransport (Resolves (Response (Some unordered_doc)))]
    = Returns out'
    /\ Forall2 (fun a b =>
                  text b = text a
                  /\ exists sts ens,
                       startTime a = Previous.normalizeTimestamp sts
                       /\ startTime b = normalizeTimestamp sts
                       /\ endTime a = Previous.normalizeTimestamp ens
                       /\ endTime b = normalizeTimestamp ens)
               [Segment (lit "00:00:09.000") (lit "00:00:00.000") (lit "undefined");
                Segment (lit "00:00:03.000") (lit "00:00:00.000") (lit "undefined")]
               out'.
Proof.
  apply (@transcribeAudio_extends_previous unordered_doc
           (segments_object unordered_objects)); reflexivity.
Defined.

(** X22. The translation client returns what its previous version returned
    on every response whose text [JSON.parse] accepts as an object: the
    trimming and fence stripping added since change nothing there. *)
Theorem translateSegments_extends_previous (t : jstring) (v : json) :
  JSON_parse t = Some v ->
  is_object v = true ->
  translateSegments (Response (Some t))
  = Previous.translateSegments (Response (Some t)).
Proof.
  intros Hp Ho. destruct t as [|c t]; [discriminate Hp |].
  unfold translateSegments, Previous.translateSegments. cbn [resp_text].
  destruct (@trim_object_text (c :: t) v Hp Ho) as (x & Et & Ex).
  rewrite strip_fences_plain by (rewrite Et; reflexivity).
  now rewrite Et, Ex, Hp.
Qed.

Lemma translateSegments_extends_previous_witness :
  translateSegments (Response (Some (lit " " ++ loose_translation_text)))
  = Previous.translateSegments
      (Response (Some (lit " " ++ loose_translation_text))).
Proof.
  apply (@translateSegments_extends_previous
           (lit " " ++ loose_translation_text)
           (segments_object loose_translation_segments));
    reflexivity.
Defined.

(** ** The raw-seconds branch on whole seconds *)

Lemma jstr_eqb_eq a : forall b, jstr_eqb a b = true -> a = b.
Proof.
  induction a as [|x a IH]; intros [|y b] H; try discriminate H;
    [reflexivity |].
  simpl in H. apply andb_true_iff in H. destruct H as [H1 H2].
  apply N.eqb_eq in H1. subst y. now rewrite (IH _ H2).
Qed.

Lemma whole_seconds_ok_spec : forall k n,
  whole_seconds_ok k n = true ->
  forall m, (n <= m)%N -> (m < n + N.of_nat k)%N ->
            normalizeTimestamp (decimal_digits m) = clock m.
Proof.
  induction k as [|k IH]; intros n H m Hl Hu; [lia |].
  cbn [whole_seconds_ok] in H. apply andb_true_iff in H. destruct H as [H1 H2].
  destruct (N.eq_dec m n) as [-> | Hne]; [now apply jstr_eqb_eq |].
  apply (IH (N.succ n) H2); lia.
Qed.

(** X23. A whole number of seconds below one hour, written in decimal, is
    normalised to the canonical timestamp of that many seconds: zero hours,
    the minutes, the seconds, zero milliseconds. *)
Theorem normalizeTimestamp_whole_seconds (n : N) :
  (n < 3600)%N ->
  normalizeTimestamp (decimal_digits n) = clock n.
Proof.
  intros H.
  apply (@whole_seconds_ok_spec 3600 0); [vm_compute; reflexivity | lia | lia].
Qed.

Lemma normalizeTimestamp_whole_seconds_witness :
  normalizeTimestamp (lit "754") = lit "00:12:34.000".
Proof.
  apply (@normalizeTimestamp_whole_seconds 754). reflexivity.
Defined.

(** ** The scraping pattern recognises every fragment of the segment shape *)

Lemma rmatch_char c r pos caps k :
  rmatch (re_char c) (MState pos (c :: r) caps) k = k (MState (S pos) r caps).
Proof. unfold re_char. cbn [rmatch ms_rest ms_pos ms_caps]. now rewrite N.eqb_refl. Qed.

Lemma rmatch_char_neq c x r pos caps k :
  x <> c -> rmatch (re_char c) (MState pos (x :: r) caps) k = None.
Proof.
  intros H. unfold re_char. cbn [rmatch ms_rest].
  replace (N.eqb c x) with false; [reflexivity |].
  symmetry. apply N.eqb_neq. congruence.
Qed.

Lemma rmatch_re_seq a l st k :
  rmatch (re_seq (a :: l)) st k = rmatch a st (fun st1 => rmatch (re_seq l) st1 k).
Proof. reflexivity. Qed.

Lemma rmatch_re_seq_nil st k : rmatch (re_seq []) st k = k st.
Proof. reflexivity. Qed.

Lemma rmatch_group i r st k :
  rmatch (RGroup i r) st k = rmatch r st (fun st1 => k (set_cap i st st1)).
Proof. reflexivity. Qed.

Lemma firstn_exact {A} (l r : list A) : firstn (length l) (l ++ r) = l.
Proof. induction l as [|a l IH]; [reflexivity |]. simpl. now rewrite IH. Qed.

Lemma star_loop_step step gs k f st :
  star_loop step gs k (S f) st
  = or_else
      (step (clear_caps gs st)
         (fun st1 =>
            if Nat.eqb (ms_pos st1) (ms_pos st) then None
            else star_loop step gs k f st1))
      (k st).
Proof. reflexivity. Qed.

Lemma rmatch_class p c r pos caps k :
  rmatch (RChar p) (MState pos (c :: r) caps) k
  = if p c then k (MState (S pos) r caps) else None.
Proof. reflexivity. Qed.

Lemma rmatch_class_nil p pos caps k :
  rmatch (RChar p) (MState pos [] caps) k = None.
Proof. reflexivity. Qed.

Lemma rmatch_alt a b st k :
  rmatch (RAlt a b) st k = or_else (rmatch a st k) (rmatch b st k).
Proof. reflexivity. Qed.

Lemma succ_neq_eqb n m : Nat.eqb (S (n + m)) n = false.
Proof. apply Nat.eqb_neq. lia. Qed.

(** A starred class followed by something that succeeds after the whole
    run, when the run cannot go on. *)
Lemma star_class_success p k res : forall w rest fuel pos caps,
  Forall (fun c => p c = true) w ->
  match rest with c :: _ => p c = false | [] => True end ->
  length w < fuel ->
  k (MState (pos + length w) rest caps) = Some res ->
  star_loop (rmatch (RChar p)) [] k fuel (MState pos (w ++ rest) caps) = Some res.
Proof.
  induction w as [|c w IH]; intros rest fuel pos caps Hw Hr Hf Hk;
    (destruct fuel as [|f]; [simpl in Hf; lia |]).
  - rewrite star_loop_step, clear_caps_nil. cbn [app].
    simpl in Hk. rewrite Nat.add_0_r in Hk.
    destruct rest as [|x rest].
    + rewrite rmatch_class_nil. exact Hk.
    + rewrite rmatch_class, Hr. exact Hk.
  - inversion Hw as [|? ? Hc Hw']; subst.
    rewrite star_loop_step, clear_caps_nil. cbn [app].
    rewrite rmatch_class, Hc. cbn [ms_pos].
    replace (Nat.eqb (S pos) pos) with false
      by (symmetry; apply Nat.eqb_neq; lia).
    rewrite (IH rest f (S pos) caps Hw' Hr); [reflexivity | simpl in Hf; lia |].
    simpl in Hk. now rewrite Nat.add_succ_r in Hk.
Qed.

Lemma rmatch_ws_success k res w rest pos caps :
  all_space w ->
  match rest with c :: _ => is_space c = false | [] => True end ->
  k (MState (pos + length w) rest caps) = Some res ->
  rmatch re_ws (MState pos (w ++ rest) caps) k = Some res.
Proof.
  intros Hw Hr Hk.
  apply (@star_class_success is_space k res w rest
           (S (length (w ++ rest))) pos caps Hw Hr); [| exact Hk].
  rewrite length_app. lia.
Qed.

Lemma rmatch_plus_success p k res c w rest pos caps :
  p c = true -> Forall (fun x => p x = true) w ->
  match rest with x :: _ => p x = false | [] => True end ->
  k (MState (S pos + length w) rest caps) = Some res ->
  rmatch (RPlus (RChar p)) (MState pos (c :: w ++ rest) caps) k = Some res.
Proof.
  intros Hc Hw Hr Hk. unfold RPlus. rewrite rmatch_seq.
  rewrite rmatch_class, Hc.
  apply (@star_class_success p k res w rest
           (S (length (w ++ rest))) (S pos) caps Hw Hr); [| exact Hk].
  rewrite length_app. lia.
Qed.

Lemma dq_app s r : dq s ++ r = c_dquote :: s ++ c_dquote :: r.
Proof. unfold dq. simpl. now rewrite <- app_assoc. Qed.

Lemma rmatch_time_value_success i v rest pos caps k res :
  v <> [] -> ~ In c_dquote v ->
  k (MState (pos + length (dq v)) rest ((i, v) :: caps)) = Some res ->
  rmatch (re_time_value i) (MState pos (dq v ++ rest) caps) k = Some res.
Proof.
  intros Hne Hq Hk. destruct v as [|c v]; [now elim Hne |].
  assert (Hp : forall x, In x (c :: v) -> negb (N.eqb x c_dquote) = true).
  { intros x Hx. apply negb_true_iff, N.eqb_neq. intros ->. now apply Hq. }
  unfold re_time_value. rewrite dq_app.
  rewrite rmatch_re_seq, rmatch_char. cbv beta.
  rewrite rmatch_re_seq, rmatch_group.
  change ((c :: v) ++ c_dquote :: rest) with (c :: v ++ c_dquote :: rest).
  apply rmatch_plus_success.
  - apply Hp. now left.
  - apply Forall_forall. intros x Hx. apply Hp. now right.
  - reflexivity.
  - unfold set_cap. cbn [ms_pos ms_rest ms_caps].
    replace (S (S pos) + length v - S pos) with (length (c :: v))
      by (cbn [length]; lia).
    change (c :: v ++ c_dquote :: rest) with ((c :: v) ++ c_dquote :: rest).
    rewrite firstn_exact.
    rewrite rmatch_re_seq, rmatch_char. cbv beta. rewrite rmatch_re_seq_nil.
    replace (S (S (S pos) + length v)) with (pos + length (dq (c :: v)));
      [exact Hk |].
    unfold dq. cbn [length]. rewrite length_app. cbn [length]. lia.
Qed.

Lemma rmatch_key_success name w1 w2 rest pos caps k res :
  all_space w1 -> all_space w2 ->
  match rest with c :: _ => is_space c = false | [] => True end ->
  k (MState (pos + length (dq name ++ w1 ++ lit ":" ++ w2)) rest caps)
  = Some res ->
  rmatch (re_key name)
         (MState pos (dq name ++ w1 ++ lit ":" ++ w2 ++ rest) caps) k
  = Some res.
Proof.
  intros H1 H2 Hr Hk. unfold re_key.
  rewrite rmatch_re_seq, rmatch_lit. cbv beta.
  rewrite rmatch_re_seq. apply rmatch_ws_success; [exact H1 | reflexivity |].
  change (lit ":" ++ w2 ++ rest) with (58%N :: w2 ++ rest).
  rewrite rmatch_re_seq, rmatch_char. cbv beta.
  rewrite rmatch_re_seq. apply rmatch_ws_success; [exact H2 | exact Hr |].
  rewrite rmatch_re_seq_nil.
  replace (S (pos + length (dq name) + length w1) + length w2)
    with (pos + length (dq name ++ w1 ++ lit ":" ++ w2)); [exact Hk |].
  rewrite !length_app. cbn [length lit map list_ascii_of_string]. lia.
Qed.

Lemma rmatch_comma_success l w1 w2 rest pos caps k res :
  all_space w1 -> all_space w2 ->
  match rest with c :: _ => is_space c = false | [] => True end ->
  rmatch (re_seq l) (MState (pos + length (w1 ++ lit "," ++ w2)) rest caps) k
  = Some res ->
  rmatch (re_seq (re_ws :: re_char 44 :: re_ws :: l))
         (MState pos (w1 ++ lit "," ++ w2 ++ rest) caps) k
  = Some res.
Proof.
  intros H1 H2 Hr Hk.
  rewrite rmatch_re_seq. apply rmatch_ws_success; [exact H1 | reflexivity |].
  change (lit "," ++ w2 ++ rest) with (44%N :: w2 ++ rest).
  rewrite rmatch_re_seq, rmatch_char. cbv beta.
  rewrite rmatch_re_seq. apply rmatch_ws_success; [exact H2 | exact Hr |].
  replace (S (pos + length w1) + length w2)
    with (pos + length (w1 ++ lit "," ++ w2)); [exact Hk |].
  rewrite !length_app. cbn [length lit map list_ascii_of_string]. lia.
Qed.

(** The body of a quoted text, then its closing quote. *)
Lemma quoted_body_success q k res :
  q <> c_bslash ->
  forall body, escaped_run q body ->
  forall rest fuel pos caps,
    length body < fuel ->
    k (MState (pos + length body) (q :: rest) caps) = Some res ->
    star_loop
      (rmatch (RAlt (RChar (fun c => negb (N.eqb c q || N.eqb c c_bslash)))
                    (RSeq (re_char c_bslash)
                          (RChar (fun c => negb (is_line_terminator c))))))
      [] k fuel (MState pos (body ++ q :: rest) caps)
    = Some res.
Proof.
  intros Hq body Hrun.
  induction Hrun as [|c w Hc1 Hc2 Hw IH|c w Hc Hw IH];
    intros rest fuel pos caps Hf Hk;
    (destruct fuel as [|f]; [simpl in Hf; lia |]).
  - rewrite star_loop_step, clear_caps_nil. cbn [app].
    rewrite rmatch_alt, rmatch_class, rmatch_seq.
    rewrite (@rmatch_char_neq c_bslash q rest pos caps _ Hq).
    rewrite N.eqb_refl. cbn [orb negb or_else].
    simpl in Hk. now rewrite Nat.add_0_r in Hk.
  - rewrite star_loop_step, clear_caps_nil. cbn [app].
    rewrite rmatch_alt, rmatch_class.
    apply N.eqb_neq in Hc1, Hc2. rewrite Hc1, Hc2. cbn [orb negb ms_pos].
    replace (Nat.eqb (S pos) pos) with false
      by (symmetry; apply Nat.eqb_neq; lia).
    rewrite (IH rest f (S pos) caps); [reflexivity | simpl in Hf; lia |].
    simpl in Hk. now rewrite Nat.add_succ_r in Hk.
  - rewrite star_loop_step, clear_caps_nil. cbn [app].
    rewrite rmatch_alt, rmatch_class.
    rewrite (N.eqb_refl c_bslash), orb_true_r. cbn [negb or_else].
    rewrite rmatch_seq, rmatch_char, rmatch_class.
    rewrite Hc. cbn [negb ms_pos].
    replace (Nat.eqb (S (S pos)) pos) with false
      by (symmetry; apply Nat.eqb_neq; lia).
    rewrite (IH rest f (S (S pos)) caps); [reflexivity | simpl in Hf; lia |].
    simpl in Hk. now rewrite !Nat.add_succ_r in Hk.
Qed.

Lemma rmatch_quoted_success i q body rest pos caps k res :
  q <> c_bslash -> escaped_run q body ->
  k (MState (pos + length (q :: body ++ [q])) rest ((i, body) :: caps))
  = Some res ->
  rmatch (re_seq [re_char q; RGroup i (re_quoted_body q); re_char q])
         (MState pos (q :: body ++ q :: rest) caps) k
  = Some res.
Proof.
  intros Hq Hrun Hk.
  rewrite rmatch_re_seq, rmatch_char. cbv beta.
  rewrite rmatch_re_seq, rmatch_group. unfold re_quoted_body.
  apply (@quoted_body_success q _ res Hq body Hrun rest
           (S (length (body ++ q :: rest))) (S pos) caps).
  - rewrite length_app. lia.
  - unfold set_cap. cbn [ms_pos ms_rest ms_caps].
    replace (S pos + length body - S pos) with (length body) by lia.
    rewrite firstn_exact.
    rewrite rmatch_re_seq, rmatch_char. cbv beta. rewrite rmatch_re_seq_nil.
    replace (S (S pos + length body)) with (pos + length (q :: body ++ [q]));
      [exact Hk |].
    cbn [length]. rewrite length_app. cbn [length]. lia.
Qed.

(** Completeness of the scraping pattern: a fragment of the segment shape
    is matched wherever it stands, whatever follows it, with the two
    timestamps and the text as captures. *)
Lemma segmentRegex_complete frag sv ev q body pos post :
  segment_shape frag sv ev q body ->
  exists n,
    match_at segmentRegex pos (frag ++ post)
    = Some (MState n post
              [((if N.eqb q c_dquote then 3 else 4), body); (2, ev); (1, sv)]).
Proof.
  intros (w1 & w2 & w3 & w4 & w5 & w6 & w7 & w8 & w9 & w10 & w11
          & -> & W & Hsv & Qsv & Hev & Qev & Hq & Hrun).
  repeat match goal with
  | H : Forall all_space (_ :: _) |- _ => inversion H; subst; clear H
  end.
  assert (Hqs : is_space q = false) by (destruct Hq as [-> | ->]; reflexivity).
  assert (Hqb : q <> c_bslash) by (destruct Hq as [-> | ->]; discriminate).
  destruct Hq as [-> | ->]; eexists; unfold match_at, segmentRegex.
  all: repeat rewrite <- app_assoc.
  all: change (lit "{" ++ ?x) with (123%N :: x).
  all: rewrite rmatch_re_seq, rmatch_char; cbv beta.
  all: rewrite rmatch_re_seq;
    apply rmatch_ws_success; [assumption | reflexivity |].
  all: rewrite rmatch_re_seq;
    apply rmatch_key_success; [assumption | assumption | reflexivity |].
  all: rewrite rmatch_re_seq;
    apply rmatch_time_value_success; [assumption | assumption |].
  all: apply rmatch_comma_success; [assumption | assumption | reflexivity |].
  all: rewrite rmatch_re_seq;
    apply rmatch_key_success; [assumption | assumption | reflexivity |].
  all: rewrite rmatch_re_seq;
    apply rmatch_time_value_success; [assumption | assumption |].
  all: apply rmatch_comma_success; [assumption | assumption | reflexivity |].
  all: rewrite rmatch_re_seq;
    apply rmatch_key_success; [assumption | assumption | exact Hqs |].
  all: rewrite rmatch_re_seq.
  all: change ([?q] ++ body ++ [?q] ++ post) with (q :: body ++ q :: post).
  all: rewrite rmatch_alt.
  - match goal with
    | |- or_else ?x _ = Some ?r =>
        assert (Hx : x = Some r); [| rewrite Hx; reflexivity]
    end.
    apply rmatch_quoted_success; [exact Hqb | exact Hrun |].
    rewrite rmatch_re_seq_nil. reflexivity.
  - rewrite (rmatch_re_seq (re_char c_dquote)).
    rewrite rmatch_char_neq by discriminate. cbn [or_else].
    apply rmatch_quoted_success; [exact Hqb | exact Hrun |].
    rewrite rmatch_re_seq_nil. reflexivity.
Qed.

Lemma segment_of_match_caps q n r sv ev body :
  q = c_dquote \/ q = c_squote ->
  segment_of_match
    (MState n r [((if N.eqb q c_dquote then 3 else 4), body); (2, ev); (1, sv)])
  = JObj [(key_startTime, JStr sv); (key_endTime, JStr ev);
          (key_text, unescape_text body)].
Proof. intros [-> | ->]; reflexivity. Qed.

Lemma segment_shape_quote frag sv ev q body :
  segment_shape frag sv ev q body -> q = c_dquote \/ q = c_squote.
Proof.
  intros (w1 & w2 & w3 & w4 & w5 & w6 & w7 & w8 & w9 & w10 & w11
          & _ & _ & _ & _ & _ & _ & Hq & _). exact Hq.
Qed.

(** X24. The scraping pattern recognises every fragment of the segment
    shape: wherever such a fragment stands and whatever follows it, the
    pattern matches there, stops at the end of the fragment, and the segment
    made from the match has the two timestamps of the fragment and its
    text, unescaped. *)
Theorem segmentRegex_recognises_shape
    (frag sv ev : jstring) (q : jchar) (body : jstring)
    (pos : nat) (post : jstring) :
  segment_shape frag sv ev q body ->
  exists st,
    match_at segmentRegex pos (frag ++ post) = Some st
    /\ ms_rest st = post
    /\ segment_of_match st
       = JObj [(key_startTime, JStr sv); (key_endTime, JStr ev);
               (key_text, unescape_text body)].
Proof.
  intros H.
  destruct (@segmentRegex_complete frag sv ev q body pos post H) as (n & E).
  eexists. split; [exact E |]. split; [reflexivity |].
  apply segment_of_match_caps. exact (segment_shape_quote H).
Qed.

Lemma quoted_fragment_shape :
  segment_shape quoted_fragment_read (lit "00:00:01.000") (lit "00:00:02.000")
                c_squote (lit "it\'s ok").
Proof.
  exists [], [], (lit " "), [], (lit " "), [], (lit " "), [], (lit " "), [],
         (lit " ").
  split; [reflexivity |].
  split; [repeat constructor |].
  split; [discriminate |].
  split; [vm_compute; intros H; repeat (destruct H as [H | H]; [discriminate H |]);
          exact H |].
  split; [discriminate |].
  split; [vm_compute; intros H; repeat (destruct H as [H | H]; [discriminate H |]);
          exact H |].
  split; [now right |].
  cbv [lit app map list_ascii_of_string N_of_ascii N_of_digits c_squote].
  repeat first
    [ apply ER_nil
    | apply ER_escape; [reflexivity |]
    | apply ER_plain; [discriminate | discriminate |] ].
Qed.

Lemma segmentRegex_recognises_shape_witness :
  exists st,
    match_at segmentRegex 7 (quoted_fragment_read ++ lit "}, ...") = Some st
    /\ ms_rest st = lit "}, ..."
    /\ segment_of_match st = quoted_fragment_segment.
Proof.
  destruct (@segmentRegex_recognises_shape quoted_fragment_read
              (lit "00:00:01.000") (lit "00:00:02.000") c_squote
              (lit "it\'s ok") 7 (lit "}, ...") quoted_fragment_shape)
    as (st & E1 & E2 & E3).
  exists st. split; [exact E1 |]. split; [exact E2 |].
  rewrite E3. vm_compute. reflexivity.
Defined.

(** *** Texts that hold a fragment *)

Lemma segment_shape_ends frag sv ev q body :
  segment_shape frag sv ev q body ->
  exists f, frag = 123%N :: f ++ [q] /\ is_space q = false.
Proof.
  intros (w1 & w2 & w3 & w4 & w5 & w6 & w7 & w8 & w9 & w10 & w11
          & -> & _ & _ & _ & _ & _ & Hq & _).
  eexists. split.
  - change (lit "{" ++ ?x) with (123%N :: x). f_equal.
    repeat rewrite app_assoc. reflexivity.
  - destruct Hq as [-> | ->]; reflexivity.
Qed.

Lemma trim_around_shape pre frag post sv ev q body :
  segment_shape frag sv ev q body ->
  trim (pre ++ frag ++ post) = trim_start pre ++ frag ++ trim_end post.
Proof.
  intros H. destruct (segment_shape_ends H) as (f & -> & Hq).
  unfold trim.
  change ((123%N :: f ++ [q]) ++ post) with (123%N :: (f ++ [q]) ++ post).
  rewrite (@trim_start_app pre 123%N _ eq_refl).
  replace (trim_start pre ++ 123%N :: (f ++ [q]) ++ post)
    with ((trim_start pre ++ 123%N :: f) ++ q :: post)
    by (repeat (rewrite <- ?app_assoc; cbn [app]); reflexivity).
  rewrite (@trim_end_app _ q post Hq).
  repeat (rewrite <- ?app_assoc; cbn [app]). reflexivity.
Qed.

Lemma rsearch_finds r s : forall a pos,
  match_at r (pos + length a) s <> None -> rsearch r pos (a ++ s) <> None.
Proof.
  induction a as [|x a IH]; intros pos H.
  - simpl in *. rewrite Nat.add_0_r in H.
    destruct s; cbn [rsearch]; destruct (match_at r pos _); congruence.
  - cbn [app rsearch]. destruct (match_at r pos (x :: a ++ s)); [discriminate |].
    apply IH. simpl in H. now rewrite Nat.add_succ_r in H.
Qed.

(** X25. The recovery never gives up on a text that holds a fragment of the
    segment shape: whatever surrounds the fragment, [tryRepairJson] returns
    a value and does not throw. *)
Theorem tryRepairJson_finds_fragment
    (pre frag post sv ev : jstring) (q : jchar) (body : jstring) :
  segment_shape frag sv ev q body ->
  exists v, tryRepairJson (pre ++ frag ++ post) = Returns v.
Proof.
  intros H. unfold tryRepairJson.
  destruct (tier1 _); [eexists; reflexivity |].
  destruct (tier2 _); [eexists; reflexivity |].
  rewrite (trim_around_shape pre post H).
  destruct (tier3 _) as [[|s l]|] eqn:E; [| eexists; reflexivity |].
  - exfalso. apply tier3_empty_iff in E. unfold scraping_finds_nothing in E.
    revert E. apply rsearch_finds.
    destruct (@segmentRegex_complete frag sv ev q body
                (0 + length (trim_start pre)) (trim_end post) H) as (n & ->).
    discriminate.
  - now apply tier3_total in E.
Qed.

Lemma tryRepairJson_finds_fragment_witness :
  exists v,
    tryRepairJson (lit "Sure! Here it is: " ++ quoted_fragment_read ++ lit " ...")
    = Returns v.
Proof.
  exact (@tryRepairJson_finds_fragment (lit "Sure! Here it is: ")
           quoted_fragment_read (lit " ...") _ _ _ _ quoted_fragment_shape).
Defined.

(** X26. When tiers 1 and 2 fail on a text that holds a fragment of the
    segment shape, and the key startTime occurs nowhere before or after the
    fragment, the recovery returns exactly one segment: the two timestamps
    of the fragment and its text, unescaped. *)
Theorem tryRepairJson_single_fragment
    (pre frag post sv ev : jstring) (q : jchar) (body : jstring) :
  segment_shape frag sv ev q body ->
  includes (dq key_startTime) pre = false ->
  includes (dq key_startTime) post = false ->
  tier1 (trim (pre ++ frag ++ post)) = None ->
  tier2 (trim (pre ++ frag ++ post)) = None ->
  tryRepairJson (pre ++ frag ++ post)
  = Returns (segments_object
               [JObj [(key_startTime, JStr sv); (key_endTime, JStr ev);
                      (key_text, unescape_text body)]]).
Proof.
  intros H Hpre Hpost T1 T2. unfold tryRepairJson. rewrite T1, T2.
  rewrite (trim_around_shape pre post H).
  apply includes_trim_start in Hpre. apply includes_trim_end in Hpost.
  set (pre' := trim_start pre) in *. set (post' := trim_end post) in *.
  destruct (@segmentRegex_complete frag sv ev q body
              (0 + length pre') post' H) as (n & Em).
  destruct (segment_shape_ends H) as (f & Ef & _).
  unfold tier3.
  assert (Hfuel : exists m, length (pre' ++ frag ++ post') = S m).
  { rewrite Ef. exists (length pre' + length ((f ++ [q]) ++ post')).
    change ((123%N :: f ++ [q]) ++ post') with (123%N :: (f ++ [q]) ++ post').
    rewrite length_app. cbn [length]. lia. }
  destruct Hfuel as (m & ->).
  rewrite (@scan_single_match m _ (0 + length pre')
             (MState n post'
                [((if N.eqb q c_dquote then 3 else 4), body); (2, ev); (1, sv)])).
  - cbn [map snd]. rewrite (segment_of_match_caps _ _ _ _ _ (segment_shape_quote H)).
    reflexivity.
  - rewrite Ef in *.
    change ((123%N :: f ++ [q]) ++ post') with (123%N :: (f ++ [q]) ++ post') in *.
    rewrite (rsearch_skip_prefix _ _ 0 Hpre).
    cbn [rsearch]. rewrite Em. reflexivity.
  - cbn [ms_pos ms_rest]. now apply rsearch_without_key.
Qed.

Lemma tryRepairJson_single_fragment_witness :
  tryRepairJson (wrapped_pre ++ quoted_fragment_read ++ lit "}" ++ wrapped_post)
  = Returns (segments_object
               [JObj [(key_startTime, JStr (lit "00:00:01.000"));
                      (key_endTime, JStr (lit "00:00:02.000"));
                      (key_text, unescape_text (lit "it\'s ok"))]]).
Proof.
  apply (@tryRepairJson_single_fragment wrapped_pre quoted_fragment_read
           (lit "}" ++ wrapped_post) _ _ _ _ quoted_fragment_shape);
    vm_compute; reflexivity.
Defined.

(** ** Text after a complete document *)

Lemma nonspace_not_json_ws c : is_space c = false -> is_json_ws c = false.
Proof.
  intros H. destruct (is_json_ws c) eqn:E; [| reflexivity].
  apply json_ws_space in E. congruence.
Qed.

Lemma skip_ws_nonspace y c :
  In c y -> is_space c = false -> skip_ws y <> [].
Proof.
  intros Hin Hc E. apply skip_ws_all in E. unfold all_json_ws in E.
  rewrite Forall_forall in E. specialize (E c Hin).
  rewrite (nonspace_not_json_ws _ Hc) in E. discriminate.
Qed.

Lemma trim_end_keeps_nonspace s c :
  In c s -> is_space c = false -> In c (trim_end s).
Proof.
  intros Hin Hc. apply in_split in Hin. destruct Hin as (l1 & l2 & ->).
  rewrite (@trim_end_app l1 c l2 Hc). apply in_or_app. right. now left.
Qed.

(** X27. Text after a complete document defeats the two parsing tiers: when
    a text that reads as an object is followed by anything that is not
    white space and holds no closing brace, the direct parse fails on the
    trailing text and the truncation repair fails on the bracket and brace
    it appends after the complete document; only the scraping tier is left,
    and the call throws when it finds nothing. *)
Theorem trailing_text_defeats_parsing
    (doc : jstring) (o : json) (garbage : jstring) (c : jchar) :
  object_text doc o ->
  ~ In 125%N garbage ->
  In c garbage -> is_space c = false ->
  tier1 (trim (doc ++ garbage)) = None
  /\ tier2 (trim (doc ++ garbage)) = None
  /\ (scraping_finds_nothing (trim (doc ++ garbage)) ->
      tryRepairJson (doc ++ garbage) = Throws structure_invalid).
Proof.
  intros Hdoc Hg Hin Hc.
  destruct (@object_text_reads doc o Hdoc)
    as (w0 & r & Et & Wr & (ws & x & Eh & Wh) & Hread).
  destruct (@braced_text ws x w0 Eh) as (p & Ex).
  set (y := trim_end (r ++ garbage)).
  assert (Hy : ~ In 125%N y).
  { apply not_in_trim_end. intros H. apply in_app_or in H.
    destruct H as [H | H]; [now apply (all_json_ws_no_brace Wr) | now apply Hg]. }
  assert (Hys : skip_ws y <> []).
  { apply (@skip_ws_nonspace y c); [| exact Hc].
    apply trim_end_keeps_nonspace; [| exact Hc].
    apply in_or_app. now right. }
  assert (ET : trim (doc ++ garbage) = (123%N :: x) ++ y).
  { rewrite Et. change (w0 ++ 125%N :: r) with (w0 ++ [125%N] ++ r).
    rewrite app_assoc, Eh.
    replace (((ws ++ 123%N :: x) ++ r) ++ garbage)
      with (ws ++ ((123%N :: x) ++ r ++ garbage) ++ [])
      by (rewrite app_nil_r; repeat rewrite <- app_assoc; reflexivity).
    rewrite (@trim_around ws _ [] (all_json_ws_space Wh) ltac:(constructor)).
    rewrite Ex.
    replace (((123%N :: p) ++ [125%N]) ++ r ++ garbage)
      with ((123%N :: p) ++ 125%N :: (r ++ garbage))
      by (rewrite <- app_assoc; reflexivity).
    rewrite (trim_braced p (r ++ garbage)).
    rewrite <- app_assoc. reflexivity. }
  assert (Hparse : forall r', JSON_parse ((123%N :: x) ++ r')
                              = match skip_ws r' with
                                | [] => Some o
                                | _ :: _ => None
                                end).
  { intros r'. unfold JSON_parse.
    specialize (Hread (2 * length ((ws ++ 123%N :: x) ++ r') + 2) r').
    rewrite Eh in Hread. rewrite <- app_assoc in Hread.
    rewrite (@parse_value_skip_ws ws _ _ Wh) in Hread.
    rewrite (@parse_value_enough (2 * length ((123%N :: x) ++ r') + 2)
               (2 * length (ws ++ (123%N :: x) ++ r') + 2)
               ((123%N :: x) ++ r'))
      by (rewrite ?length_app; cbn [length]; rewrite ?length_app; lia).
    rewrite Hread by lia. reflexivity. }
  assert (T1 : tier1 (trim (doc ++ garbage)) = None).
  { unfold tier1. rewrite ET, Hparse. destruct (skip_ws y); [now elim Hys | reflexivity]. }
  assert (T2 : tier2 (trim (doc ++ garbage)) = None).
  { unfold tier2, repaired_text. rewrite ET, Ex.
    replace (((123%N :: p) ++ [125%N]) ++ y)
      with ((123%N :: p) ++ 125%N :: y)
      by (rewrite <- app_assoc; reflexivity).
    rewrite (@lastIndexOf_last 125%N (123%N :: p) y Hy), firstn_through.
    rewrite <- Ex, Hparse. reflexivity. }
  split; [exact T1 |]. split; [exact T2 |].
  intros H3. unfold tryRepairJson. rewrite T1, T2.
  apply tier3_empty_iff in H3. now rewrite H3.
Qed.

Lemma trailing_text_defeats_parsing_witness :
  JSON_parse reordered_doc <> None
  /\ tryRepairJson remarked_doc = Throws structure_invalid.
Proof.
  split; [vm_compute; discriminate |].
  assert (Hdoc : object_text reordered_doc
                   (segments_object
                      [JObj [(key_endTime, JStr (lit "00:00:02.000"));
                             (key_startTime, JStr (lit "00:00:01.000"));
                             (key_text, JStr (lit "one"))]])).
  { split; reflexivity. }
  assert (Hg : ~ In 125%N (lit " Hope this helps!")).
  { vm_compute. intros H.
    repeat (destruct H as [H | H]; [discriminate H |]). exact H. }
  apply (proj2 (proj2 (@trailing_text_defeats_parsing reordered_doc _
                         (lit " Hope this helps!") 72%N Hdoc Hg
                         ltac:(vm_compute; tauto) eq_refl))).
  vm_compute. reflexivity.
Defined.

(** ** The order of the recovered segments *)

(** *** The scanning loop misses no match *)

Lemma rsearch_leftmost r : forall s pos start st,
  rsearch r pos s = Some (start, st) ->
  forall i, pos + i < start -> match_at r (pos + i) (skipn i s) = None.
Proof.
  induction s as [|c s IH]; intros pos start st H i Hi; cbn [rsearch] in H.
  - destruct (match_at r pos []); [| discriminate].
    injection H as <- <-. lia.
  - destruct (match_at r pos (c :: s)) eqn:E.
    + injection H as <- <-. lia.
    + destruct i as [|i].
      * rewrite Nat.add_0_r. exact E.
      * cbn [skipn]. replace (pos + S i) with (S pos + i) by lia.
        apply (IH _ _ _ H). lia.
Qed.

Lemma rsearch_none_all r : forall s pos,
  rsearch r pos s = None ->
  forall i, i <= length s -> match_at r (pos + i) (skipn i s) = None.
Proof.
  induction s as [|c s IH]; intros pos H i Hi; cbn [rsearch] in H.
  - destruct (match_at r pos []) eqn:E; [discriminate |].
    simpl in Hi. replace i with 0 by lia. rewrite Nat.add_0_r. exact E.
  - destruct (match_at r pos (c :: s)) eqn:E; [discriminate |].
    destruct i as [|i].
    + rewrite Nat.add_0_r. exact E.
    + cbn [skipn]. replace (pos + S i) with (S pos + i) by lia.
      apply (IH _ H). simpl in Hi. lia.
Qed.

Lemma skipn_past (done s : jstring) p :
  length done <= p -> skipn p (done ++ s) = skipn (p - length done) s.
Proof.
  intros H. rewrite skipn_app.
  rewrite skipn_all2 by exact H. reflexivity.
Qed.

Lemma scan_matches_exhaustive : forall fuel done s ms,
  scan_matches fuel (length done) s = Some ms ->
  forall p st,
    length done <= p <= length (done ++ s) ->
    match_at segmentRegex p (skipn p (done ++ s)) = Some st ->
    exists m, In m ms /\ fst m <= p < ms_pos (snd m).
Proof.
  induction fuel as [|f IH]; intros done s ms H p st0 Hp Hm;
    cbn [scan_matches] in H; [discriminate |].
  rewrite length_app in Hp.
  destruct (rsearch segmentRegex (length done) s) as [[start st] |] eqn:E.
  2:{ apply rsearch_none_all with (i := p - length done) in E; [| lia].
      rewrite skipn_past in Hm by lia.
      replace (length done + (p - length done)) with p in E by lia.
      congruence. }
  destruct (scan_matches f (ms_pos st) (ms_rest st)) as [l |] eqn:El;
    [| discriminate].
  injection H as <-.
  destruct (Nat.lt_ge_cases p start) as [Hlt | Hge].
  { apply rsearch_leftmost with (i := p - length done) in E; [| lia].
    rewrite skipn_past in Hm by lia.
    replace (length done + (p - length done)) with p in E by lia.
    congruence. }
  destruct (Nat.lt_ge_cases p (ms_pos st)) as [Hin | Hout].
  { exists (start, st). split; [now left |]. simpl. lia. }
  apply rsearch_found in E. destruct E as (pre & s' & -> & -> & Hs).
  destruct (match_at_segment _ _ Hs) as (frag & sv & ev & q & body & C & _ & _ & _).
  destruct C as [Cr Cp]. simpl in Cr, Cp.
  assert (Hpos : ms_pos st = length (done ++ pre ++ frag)).
  { rewrite Cp, !length_app. lia. }
  assert (Etext : done ++ pre ++ s' = (done ++ pre ++ frag) ++ ms_rest st).
  { rewrite Cr, <- !app_assoc. reflexivity. }
  rewrite Hpos in El. rewrite Etext in Hm.
  destruct (IH _ _ _ El p st0) as (m & Hm1 & Hm2).
  - split; [rewrite <- Hpos; exact Hout |].
    rewrite <- Etext. repeat rewrite length_app in *. lia.
  - exact Hm.
  - exists m. split; [now right | exact Hm2].
Qed.

Lemma match_at_nil pos : match_at segmentRegex pos [] = None.
Proof. reflexivity. Qed.

(** Every place of the text where the pattern matches lies within one of
    the matches of the loop. *)
Lemma tier3_exhaustive t ms :
  scan_matches (S (length t)) 0 t = Some ms ->
  forall p st,
    match_at segmentRegex p (skipn p t) = Some st ->
    exists m, In m ms /\ fst m <= p < ms_pos (snd m).
Proof.
  intros H p st Hm.
  destruct (Nat.le_gt_cases p (length t)) as [Hle | Hgt].
  - apply (@scan_matches_exhaustive _ [] t ms H p st); [simpl; lia | exact Hm].
  - rewrite skipn_all2 in Hm by lia. rewrite match_at_nil in Hm. discriminate.
Qed.

(** *** Texts made of fragments *)

Lemma trim_end_fragments : forall fs post,
  Forall well_scraped fs ->
  trim_end (fragments_text fs post) = fragments_text fs (trim_end post).
Proof.
  induction fs as [|f fs IH]; intros post H; [reflexivity |].
  inversion H as [|? ? [Hs _] Hfs]; subst. cbn [fragments_text fold_right].
  fold (fragments_text fs post). fold (fragments_text fs (trim_end post)).
  destruct (segment_shape_ends Hs) as (b & -> & Hq).
  replace (sc_before f ++ (123%N :: b ++ [sc_quote f]) ++ fragments_text fs post)
    with ((sc_before f ++ 123%N :: b) ++ sc_quote f :: fragments_text fs post)
    by (repeat (rewrite <- ?app_assoc; cbn [app]); reflexivity).
  rewrite (@trim_end_app _ _ _ Hq), (IH _ Hfs).
  repeat (rewrite <- ?app_assoc; cbn [app]). reflexivity.
Qed.

Lemma fragments_text_length fs post : length post <= length (fragments_text fs post).
Proof.
  induction fs as [|f fs IH]; [apply Nat.le_refl |].
  cbn [fragments_text fold_right]. fold (fragments_text fs post).
  rewrite !length_app. lia.
Qed.

(** The loop on a text made of fragments: one match per fragment, in the
    order of the fragments, whether or not two of them are equal. *)
Lemma scan_fragments : forall fs post fuel pos,
  Forall well_scraped fs ->
  includes (dq key_startTime) post = false ->
  length (fragments_text fs post) < fuel ->
  exists ms,
    scan_matches fuel pos (fragments_text fs post) = Some ms
    /\ map (fun m => segment_of_match (snd m)) ms = map scraped_segment fs.
Proof.
  induction fs as [|f fs IH]; intros post fuel pos H Hpost Hfuel.
  - destruct fuel as [|fuel]; [lia |]. exists []. cbn [scan_matches fragments_text fold_right].
    rewrite (rsearch_without_key _ _ Hpost). split; reflexivity.
  - inversion H as [|? ? [Hs Hb] Hfs]; subst.
    destruct fuel as [|fuel]; [lia |].
    cbn [fragments_text fold_right] in *. fold (fragments_text fs post) in *.
    destruct (@segmentRegex_complete _ _ _ _ _ (pos + length (sc_before f))
                (fragments_text fs post) Hs) as (n & Em).
    destruct (segment_shape_ends Hs) as (b & Eb & _).
    destruct (IH post fuel n Hfs Hpost) as (ms & Es & Emap).
    { rewrite Eb in Hfuel. rewrite !length_app in Hfuel. cbn [length] in Hfuel. lia. }
    exists ((pos + length (sc_before f),
             MState n (fragments_text fs post)
               [((if N.eqb (sc_quote f) c_dquote then 3 else 4), sc_body f);
                (2, sc_end f); (1, sc_start f)]) :: ms).
    cbn [scan_matches].
    assert (Er : rsearch segmentRegex pos
                   (sc_before f ++ sc_frag f ++ fragments_text fs post)
                 = Some (pos + length (sc_before f),
                         MState n (fragments_text fs post)
                           [((if N.eqb (sc_quote f) c_dquote then 3 else 4), sc_body f);
                            (2, sc_end f); (1, sc_start f)])).
    { revert Em. rewrite Eb.
      change ((123%N :: b ++ [sc_quote f]) ++ fragments_text fs post)
        with (123%N :: (b ++ [sc_quote f]) ++ fragments_text fs post).
      intros Em. rewrite (rsearch_skip_prefix _ _ pos Hb).
      cbn [rsearch]. rewrite Em. reflexivity. }
    rewrite Er. cbn [ms_pos ms_rest]. rewrite Es. split; [reflexivity |].
    cbn [map snd]. rewrite Emap.
    rewrite (segment_of_match_caps _ _ _ _ _ (segment_shape_quote Hs)).
    reflexivity.
Qed.

Lemma tier3_fragments fs post :
  Forall well_scraped fs ->
  includes (dq key_startTime) post = false ->
  tier3 (trim (fragments_text fs post)) = Some (map scraped_segment fs).
Proof.
  intros H Hpost. unfold trim.
  destruct fs as [|f fs].
  - cbn [fragments_text fold_right map]. fold (trim post).
    apply tier3_empty_iff. unfold scraping_finds_nothing.
    apply rsearch_without_key. unfold trim.
    now apply includes_trim_end, includes_trim_start.
  - inversion H as [|? ? [Hs Hb] Hfs]; subst.
    cbn [fragments_text fold_right]. fold (fragments_text fs post).
    fold (trim (sc_before f ++ sc_frag f ++ fragments_text fs post)).
    rewrite (trim_around_shape _ _ Hs), (trim_end_fragments _ Hfs).
    unfold tier3.
    destruct (@scan_fragments
                (Scraped (trim_start (sc_before f)) (sc_frag f) (sc_start f)
                         (sc_end f) (sc_quote f) (sc_body f) :: fs)
                (trim_end post)
                (S (length (trim_start (sc_before f) ++ sc_frag f
                            ++ fragments_text fs (trim_end post)))) 0)
      as (ms & Es & Emap).
    + constructor; [| exact Hfs]. split; [exact Hs |].
      now apply includes_trim_start.
    + now apply includes_trim_end.
    + apply Nat.lt_succ_diag_r.
    + cbn [fragments_text fold_right sc_before sc_frag] in Es.
      fold (fragments_text fs (trim_end post)) in Es.
      rewrite Es, Emap. reflexivity.
Qed.

(** *** The client on the scraped segments *)

Lemma unescape_text_string rawText :
  unescape_text rawText = JStr (unescaped rawText).
Proof.
  unfold unescaped, unescape_text. rewrite JSON_parse_string.
  destruct (parse_string_body _) as [[str r1] |]; [| reflexivity].
  destruct (skip_ws r1); reflexivity.
Qed.

Lemma convert_scraped_segment f :
  convert_segment (scraped_segment f) = Returns (scraped_output f).
Proof.
  unfold convert_segment, scraped_segment, scraped_output.
  rewrite unescape_text_string. reflexivity.
Qed.

Lemma mapM_scraped fs :
  mapM convert_segment (map scraped_segment fs) = Returns (map scraped_output fs).
Proof.
  induction fs as [|f fs IH]; [reflexivity |].
  cbn [map mapM]. rewrite convert_scraped_segment. cbn [bind].
  rewrite IH. reflexivity.
Qed.

Lemma fragments_text_nonempty f fs post :
  well_scraped f -> exists c t, fragments_text (f :: fs) post = c :: t.
Proof.
  intros [Hs _]. destruct (segment_shape_ends Hs) as (b & Eb & _).
  cbn [fragments_text fold_right]. rewrite Eb.
  destruct (sc_before f) as [|c r]; simpl; eexists; eexists; reflexivity.
Qed.

(** C6. Recovery and normalisation keep the segments in the order of the
    text, and neither drop nor merge any.  Whatever [tryRepairJson] returns
    holds a segments array that is either the array [JSON.parse] produced
    (tiers 1 and 2), returned as it is, or the list of the matches of the
    pattern (tier 3): one segment per match, the matches being at strictly
    increasing positions of the text, and no match being left out, for
    every place of the text where the pattern matches lies within one of
    them.  The client then maps this array element by element, each output
    segment being the conversion of the input segment at the same index.
    For the parsed tiers, the objects of a complete or truncated document
    come out in the order of their texts.  For the scraping tier, a text
    made of fragments of the segment shape, with the key startTime nowhere
    between them, gives one segment per fragment, in the order of the
    fragments, equal fragments included; when the parsing tiers fail on it,
    this is what [tryRepairJson] returns and what the client converts, one
    normalised segment per fragment. *)
Theorem recovery_preserves_order :
  (forall text v,
      tryRepairJson text = Returns v ->
      exists segs,
        get_prop v key_segments = Returns (Some (JArr segs))
        /\ (JSON_parse (trim text) = Some v
            \/ (exists i, lastIndexOf 125 (trim text) = Some i
                          /\ JSON_parse (repaired_text (trim text) i) = Some v)
            \/ (exists ms,
                   v = segments_object segs
                   /\ segs = map (fun m => segment_of_match (snd m)) ms
                   /\ Forall (match_in (trim text)) ms
                   /\ StronglySorted lt (map fst ms)
                   /\ (forall p st,
                          match_at segmentRegex p (skipn p (trim text)) = Some st ->
                          exists m, In m ms /\ fst m <= p < ms_pos (snd m))))
        /\ (forall t c out,
               strip_fences (c :: t) = text ->
               transcribe_response (Response (Some (c :: t))) = Returns out ->
               Forall2 (fun s o => convert_segment s = Returns o) segs out))
  /\ (forall a1 a2 a3 a4 a5 ts os tail,
         all_json_ws a1 -> all_json_ws a2 -> all_json_ws a3 ->
         all_json_ws a4 -> all_json_ws a5 ->
         Forall2 object_text ts os -> ts <> [] -> ~ In 125%N tail ->
         tryRepairJson (segments_doc a1 a2 a3 ts a4 a5)
         = Returns (segments_object os)
         /\ tryRepairJson (truncated_doc a1 a2 a3 ts tail)
            = Returns (segments_object os))
  /\ (forall fs post,
         Forall well_scraped fs ->
         includes (dq key_startTime) post = false ->
         tier3 (trim (fragments_text fs post)) = Some (map scraped_segment fs)
         /\ (fs <> [] ->
             tier1 (trim (fragments_text fs post)) = None ->
             tier2 (trim (fragments_text fs post)) = None ->
             tryRepairJson (fragments_text fs post)
             = Returns (segments_object (map scraped_segment fs))
             /\ (starts_with fence (trim (fragments_text fs post)) = false ->
                 transcribe_response (Response (Some (fragments_text fs post)))
                 = Returns (map scraped_output fs)))).
Proof.
  split; [| split].
  - intros text v H.
    assert (Hsegs : exists segs,
               get_prop v key_segments = Returns (Some (JArr segs))).
    { destruct (tryRepairJson_returns _ H) as [T | [[_ T] | (_ & _ & segs & _ & ->)]].
      - apply (tier_value_segments T). intros w Hw. rewrite T in Hw.
        injection Hw as <-. now apply tier1_has_segments in T.
      - apply (tier_value_segments T). intros w Hw. rewrite T in Hw.
        injection Hw as <-. now apply tier2_has_segments in T.
      - exists segs. reflexivity. }
    destruct Hsegs as (segs & Hsegs). exists segs.
    split; [exact Hsegs |]. split.
    + destruct (tryRepairJson_returns _ H) as [T | [[_ T] | (_ & _ & segs' & T & ->)]].
      * left. unfold tier1 in T. destruct (JSON_parse (trim text)); [| discriminate].
        destruct (has_segments_array j); [| discriminate]. now injection T as ->.
      * right. left. unfold tier2 in T.
        destruct (lastIndexOf 125 (trim text)) as [i |]; [| discriminate].
        exists i. split; [reflexivity |].
        destruct (JSON_parse (repaired_text (trim text) i)); [| discriminate].
        destruct (has_segments_array j); [| discriminate]. now injection T as ->.
      * right. right. simpl in Hsegs. injection Hsegs as <-.
        unfold tier3 in T.
        destruct (scan_matches (S (length (trim text))) 0 (trim text))
          as [ms |] eqn:E; [| discriminate].
        injection T as <-. exists ms.
        pose proof (@tier3_exhaustive _ _ E) as X.
        apply (scan_matches_located _ []) in E. destruct E as (L & S & _).
        auto.
    + intros t c out <- Hout. unfold transcribe_response in Hout.
      simpl resp_text in Hout. cbv iota in Hout. rewrite H in Hout.
      simpl bind in Hout. unfold segments_or_empty in Hout.
      rewrite Hsegs in Hout. simpl bind in Hout.
      now apply mapM_Forall2.
  - intros a1 a2 a3 a4 a5 ts os tail W1 W2 W3 W4 W5 Hts Hne Htail. split.
    + unfold tryRepairJson, tier1.
      assert (Et : trim (segments_doc a1 a2 a3 ts a4 a5)
                   = segments_doc a1 a2 a3 ts a4 a5).
      { unfold segments_doc. rewrite segments_doc_open_app.
        change (lit "}") with [125%N]. unfold trim.
        rewrite trim_start_nonspace by reflexivity.
        match goal with
        | |- trim_end ?s = _ =>
            replace s with (removelast s ++ 125%N :: [])
        end.
        - rewrite trim_end_app by reflexivity. reflexivity.
        - symmetry. rewrite !app_comm_cons, !app_assoc.
          rewrite removelast_last. reflexivity. }
      rewrite Et, (direct_parse_doc W1 W2 W3 W4 W5 Hts Hne). reflexivity.
    + destruct (@truncated_doc_tiers a1 a2 a3 ts os tail W1 W2 W3 Hts Hne Htail)
        as [T1 T2].
      unfold tryRepairJson. now rewrite T1, T2.
  - intros fs post Hfs Hpost.
    pose proof (@tier3_fragments fs post Hfs Hpost) as T3.
    split; [exact T3 |].
    intros Hne T1 T2.
    assert (R : tryRepairJson (fragments_text fs post)
                = Returns (segments_object (map scraped_segment fs))).
    { unfold tryRepairJson. rewrite T1, T2, T3.
      destruct fs as [|f fs]; [now elim Hne | reflexivity]. }
    split; [exact R |].
    intros Hf.
    destruct fs as [|f fs]; [now elim Hne |].
    inversion Hfs as [|? ? Hw _]; subst.
    destruct (@fragments_text_nonempty f fs post Hw) as (c & t & Et).
    unfold transcribe_response. cbn [resp_text]. rewrite Et at 1.
    rewrite (strip_fences_plain _ Hf), tryRepairJson_trim, R.
    cbn [bind]. unfold segments_or_empty, segments_object.
    cbn [get_prop obj_get]. 
    change (jstr_eqb key_segments key_segments) with true.
    cbn [bind]. apply mapM_scraped.
Qed.

(** Segments whose timestamps are out of order stay out of order, through
    the parse and through the normalisation; and a fragment that stands
    twice in an answer is scraped twice. *)
Lemma recovery_preserves_order_witness :
  (tryRepairJson unordered_doc = Returns (segments_object unordered_objects)
   /\ exists segs,
        get_prop (segments_object unordered_objects) key_segments
        = Returns (Some (JArr segs))
        /\ forall out,
             transcribe_response (Response (Some unordered_doc)) = Returns out ->
             Forall2 (fun s o => convert_segment s = Returns o) segs out)
  /\ tryRepairJson repeated_text
     = Returns (segments_object [quoted_fragment_segment; quoted_fragment_segment])
  /\ transcribe_response (Response (Some repeated_text))
     = Returns [Segment (lit "00:00:01.000") (lit "00:00:02.000") (lit "it's ok");
                Segment (lit "00:00:01.000") (lit "00:00:02.000") (lit "it's ok")].
Proof.
  split.
  - assert (H : tryRepairJson unordered_doc
                = Returns (segments_object unordered_objects)).
    { apply (proj1 (proj2 recovery_preserves_order) [] [] [] [] []
               unordered_texts unordered_objects []);
        try discriminate; try (intros []); repeat constructor. }
    split; [exact H |].
    destruct (proj1 recovery_preserves_order _ _ H) as (segs & G & _ & M).
    exists segs. split; [exact G |].
    intros out. apply (M (tl unordered_doc) 123%N).
    vm_compute. reflexivity.
  - assert (W : Forall well_scraped repeated_fragments).
    { repeat constructor; try exact quoted_fragment_shape. }
    destruct (proj2 (proj2 recovery_preserves_order) repeated_fragments
                (lit "} ...") W eq_refl) as [_ H].
    destruct H as [R C].
    + discriminate.
    + vm_compute. reflexivity.
    + vm_compute. reflexivity.
    + unfold repeated_text. split.
      * rewrite R. vm_compute. reflexivity.
      * rewrite C by (vm_compute; reflexivity). vm_compute. reflexivity.
Defined.
